(** * The Devito loop engine: a model of [devito/dle/backends/advanced.py]

    The rewriter classes [DevitoRewriter], [DevitoSpeculativeRewriter] and
    [DevitoCustomRewriter] are embedded as pure functions over an
    Iteration/Expression tree.  Python exceptions become a [Result],
    [OrderedDict]s become association lists that keep insertion order, and
    the symbolic (sympy) loop limits become a small expression type that
    can be evaluated once the run-time sizes are known. *)

From Stdlib Require Import ZArith String Ascii Bool List Lia Permutation.
Import ListNotations.
Set Warnings "-register-all".

(** ** Python values, exceptions and library functions used by the module *)

Module Py.

Inductive Exception : Type :=
| AssertionError | AttributeError | IndexError | KeyError | TypeError
| ValueError | ZeroDivisionError | DLEException.

Inductive Result (A : Type) : Type :=
| Ok (a : A)
| Raise (e : Exception).
Arguments Ok {A} a.
Arguments Raise {A} e.

Definition bind {A B} (r : Result A) (k : A -> Result B) : Result B :=
  match r with Ok a => k a | Raise e => Raise e end.

Definition raises {A} (r : Result A) : bool :=
  match r with Ok _ => false | Raise _ => true end.

(** [l[-1]] *)
Definition item_last {A} (l : list A) : Result A :=
  match rev l with x :: _ => Ok x | [] => Raise IndexError end.

(** [l[0]] *)
Definition item_first {A} (l : list A) : Result A :=
  match l with x :: _ => Ok x | [] => Raise IndexError end.

(** [s.split(sep)] for a one-character separator. *)
Fixpoint split (sep : ascii) (s : string) : list string :=
  match s with
  | EmptyString => [EmptyString]
  | String c r =>
      if Ascii.eqb c sep then EmptyString :: split sep r
      else match split sep r with
           | w :: ws => String c w :: ws
           | [] => [String c EmptyString]
           end
  end.

(** [itertools.combinations(l, r)]: the [r]-element selections of [l],
    by position, in lexicographic order of the positions. *)
Fixpoint combinations {A} (r : nat) (l : list A) : list (list A) :=
  match r with
  | O => [[]]
  | S r' =>
      match l with
      | [] => []
      | x :: t => map (cons x) (combinations r' t) ++ combinations r t
      end
  end.

(** [devito.tools.grouper(l, n)]: consecutive groups of [n] items, the
    last one possibly shorter; nothing at all when [n] is 0. *)
Fixpoint grouper_fuel {A} (fuel : nat) (l : list A) (n : nat) : list (list A) :=
  match fuel with
  | O => []
  | S fuel' =>
      match l with
      | [] => []
      | _ => firstn n l :: grouper_fuel fuel' (skipn n l) n
      end
  end.

Definition grouper {A} (l : list A) (n : nat) : list (list A) :=
  match n with O => [] | _ => grouper_fuel (length l) l n end.

(** [sorted(set(l))] on strings. *)
Fixpoint insert_sorted (s : string) (l : list string) : list string :=
  match l with
  | [] => [s]
  | x :: t => if String.leb s x then s :: l else x :: insert_sorted s t
  end.

Definition sorted (l : list string) : list string :=
  fold_right insert_sorted [] l.

Definition sorted_set (l : list string) : list string :=
  sorted (nodup string_dec l).

(** [",".join(l)] *)
Fixpoint join (sep : string) (l : list string) : string :=
  match l with
  | [] => EmptyString
  | [x] => x
  | x :: t => (x ++ sep ++ join sep t)%string
  end.

(** [devito.tools.filter_ordered]: drop repeated items, keep first
    occurrences in order. *)
Fixpoint filter_ordered {A} (eqb : A -> A -> bool) (l : list A) : list A :=
  match l with
  | [] => []
  | x :: t => x :: filter (fun y => negb (eqb x y)) (filter_ordered eqb t)
  end.

(** *** [OrderedDict] as an insertion-ordered association list *)

Section OrderedDict.
Context {K V : Type}.
Variable eqb : K -> K -> bool.

Definition OrderedDict := list (K * V).

Fixpoint get (d : OrderedDict) (k : K) : option V :=
  match d with
  | [] => None
  | (k', v) :: t => if eqb k k' then Some v else get t k
  end.

Definition contains (d : OrderedDict) (k : K) : bool :=
  match get d k with Some _ => true | None => false end.

(** [d[k] = v]: an existing key keeps its place. *)
Fixpoint setitem (d : OrderedDict) (k : K) (v : V) : OrderedDict :=
  match d with
  | [] => [(k, v)]
  | (k', v') :: t =>
      if eqb k k' then (k', v) :: t else (k', v') :: setitem t k v
  end.

(** [d.setdefault(k, v)]: the dictionary afterwards and the value held. *)
Definition setdefault (d : OrderedDict) (k : K) (v : V) : OrderedDict * V :=
  match get d k with
  | Some v' => (d, v')
  | None => (setitem d k v, v)
  end.

(** [d.update(other)] *)
Definition update (d other : OrderedDict) : OrderedDict :=
  fold_left (fun acc kv => setitem acc (fst kv) (snd kv)) other d.

Definition keys (d : OrderedDict) : list K := map fst d.
Definition values (d : OrderedDict) : list V := map snd d.
End OrderedDict.

End Py.

Import Py.

(** ** Symbolic integers, dimensions and functions *)

(** Loop limits are sympy expressions over run-time sizes and loop
    indices; only the operators the blocking pass builds are needed. *)
Inductive SExpr : Type :=
| Const (z : Z)
| Sym (s : string)
| Add (a b : SExpr)
| Sub (a b : SExpr)
| Mod (a b : SExpr).

Definition Env := string -> Z.

(** Value of a limit once every symbol is bound; [Mod] follows the sign of
    the divisor, as Python's [%] and sympy's [Mod] do. *)
Fixpoint eval (env : Env) (e : SExpr) : Z :=
  match e with
  | Const z => z
  | Sym s => env s
  | Add a b => (eval env a + eval env b)%Z
  | Sub a b => (eval env a - eval env b)%Z
  | Mod a b => (eval env a mod eval env b)%Z
  end.

Definition bind_var (env : Env) (x : string) (v : Z) : Env :=
  fun y => if String.eqb y x then v else env y.

Record Dimension : Type := mkDimension {
  dim_name : string;
  dim_size : option Z
}.

(** Modelled from the spec: [Dimension.symbolic_size] (devito/dimension.py
    is not part of the sources), the run-time resolved size of a
    dimension, a symbol named after it. *)
Definition symbolic_size (d : Dimension) : SExpr :=
  Sym (dim_name d ++ "_size")%string.

(** [d.size or d.symbolic_size] *)
Definition size_or_symbolic (d : Dimension) : SExpr :=
  match dim_size d with
  | Some 0%Z | None => symbolic_size d
  | Some z => Const z
  end.

(** numpy element types, with [np.dtype(t).itemsize]. *)
Inductive DType : Type :=
| float16 | float32 | float64 | int8 | int16 | int32 | int64.

Definition itemsize (t : DType) : Z :=
  match t with
  | int8 => 1
  | float16 | int16 => 2
  | float32 | int32 => 4
  | float64 | int64 => 8
  end%Z.

(** A [TensorFunction]/[SymbolicData] object as the passes see it. *)
Record Function : Type := mkFunction {
  fn_name : string;
  fn_indices : list Dimension;
  fn_shape : list Z;
  fn_dtype : DType;
  fn_mem_stack : bool;
  fn_is_SymbolicData : bool
}.

(** One operand of a stencil: a scalar temporary or an indexed function
    access with its index offsets.  The arithmetic combining the operands
    is opaque to the loop engine. *)
Inductive Access : Type :=
| Scalar (name : string)
| Indexed (f : Function) (offs : list Z).

Record Equation : Type := mkEquation {
  lhs : Access;
  rhs : list Access
}.

Inductive IterationProperty : Type :=
| SEQUENTIAL | PARALLEL | VECTOR | ELEMENTAL | REMAINDER
| TAG (n : nat).

(** [tagger(i)] *)
Definition tagger (i : nat) : IterationProperty := TAG i.

(** Modelled from the spec: the named OpenMP pragma builders of [omplang]
    (devito/dle/backends/utils.py is not part of the sources): for,
    collapse(n), simd-for, simd-for-aligned(names, info) and
    par-region(private-clause); any other pragma is kept as text. *)
Inductive Pragma : Type :=
| omp_for
| omp_collapse (n : nat)
| omp_simd_for
| omp_simd_for_aligned (names : string) (info : Z)
| omp_par_region (clause : string)
| pragma_text (s : string).

(** ** Nodes *)

Record Expression : Type := mkExpression {
  expr : Equation;
  dtype : DType
}.

(** A loop with the attributes the passes read.  [ident] stands for the
    identity of the loop object, Python's [id(i)]: the dictionaries of the
    passes are keyed by the loop object, and in the model by the loop's
    value, identity included, so that two loops of the input that are
    different objects are different keys even when all their attributes
    agree. *)
Record IterationOf (N : Type) : Type := mkIteration {
  nodes : list N;
  dim : Dimension;
  limits : SExpr * SExpr * SExpr;
  offsets : Z * Z;
  properties : list IterationProperty;
  pragmas : list Pragma;
  ident : nat
}.
Arguments mkIteration {N}.
Arguments nodes {N}.
Arguments dim {N}.
Arguments limits {N}.
Arguments offsets {N}.
Arguments properties {N}.
Arguments pragmas {N}.
Arguments ident {N}.

Inductive Node : Type :=
| NIteration (i : IterationOf Node)
| NExpression (e : Expression)
| NList (header : list Pragma) (body : list Node) (footer : list Pragma)
| NBlock (header : list Pragma) (body : list Node) (footer : list Pragma)
| NDenormals.

(** An [Iteration] is a loop whose body is made of nodes. *)
Abbreviation Iteration := (IterationOf Node) (only parsing).

(** [limits[0]], [limits[1]], [limits[2]] *)
Definition limits0 (i : Iteration) : SExpr := fst (fst (limits i)).
Definition limits1 (i : Iteration) : SExpr := snd (fst (limits i)).
Definition limits2 (i : Iteration) : SExpr := snd (limits i).

(** [offsets[0]], [offsets[1]]: the most negative and the most positive
    stencil offset honoured by the loop. *)
Definition offsets0 (i : Iteration) : Z := fst (offsets i).
Definition offsets1 (i : Iteration) : Z := snd (offsets i).

(** *** Decidable equality: dictionary keys and [in] tests *)

Definition Dimension_eq_dec (a b : Dimension) : {a = b} + {a <> b}.
Proof. repeat decide equality. Defined.

Definition DType_eq_dec (a b : DType) : {a = b} + {a <> b}.
Proof. decide equality. Defined.

Definition Function_eq_dec (a b : Function) : {a = b} + {a <> b}.
Proof.
  decide equality; try apply bool_dec; try apply string_dec;
    try apply DType_eq_dec;
    apply list_eq_dec; first [apply Z.eq_dec | apply Dimension_eq_dec].
Defined.

Definition Expression_eq_dec (a b : Expression) : {a = b} + {a <> b}.
Proof.
  decide equality; [apply DType_eq_dec|].
  decide equality.
  - apply list_eq_dec. decide equality;
      [apply string_dec | apply list_eq_dec, Z.eq_dec | apply Function_eq_dec].
  - decide equality;
      [apply string_dec | apply list_eq_dec, Z.eq_dec | apply Function_eq_dec].
Defined.

Definition IterationProperty_eq_dec (a b : IterationProperty) : {a = b} + {a <> b}.
Proof. decide equality; apply Nat.eq_dec. Defined.

Definition Pragma_eq_dec (a b : Pragma) : {a = b} + {a <> b}.
Proof.
  decide equality;
    first [apply Nat.eq_dec | apply Z.eq_dec | apply string_dec].
Defined.

Definition SExpr_eq_dec (a b : SExpr) : {a = b} + {a <> b}.
Proof. decide equality; first [apply Z.eq_dec | apply string_dec]. Defined.

Fixpoint Node_eq_dec (a b : Node) : {a = b} + {a <> b}.
Proof.
  decide equality; try (apply list_eq_dec; first [apply Pragma_eq_dec | apply Node_eq_dec]).
  - decide equality.
    + apply Nat.eq_dec.
    + apply list_eq_dec, Pragma_eq_dec.
    + apply list_eq_dec, IterationProperty_eq_dec.
    + decide equality; apply Z.eq_dec.
    + repeat decide equality.
    + apply Dimension_eq_dec.
    + apply list_eq_dec, Node_eq_dec.
  - apply Expression_eq_dec.
Defined.

Definition Iteration_eq_dec (a b : Iteration) : {a = b} + {a <> b}.
Proof.
  destruct (Node_eq_dec (NIteration a) (NIteration b)) as [e | n].
  - left. congruence.
  - right. congruence.
Defined.

(** Python compares nodes by object identity; the model compares their
    values, which for loops include [ident]: two nodes are one dictionary
    key when they agree in every attribute and, loop by loop, in
    identity. *)
Definition Node_eqb (a b : Node) : bool :=
  if Node_eq_dec a b then true else false.
Definition Iteration_eqb (a b : Iteration) : bool :=
  if Iteration_eq_dec a b then true else false.
Definition Dimension_eqb (a b : Dimension) : bool :=
  if Dimension_eq_dec a b then true else false.
Definition Function_eqb (a b : Function) : bool :=
  if Function_eq_dec a b then true else false.
Definition DType_eqb (a b : DType) : bool :=
  if DType_eq_dec a b then true else false.
Definition IterationProperty_eqb (a b : IterationProperty) : bool :=
  if IterationProperty_eq_dec a b then true else false.

(** *** Node attributes and rebuilding *)

(** Modelled from the spec: the classification of a loop, read off the
    set of properties it carries ([devito/nodes.py] is not part of the
    sources). *)
Definition is_Parallel (i : Iteration) : bool :=
  existsb (IterationProperty_eqb PARALLEL) (properties i).
Definition is_Vectorizable (i : Iteration) : bool :=
  existsb (IterationProperty_eqb VECTOR) (properties i).
Definition is_Remainder (i : Iteration) : bool :=
  existsb (IterationProperty_eqb REMAINDER) (properties i).

(** Modelled from the spec: [i._rebuild(...)], the tree-rebuild primitive
    that constructs the node again with one field (constructor argument)
    replaced.  The rebuilt loop is a new object; in the model it carries
    the identity of the loop it was rebuilt from. *)
Definition with_nodes (i : Iteration) (ns : list Node) : Iteration :=
  mkIteration ns (dim i) (limits i) (offsets i) (properties i) (pragmas i)
              (ident i).
Definition with_limits (i : Iteration) (l : SExpr * SExpr * SExpr) : Iteration :=
  mkIteration (nodes i) (dim i) l (offsets i) (properties i) (pragmas i)
              (ident i).
Definition with_offsets (i : Iteration) (o : Z * Z) : Iteration :=
  mkIteration (nodes i) (dim i) (limits i) o (properties i) (pragmas i)
              (ident i).
Definition with_properties (i : Iteration) (p : list IterationProperty) : Iteration :=
  mkIteration (nodes i) (dim i) (limits i) (offsets i) p (pragmas i)
              (ident i).
Definition with_pragmas (i : Iteration) (p : list Pragma) : Iteration :=
  mkIteration (nodes i) (dim i) (limits i) (offsets i) (properties i) p
              (ident i).

(** [offsets=None] leaves the loop without offsets. *)
Definition no_offsets : Z * Z := (0%Z, 0%Z).

(** Modelled from the spec: the functions an [Expression] references,
    those of its indexed operands, left-hand side first, without
    repetitions. *)
Definition access_functions (a : Access) : list Function :=
  match a with
  | Scalar _ => []
  | Indexed f _ => [f]
  end.

Definition functions (e : Expression) : list Function :=
  filter_ordered Function_eqb
    (flat_map access_functions (lhs (expr e) :: rhs (expr e))).

(** Modelled from the spec: the output function of an [Expression], the
    array it writes; [None] for a scalar assignment. *)
Definition output_function (e : Expression) : option Function :=
  match lhs (expr e) with
  | Indexed f _ => Some f
  | Scalar _ => None
  end.

(** ** Tree utilities of [devito.dle] and [devito.visitors]

    These live outside the two source files; each is written down from
    what the specification says about it. *)

(** Modelled from the spec: [compose_nodes], which builds a tree by nesting
    a sequence of loops, outermost first, around a body.  The passes never
    call it without a loop; a bare body is then kept as a [List]. *)
Fixpoint nest (loops : list Iteration) (body : list Node) : list Node :=
  match loops with
  | [] => body
  | h :: t => [NIteration (with_nodes h (nest t body))]
  end.

Definition compose_nodes (loops : list Iteration) (body : list Node) : Node :=
  match loops with
  | [] => NList [] body []
  | h :: t => NIteration (with_nodes h (nest t body))
  end.

(** Modelled from the spec: [retrieve_iteration_tree], the maximal
    iteration nests of a tree, each the chain of loops from an outermost
    loop down to a loop holding no further loop. *)
Fixpoint retrieve_iteration_tree (n : Node) : list (list Iteration) :=
  match n with
  | NIteration i =>
      match flat_map retrieve_iteration_tree (nodes i) with
      | [] => [[i]]
      | sub => map (cons i) sub
      end
  | NExpression _ => []
  | NList _ b _ => flat_map retrieve_iteration_tree b
  | NBlock _ b _ => flat_map retrieve_iteration_tree b
  | NDenormals => []
  end.

(** Modelled from the spec: [filter_iterations(tree, key, stop='any')],
    the longest consecutive prefix of qualifying loops, stopping at the
    first loop that does not qualify. *)
Fixpoint filter_iterations (tree : list Iteration) (key : Iteration -> bool)
  : list Iteration :=
  match tree with
  | [] => []
  | i :: t => if key i then i :: filter_iterations t key else []
  end.

Fixpoint has_iteration (n : Node) : bool :=
  match n with
  | NIteration _ => true
  | NExpression _ => false
  | NList _ b _ => existsb has_iteration b
  | NBlock _ b _ => existsb has_iteration b
  | NDenormals => false
  end.

(** Modelled from the spec: [IsPerfectIteration], true of a loop when every
    level below it has exactly one child, down to the body. *)
Fixpoint IsPerfectIteration_node (n : Node) : bool :=
  match n with
  | NIteration i =>
      match nodes i with
      | [NIteration j as c] => IsPerfectIteration_node c
      | l => negb (existsb has_iteration l)
      end
  | _ => false
  end.

Definition IsPerfectIteration (i : Iteration) : bool :=
  IsPerfectIteration_node (NIteration i).

(** Modelled from the spec: [FindNodes(Denormals)] and
    [FindNodes(Expression)], the tree search for all nodes of one kind, in
    depth-first order. *)
Fixpoint FindNodes_Denormals (n : Node) : list Node :=
  match n with
  | NIteration i => flat_map FindNodes_Denormals (nodes i)
  | NExpression _ => []
  | NList _ b _ => flat_map FindNodes_Denormals b
  | NBlock _ b _ => flat_map FindNodes_Denormals b
  | NDenormals => [NDenormals]
  end.

Fixpoint FindNodes_Expression (n : Node) : list Expression :=
  match n with
  | NIteration i => flat_map FindNodes_Expression (nodes i)
  | NExpression e => [e]
  | NList _ b _ => flat_map FindNodes_Expression b
  | NBlock _ b _ => flat_map FindNodes_Expression b
  | NDenormals => []
  end.

Fixpoint insert_by_name (f : Function) (l : list Function) : list Function :=
  match l with
  | [] => [f]
  | x :: t =>
      if String.leb (fn_name f) (fn_name x) then f :: l
      else x :: insert_by_name f t
  end.

(** [filter_sorted(l, key=name)]: repetitions dropped, sorted by name. *)
Definition filter_sorted (l : list Function) : list Function :=
  fold_right insert_by_name [] (filter_ordered Function_eqb l).

(** Modelled from the spec: [FindSymbols('symbolics')], every array-like
    symbol referenced within a tree. *)
Definition FindSymbols_symbolics (ns : list Node) : list Function :=
  filter_sorted (flat_map functions (flat_map FindNodes_Expression ns)).

Definition as_list {A} (o : option A) : list A :=
  match o with Some a => [a] | None => [] end.

(** Modelled from the spec: [FindSymbols('symbolics-writes')], all array
    symbols that are written to, that is, the output functions of the
    expressions of a tree. *)
Definition FindSymbols_symbolics_writes (n : Node) : list Function :=
  filter_sorted
    (flat_map (fun e => as_list (output_function e)) (FindNodes_Expression n)).

(** Modelled from the spec: [Transformer(mapper).visit], the tree rewrite
    that replaces each subtree found in the mapper by its image and drops
    it when the image is [None]; every other node is rebuilt around its
    rewritten children. *)
Definition Mapper : Type := list (Node * option Node).

Fixpoint Transformer (mapper : Mapper) (n : Node) : option Node :=
  match get Node_eqb mapper n with
  | Some image => image
  | None =>
      let visit_all := flat_map (fun c => as_list (Transformer mapper c)) in
      match n with
      | NIteration i => Some (NIteration (with_nodes i (visit_all (nodes i))))
      | NExpression e => Some n
      | NList h b f => Some (NList h (visit_all b) f)
      | NBlock h b f => Some (NBlock h (visit_all b) f)
      | NDenormals => Some n
      end
  end.

(** ** Pass results *)

(** What iterating, measuring and testing the caller's [blockshape]
    parameter gives: nothing supplied, a bare number, a list or tuple of
    sizes, the per-dimension map of the docstring, or a one-dimensional
    NumPy array of sizes. *)
Inductive BlockShape : Type :=
| bs_None
| bs_scalar (z : Z)
| bs_sequence (l : list Z)
| bs_dict (l : list (Dimension * Z))
| bs_array (l : list Z).

(** The block size recorded for a blocked loop: the [heuristic] callable,
    [None], or whatever the caller's [blockshape] yielded. *)
Inductive BlockValue : Type :=
| bv_heuristic
| bv_None
| bv_int (z : Z)
| bv_key (d : Dimension).

(** The nested function [heuristic] of [_loop_blocking]. *)
Definition heuristic (dim_size : Z) : Z :=
  let ths := 8%Z in
  if (dim_size >? ths)%Z then ths else 1%Z.

(** [BlockingArg(blocked_dim, iteration, value)] *)
Record BlockingArg : Type := mkBlockingArg {
  blocked_dim : Dimension;
  iteration : Iteration;
  value : BlockValue
}.

(** The partial state update a pass returns, with the diagnostics it sent
    to [dle_warning] on the way. *)
Record Update : Type := mkUpdate {
  upd_nodes : list Node;
  upd_arguments : list BlockingArg;
  upd_flags : list string;
  upd_warnings : list string
}.

(** ** [DevitoRewriter._loop_blocking] *)

(** [Dimension("%s_block" % i.dim.name)] *)
Definition block_dimension (i : Iteration) : Dimension :=
  mkDimension (dim_name (dim i) ++ "_block")%string None.

Definition Blocked : Type := list (Iteration * Dimension).

(** The three loops built for one blocked iteration [i]; [d] is the block
    dimension that [blocked.setdefault] returned for it.  The loop over
    the blocks is a new object, built for [i], whose identity it carries
    in the model. *)
Definition inter_block_of (i : Iteration) (d : Dimension) : Iteration :=
  let block_size := symbolic_size d in
  let iter_size := size_or_symbolic (dim i) in
  let start := Sub (limits0 i) (Const (offsets0 i)) in
  let finish := Sub iter_size (Const (offsets1 i)) in
  let finish := Sub finish (Mod (Sub finish (Const (offsets1 i))) block_size) in
  mkIteration [] d (start, finish, block_size) no_offsets [PARALLEL] []
              (ident i).

Definition intra_block_of (TAG : IterationProperty) (i : Iteration) (d : Dimension)
  : Iteration :=
  let block_size := symbolic_size d in
  let inter_block := inter_block_of i d in
  let start := Sym (dim_name (dim inter_block)) in
  let finish := Add start block_size in
  with_properties
    (with_offsets (with_limits (with_nodes i []) (start, finish, Const 1%Z))
                  no_offsets)
    (properties i ++ [TAG; ELEMENTAL]).

Definition remainder_of (i : Iteration) (d : Dimension) : Iteration :=
  let iter_size := size_or_symbolic (dim i) in
  let inter_block := inter_block_of i d in
  let start := limits1 inter_block in
  let finish := Sub iter_size (Const (offsets1 i)) in
  with_offsets (with_limits (with_nodes i []) (start, finish, Const 1%Z))
               no_offsets.

Record Loops : Type := mkLoops {
  inter_blocks : list Iteration;
  intra_blocks : list Iteration;
  remainders : list Iteration
}.

(** The [for i in iterations] loop that fills the three lists and
    memoizes the block dimensions in [blocked]. *)
Definition build_loops (TAG : IterationProperty) (blocked : Blocked)
  (iterations : list Iteration) : Blocked * Loops :=
  fold_left
    (fun (acc : Blocked * Loops) (i : Iteration) =>
       let (blocked, l) := acc in
       let (blocked, d) := setdefault Iteration_eqb blocked i (block_dimension i) in
       (blocked,
        mkLoops (inter_blocks l ++ [inter_block_of i d])
                (intra_blocks l ++ [intra_block_of TAG i d])
                (remainders l ++ [remainder_of i d])))
    iterations (blocked, mkLoops [] [] []).

Definition dim_in (d : Dimension) (c : list Dimension) : bool :=
  existsb (Dimension_eqb d) c.

(** [iterations[-1].nodes] *)
Definition innermost_body (iterations : list Iteration) : list Node :=
  match rev iterations with
  | i :: _ => nodes i
  | [] => []
  end.

Definition blocked_tree_of (l : Loops) (body : list Node) : Node :=
  compose_nodes (inter_blocks l ++ intra_blocks l) body.

(** The remainder tree for the combination [c] of dimensions. *)
Definition remainder_tree_of (TAG : IterationProperty) (l : Loops)
  (body : list Node) (c : list Dimension) : Node :=
  let nodes :=
    map (fun br : Iteration * Iteration =>
           with_properties (fst br) (properties (fst br) ++ [REMAINDER]))
        (filter (fun br : Iteration * Iteration => negb (dim_in (dim (snd br)) c))
                (combine (inter_blocks l) (remainders l))) in
  let properties := [REMAINDER; TAG; ELEMENTAL] in
  let nodes :=
    nodes ++
    map (fun br : Iteration * Iteration =>
           let handle := if dim_in (dim (fst br)) c then snd br else fst br in
           with_properties handle properties)
        (combine (intra_blocks l) (remainders l)) in
  compose_nodes nodes body.

(** The combinations visited by the two nested [for] loops, in order. *)
Definition remainder_combinations (iterations : list Iteration)
  : list (list Dimension) :=
  flat_map (fun n => combinations (n + 1) (map dim iterations))
           (seq 0 (length iterations)).

Definition remainder_trees_of (TAG : IterationProperty) (l : Loops)
  (iterations : list Iteration) : list Node :=
  map (remainder_tree_of TAG l (innermost_body iterations))
      (remainder_combinations iterations).

(** The loops of a tree that the pass blocks. *)
Definition blockable (exclude_innermost : bool) (tree : list Iteration)
  : list Iteration :=
  let iterations := filter is_Parallel tree in
  if exclude_innermost
  then filter (fun i => negb (is_Vectorizable i)) iterations
  else iterations.

(** The body of [for tree in retrieve_iteration_tree(fold)]: the state is
    the pair of [blocked] and [mapper]. *)
Definition block_tree (exclude_innermost : bool) (st : Blocked * Mapper)
  (tree : list Iteration) : Blocked * Mapper :=
  let (blocked, mapper) := st in
  let iterations := blockable exclude_innermost tree in
  match iterations with
  | [] => st
  | root :: _ =>
      if negb (IsPerfectIteration root) then st
      else
        let TAG := tagger (length mapper) in
        let (blocked, l) := build_loops TAG blocked iterations in
        let blocked_tree := blocked_tree_of l (innermost_body iterations) in
        let remainder_trees := remainder_trees_of TAG l iterations in
        (blocked,
         setitem Node_eqb mapper (NIteration root)
           (Some (NList [] (blocked_tree :: remainder_trees) [])))
  end.

(** *** Block shape resolution *)

(** [not blockshape]: the truth test of the value.  NumPy gives an array
    of one item the truth value of the item and refuses one to an array
    of several items, with a [ValueError]; an empty array tests false. *)
Definition is_falsy (blockshape : BlockShape) : Result bool :=
  match blockshape with
  | bs_None => Ok true
  | bs_scalar z => Ok (z =? 0)%Z
  | bs_sequence l => Ok (match l with [] => true | _ => false end)
  | bs_dict l => Ok (match l with [] => true | _ => false end)
  | bs_array l =>
      match l with
      | [] => Ok true
      | [z] => Ok (z =? 0)%Z
      | _ => Raise ValueError
      end
  end.

(** [len(blockshape)]: a number has no length. *)
Definition len (blockshape : BlockShape) : Result nat :=
  match blockshape with
  | bs_None => Raise TypeError
  | bs_scalar _ => Raise TypeError
  | bs_sequence l => Ok (length l)
  | bs_dict l => Ok (length l)
  | bs_array l => Ok (length l)
  end.

(** What [zip] draws from [blockshape]: the items of a sequence or of an
    array, the keys of a map. *)
Definition iter_items (blockshape : BlockShape) : list BlockValue :=
  match blockshape with
  | bs_None => []
  | bs_scalar _ => []
  | bs_sequence l => map bv_int l
  | bs_dict l => map (fun kv => bv_key (fst kv)) l
  | bs_array l => map bv_int l
  end.

Definition more_entries : string :=
  "Provided 'blockshape' has more entries than blocked loops; dropping entries ...".
Definition fewer_entries : string :=
  "Provided 'blockshape' has fewer entries than blocked loops; dropping dimensions ...".

Definition Shape : Type := list (Iteration * BlockValue).

(** [{k: v for k, v in pairs}] *)
Definition dict_of (pairs : list (Iteration * BlockValue)) : Shape :=
  update Iteration_eqb [] pairs.

(** The [try]/[except TypeError] block: the shape built from the caller's
    value and the diagnostics emitted. *)
Definition supplied_shape (blocked : Blocked) (blockshape : BlockShape)
  : Result (Shape * list string) :=
  match len blockshape with
  | Ok nitems =>
      let nrequired := length blocked in
      let shape := dict_of (combine (keys blocked) (iter_items blockshape)) in
      let w1 := if (nrequired <? nitems)%nat then [more_entries] else [] in
      let w2 := if (nitems <? nrequired)%nat then [fewer_entries] else [] in
      Ok (shape, w1 ++ w2)
  | Raise TypeError =>
      bind (item_first (keys blocked))
           (fun k => Ok ([(k, match blockshape with
                              | bs_scalar z => bv_int z
                              | _ => bv_None
                              end)], []))
  | Raise e => Raise e
  end.

(** "Determine the block shape": the resolved shape and the diagnostics.
    The truth test of line 211 is outside the [try], so what it raises
    leaves the pass. *)
Definition determine_blockshape (blocked : Blocked) (blockshape : BlockShape)
  : Result (Shape * list string) :=
  bind (is_falsy blockshape) (fun falsy =>
  if falsy
  then Ok (map (fun k => (k, bv_heuristic)) (keys blocked), [])
  else
    bind (supplied_shape blocked blockshape)
         (fun sw =>
            let (shape, warnings) := sw in
            let missing :=
              filter (fun k => negb (contains Iteration_eqb shape k)) (keys blocked) in
            Ok (update Iteration_eqb shape (map (fun k => (k, bv_None)) missing),
                warnings))).

(** [[BlockingArg(v, k, blockshape[k]) for k, v in blocked.items()]] *)
Fixpoint blocking_args (blocked : Blocked) (shape : Shape)
  : Result (list BlockingArg) :=
  match blocked with
  | [] => Ok []
  | (k, v) :: t =>
      match get Iteration_eqb shape k with
      | None => Raise KeyError
      | Some size =>
          bind (blocking_args t shape)
               (fun rest => Ok (mkBlockingArg v k size :: rest))
      end
  end.

(** Everything after the loop over the nodes: arguments and flag. *)
Definition blocking_update (blocked : Blocked) (blockshape : BlockShape)
  (processed : list Node) : Result Update :=
  match blocked with
  | [] => Ok (mkUpdate processed [] [] [])
  | _ =>
      bind (determine_blockshape blocked blockshape)
           (fun sw =>
              let (shape, warnings) := sw in
              bind (blocking_args blocked shape)
                   (fun arguments =>
                      Ok (mkUpdate processed arguments ["blocking"%string] warnings)))
  end.

Section LoopBlocking.
(** [fold_blockable_tree] and [unfold_blocked_tree] belong to
    [devito.dle]; the pass is stated for any pair of them. *)
Variable fold_blockable_tree : Node -> bool -> Node.
Variable unfold_blocked_tree : Node -> Node.

(** The body of [for node in state.nodes]: the state is [blocked] and
    [processed]. *)
Definition block_node (exclude_innermost : bool) (st : Blocked * list Node)
  (node : Node) : Blocked * list Node :=
  let (blocked, processed) := st in
  let fold := fold_blockable_tree node exclude_innermost in
  let (blocked, mapper) :=
    fold_left (block_tree exclude_innermost)
              (retrieve_iteration_tree fold) (blocked, []) in
  let rebuilt := Transformer mapper fold in
  (blocked, processed ++ map unfold_blocked_tree (as_list rebuilt)).

(** [blocked] and [processed] once every node was visited. *)
Definition blocking_state (exclude_innermost : bool) (state_nodes : list Node)
  : Blocked * list Node :=
  fold_left (block_node exclude_innermost) state_nodes ([], []).

Definition _loop_blocking (blockinner : bool) (blockshape : BlockShape)
  (state_nodes : list Node) : Result Update :=
  let exclude_innermost := negb blockinner in
  let (blocked, processed) := blocking_state exclude_innermost state_nodes in
  blocking_update blocked blockshape processed.
End LoopBlocking.

(** ** [DevitoRewriter._ompize] *)

(** The target and configuration surface the passes consult:
    [psutil.cpu_count(logical=False)], [get_simd_items],
    [simdinfo['avx512f']] and the rewriter's [thresholds]. *)
Record Platform : Type := mkPlatform {
  cpu_count : Z;
  get_simd_items : DType -> option Z;
  simdinfo_avx512f : Z
}.

Record Thresholds : Type := mkThresholds {
  collapse : Z;
  max_fission : nat;
  min_fission : nat
}.

(** [key = lambda i: i.is_Parallel and not i.is_Vectorizable] *)
Definition omp_key (i : Iteration) : bool :=
  is_Parallel i && negb (is_Vectorizable i).

(** The pragma chosen for a nest with [nparallel] candidates. *)
Definition omp_pragma (p : Platform) (t : Thresholds) (nparallel : nat) : Pragma :=
  if (cpu_count p <? collapse t)%Z || (nparallel <? 2)%nat
  then omp_for
  else omp_collapse nparallel.

(** The body of [for tree in retrieve_iteration_tree(node)]: the state is
    [mapper] and [pvt]. *)
Definition ompize_tree (p : Platform) (t : Thresholds)
  (st : Mapper * list Function) (tree : list Iteration) : Mapper * list Function :=
  let (mapper, pvt) := st in
  let candidates := filter_iterations tree omp_key in
  match candidates with
  | [] => st
  | root :: _ =>
      let nparallel := length candidates in
      let parallel := omp_pragma p t nparallel in
      let mapper :=
        setitem Node_eqb mapper (NIteration root)
          (Some (NIteration (with_pragmas root (pragmas root ++ [parallel])))) in
      (mapper,
       pvt ++ filter fn_mem_stack (FindSymbols_symbolics (map NIteration tree)))
  end.

(** [v.is_Remainder] for a value of the mapper. *)
Definition node_is_Remainder (n : Node) : bool :=
  match n with
  | NIteration i => is_Remainder i
  | _ => false
  end.

(** [('private(%s)' % ','.join(pvt)) if pvt else ''] *)
Definition private_clause (pvt : list string) : string :=
  match pvt with
  | [] => EmptyString
  | _ => ("private(" ++ join "," pvt ++ ")")%string
  end.

(** The mapper after all nests of [node] were visited. *)
Definition ompize_selected (p : Platform) (t : Thresholds)
  (state_nodes : list Node) (node : Node) : Mapper * list Function :=
  let denormals := flat_map FindNodes_Denormals state_nodes in
  let mapper := update Node_eqb [] (map (fun i => (i, None)) denormals) in
  fold_left (ompize_tree p t) (retrieve_iteration_tree node) (mapper, []).

(** "Build the parallel region" *)
Definition par_region_of (state_nodes : list Node) (st : Mapper * list Function)
  : Node :=
  let denormals := flat_map FindNodes_Denormals state_nodes in
  let (mapper, pvt) := st in
  let pvt := sorted_set (map fn_name pvt) in
  let pvt := private_clause pvt in
  NBlock [omp_par_region pvt]
         (denormals ++ flat_map (fun v => as_list v) (values mapper))
         [].

(** The loop that redirects the mapper: a selected root goes to the
    region, or to [None] when its rebuilt value is a remainder loop. *)
Definition redirect (par_region : Node) (mapper : Mapper) : Mapper :=
  fold_left
    (fun (m : Mapper) (kv : Node * option Node) =>
       match snd kv with
       | Some v =>
           setitem Node_eqb m (fst kv)
             (if node_is_Remainder v then None else Some par_region)
       | None => m
       end)
    mapper mapper.

Definition ompize_node (p : Platform) (t : Thresholds)
  (state_nodes : list Node) (node : Node) : option Node :=
  let st := ompize_selected p t state_nodes node in
  let par_region := par_region_of state_nodes st in
  Transformer (redirect par_region (fst st)) node.

Definition _ompize (p : Platform) (t : Thresholds) (state_nodes : list Node)
  : list Node :=
  flat_map (fun node => as_list (ompize_node p t state_nodes node)) state_nodes.

(** ** [DevitoRewriter._loop_fission] *)

(** [[e for e in candidate.nodes if e.is_Expression]] *)
Definition expressions_of (ns : list Node) : list Expression :=
  flat_map (fun n => match n with NExpression e => [e] | _ => [] end) ns.

(** Modelled from the spec: [promote_scalar_expressions] of [devito.dse],
    which promotes the scalar temporaries the expressions assign to
    tensor temporaries of the given shape over the given dimensions, and
    rewrites every use of them. *)
Definition promote_access (shape : list Z) (indices : list Dimension)
  (onstack : bool) (dt : DType) (written : list string) (a : Access) : Access :=
  match a with
  | Scalar s =>
      if existsb (String.eqb s) written
      then Indexed (mkFunction s indices shape dt onstack false)
                   (map (fun _ => 0%Z) indices)
      else a
  | Indexed _ _ => a
  end.

Definition promote_scalar_expressions (exprs : list Equation) (shape : list Z)
  (indices : list Dimension) (onstack : bool) : list Equation :=
  let written :=
    flat_map (fun e => match lhs e with Scalar s => [s] | Indexed _ _ => [] end)
             exprs in
  let promote := promote_access shape indices onstack float32 written in
  map (fun e => mkEquation (promote (lhs e)) (map promote (rhs e))) exprs.

(** [any(dim != i.indices[-1] for i in functions)], which stops at the
    first function with another trailing dimension. *)
Fixpoint any_other_dim (dim : Dimension) (funcs : list Function) : Result bool :=
  match funcs with
  | [] => Ok false
  | i :: t =>
      bind (item_last (fn_indices i))
           (fun d => if Dimension_eqb dim d then any_other_dim dim t else Ok true)
  end.

Section LoopFission.
(** [list(set.union(...))]: Python lists the members of a set in an order
    of the set's own, which the language does not specify; the pass is
    stated for any listing [listed] of the functions collected from the
    expressions. *)
Variable listed : list Function -> list Function.

(** The body of [for tree in retrieve_iteration_tree(node)]: [None] when
    the tree is skipped, else the entry added to the mapper. *)
Definition fission_tree (t : Thresholds) (tree : list Iteration)
  : Result (option (Node * Node)) :=
  if (length tree <=? 1)%nat then Ok None
  else
    match rev tree with
    | [] => Ok None
    | candidate :: _ =>
        let expressions := expressions_of (nodes candidate) in
        if (length expressions <? max_fission t)%nat then Ok None
        else if negb (length expressions =? length (nodes candidate))%nat then Ok None
        else
          match expressions with
          | [] => Raise TypeError
          | _ =>
              let funcs := listed (flat_map functions expressions) in
              let wrapped := map expr expressions in
              match funcs with
              | [] => Ok None
              | handle :: _ =>
                  bind (item_last (fn_indices handle)) (fun dim =>
                  bind (item_last (fn_shape handle)) (fun size =>
                  bind (any_other_dim dim funcs) (fun mixed =>
                  if mixed then Ok None
                  else
                    let wrapped :=
                      promote_scalar_expressions wrapped [size] [dim] true in
                    if negb (length wrapped =? length expressions)%nat
                    then Raise AssertionError
                    else
                      let rebuilt :=
                        map (fun se : Equation * Expression =>
                               mkExpression (fst se) (dtype (snd se)))
                            (combine wrapped expressions) in
                      let properties := properties candidate ++ [ELEMENTAL] in
                      let n := min_fission t in
                      let fissioned :=
                        map (fun g =>
                               NIteration
                                 (with_nodes (with_properties candidate properties)
                                             (map NExpression g)))
                            (grouper rebuilt n) in
                      Ok (Some (NIteration candidate, NList [] fissioned [])))))
              end
          end
    end.

Fixpoint fission_mapper (t : Thresholds) (trees : list (list Iteration))
  (mapper : Mapper) : Result Mapper :=
  match trees with
  | [] => Ok mapper
  | tree :: rest =>
      bind (fission_tree t tree)
           (fun entry =>
              fission_mapper t rest
                (match entry with
                 | Some (k, v) => setitem Node_eqb mapper k (Some v)
                 | None => mapper
                 end))
  end.

Fixpoint _loop_fission (t : Thresholds) (state_nodes : list Node)
  : Result (list Node) :=
  match state_nodes with
  | [] => Ok []
  | node :: rest =>
      bind (fission_mapper t (retrieve_iteration_tree node) [])
           (fun mapper =>
              bind (_loop_fission t rest)
                   (fun processed => Ok (as_list (Transformer mapper node) ++ processed)))
  end.
End LoopFission.

(** What a listing of a set is known to be: every member, once. *)
Definition lists_the_set (listed : list Function -> list Function) : Prop :=
  forall l, NoDup (listed l) /\ forall f, In f (listed l) <-> In f l.

(** Two listings: first uses first, and last uses first. *)
Definition first_use_order (l : list Function) : list Function :=
  filter_ordered Function_eqb l.
Definition last_use_order (l : list Function) : list Function :=
  rev (filter_ordered Function_eqb l).

(** ** [DevitoSpeculativeRewriter._padding] *)

(** [max(shapes, key=len)]: the first of the longest shapes. *)
Fixpoint max_by_len (shapes : list (list Z)) : list Z :=
  match shapes with
  | [] => []
  | [s] => s
  | s :: t =>
      let m := max_by_len t in
      if (length m <=? length s)%nat then s else m
  end.

(** Modelled from the spec: [roundm] of [devito.tools], which rounds [x]
    up to the next multiple of [y]; the remainder by zero is an error. *)
Definition roundm (x y : Z) : Result Z :=
  if (y =? 0)%Z then Raise ZeroDivisionError
  else Ok (if (x mod y =? 0)%Z then x else (x + y - x mod y)%Z).

(** [[i for i in handle if i.shape[-1] == last]] *)
Fixpoint same_trailing (last : Z) (handle : list Function) : Result (list Function) :=
  match handle with
  | [] => Ok []
  | i :: t =>
      bind (item_last (fn_shape i))
           (fun s =>
              bind (same_trailing last t)
                   (fun rest => Ok (if (s =? last)%Z then i :: rest else rest)))
  end.

(** [e.output_function in candidates] *)
Definition writes_one_of (candidates : list Function) (e : Expression) : bool :=
  match output_function e with
  | Some f => existsb (Function_eqb f) candidates
  | None => false
  end.

(** The padded shadow of [k]: a [TensorFunction] named [p<name>] whose
    trailing extent is rounded up. *)
Definition padded_buffer (simd_items : Z) (k : Function) : Result Function :=
  bind (item_last (fn_shape k)) (fun s =>
  bind (roundm s simd_items) (fun r =>
  Ok (mkFunction ("p" ++ fn_name k)%string (fn_indices k)
                 (removelast (fn_shape k) ++ [r]) float32
                 (fn_mem_stack k) false))).

Definition Padding : Type := list (Function * Function).

Fixpoint padded_buffers (simd_items : Z) (candidates : list Function)
  : Result Padding :=
  match candidates with
  | [] => Ok []
  | k :: t =>
      bind (padded_buffer simd_items k) (fun v =>
      bind (padded_buffers simd_items t) (fun rest => Ok ((k, v) :: rest)))
  end.

(** The body of [for node in state.nodes]: the entries one tree adds to
    the mapper, none when the tree is skipped. *)
Definition padding_node (p : Platform) (node : Node) : Result Padding :=
  let handle := FindSymbols_symbolics_writes node in
  match handle with
  | [] => Ok []
  | _ =>
      let shape := max_by_len (map fn_shape handle) in
      match shape with
      | [] => Ok []
      | _ =>
          bind (item_last shape) (fun last =>
          bind (same_trailing last handle) (fun candidates =>
          match candidates with
          | [] => Ok []
          | _ =>
              let exprs :=
                filter (writes_one_of candidates) (FindNodes_Expression node) in
              match exprs with
              | [] => Raise AssertionError
              | e0 :: _ =>
                  let dt := dtype e0 in
                  if negb (forallb (fun e => DType_eqb (dtype e) dt) exprs)
                  then Raise AssertionError
                  else
                    let simd_items :=
                      match get_simd_items p dt with
                      | Some n => n
                      | None => (simdinfo_avx512f p / itemsize dt)%Z
                      end in
                    padded_buffers simd_items candidates
              end
          end))
      end
  end.

Fixpoint padding_mapper (p : Platform) (state_nodes : list Node) (mapper : Padding)
  : Result Padding :=
  match state_nodes with
  | [] => Ok mapper
  | node :: rest =>
      bind (padding_node p node)
           (fun entries =>
              padding_mapper p rest (update Function_eqb mapper entries))
  end.

(** Modelled from the spec: [SubstituteExpression(mapper).visit], which
    rewrites all references to each candidate into its padded shadow. *)
Definition substitute_access (mapper : Padding) (a : Access) : Access :=
  match a with
  | Scalar _ => a
  | Indexed f offs =>
      match get Function_eqb mapper f with
      | Some f' => Indexed f' offs
      | None => a
      end
  end.

Definition substitute_expression (mapper : Padding) (e : Expression) : Expression :=
  mkExpression
    (mkEquation (substitute_access mapper (lhs (expr e)))
                (map (substitute_access mapper) (rhs (expr e))))
    (dtype e).

Fixpoint SubstituteExpression (mapper : Padding) (n : Node) : Node :=
  match n with
  | NIteration i =>
      NIteration (with_nodes i (map (SubstituteExpression mapper) (nodes i)))
  | NExpression e => NExpression (substitute_expression mapper e)
  | NList h b f => NList h (map (SubstituteExpression mapper) b) f
  | NBlock h b f => NBlock h (map (SubstituteExpression mapper) b) f
  | NDenormals => NDenormals
  end.

(** Modelled from the spec: [copy_arrays(mapper, reverse)], one loop nest
    per entry over the extents of the original array, copying the
    original into its shadow ([reverse=True], copy-in) or back.  The loops
    are new objects built for no loop of the input; the model gives them
    the identity 0. *)
Definition copy_nest (reverse : bool) (kv : Function * Function) : list Node :=
  let (k, v) := kv in
  let loops :=
    map (fun sj : Z * Dimension =>
           mkIteration [] (snd sj) (Const 0%Z, Const (fst sj), Const 1%Z)
                       no_offsets [] [] 0)
        (combine (fn_shape k) (fn_indices k)) in
  let offs := map (fun _ => 0%Z) (fn_indices k) in
  let (l, r) := if reverse then (v, k) else (k, v) in
  nest loops
       [NExpression (mkExpression (mkEquation (Indexed l offs) [Indexed r offs])
                                  (fn_dtype k))].

Definition copy_arrays (mapper : Padding) (reverse : bool) : list Node :=
  flat_map (copy_nest reverse) mapper.

Definition _padding (p : Platform) (state_nodes : list Node) : Result (list Node) :=
  bind (padding_mapper p state_nodes [])
       (fun mapper =>
          let processed := map (SubstituteExpression mapper) state_nodes in
          let mapper := filter (fun kv => fn_is_SymbolicData (fst kv)) mapper in
          let init := copy_arrays mapper true in
          let copyback := copy_arrays mapper false in
          Ok (init ++ processed ++ copyback)).

(** ** [DevitoCustomRewriter] *)

Inductive Pass : Type :=
| pass_loop_fission
| pass_padding
| pass_create_elemental_functions.

(** [DevitoCustomRewriter.passes_mapper] *)
Definition passes_mapper : list (string * Pass) :=
  [("fission", pass_loop_fission);
   ("padding", pass_padding);
   ("split", pass_create_elemental_functions)]%string.

(** The [passes] argument: a string, or an object of another kind, which
    has no [split] method. *)
Inductive PyArg : Type :=
| py_str (s : string)
| py_list (l : list string)
| py_None.

Record Params : Type := mkParams {
  openmp : bool;
  blockshape : BlockShape;
  blockinner : bool
}.

(** The attributes of the rewriter object; [None] until assigned. *)
Record Self : Type := mkSelf {
  self_passes : option (list string);
  self_nodes : option (list Node);
  self_params : option Params
}.

Definition new_object : Self := mkSelf None None None.

(** [passes.split(',')] *)
Definition split_passes (passes : PyArg) : Result (list string) :=
  match passes with
  | py_str s => Ok (split "," s)
  | py_list _ => Raise AttributeError
  | py_None => Raise AttributeError
  end.

(** [DevitoCustomRewriter.__init__]: the outcome and the object as the
    constructor left it.  The base class constructor stores [nodes] and
    [params]. *)
Definition __init__ (self : Self) (nodes : list Node) (passes : PyArg)
  (params : Params) : Result unit * Self :=
  match split_passes passes with
  | Raise AttributeError => (Raise DLEException, self)
  | Raise e => (Raise e, self)
  | Ok passes =>
      if negb (forallb (fun i => contains String.eqb passes_mapper i) passes)
      then (Raise DLEException, self)
      else (Ok tt, mkSelf (Some passes) (Some nodes) (Some params))
  end.

(** ** Execution of a loop tree *)

(** Modelled from the spec: an [Iteration] stands for the loop
    [for (v = limits[0] - offsets[0]; v < limits[1] - offsets[1]; v += limits[2])]
    over the variable named after its dimension; these are the values
    [v] takes.  A loop whose step is not positive is given no iterations. *)
Definition loop_values (start finish step : Z) : list Z :=
  if (step <=? 0)%Z then []
  else map (fun k => (start + Z.of_nat k * step)%Z)
           (seq 0 (Z.to_nat ((finish - start + step - 1) / step))).

Definition iteration_values (env : Env) (i : Iteration) : list Z :=
  loop_values (eval env (limits0 i) - offsets0 i)
              (eval env (limits1 i) - offsets1 i)
              (eval env (limits2 i)).

(** The index points at which the expressions of a tree are executed, in
    execution order: each point gives the values of the variables [dims]. *)
Fixpoint executed (dims : list string) (env : Env) (n : Node) : list (list Z) :=
  match n with
  | NIteration i =>
      flat_map
        (fun v =>
           flat_map (executed dims (bind_var env (dim_name (dim i)) v)) (nodes i))
        (iteration_values env i)
  | NExpression _ => [map env dims]
  | NList _ b _ => flat_map (executed dims env) b
  | NBlock _ b _ => flat_map (executed dims env) b
  | NDenormals => []
  end.

(** The body of a [List] or [Block]. *)
Definition body_of (n : Node) : list Node :=
  match n with
  | NBlock _ b _ => b
  | NList _ b _ => b
  | _ => []
  end.

(** ** Example trees *)

Module Examples.
Local Open Scope string_scope.
Local Open Scope Z_scope.

(** The scenario of three perfectly nested parallel loops over [i]
    (size 20), [j] (size 20) and [k] (size 4, vectorizable). *)
Definition i := mkDimension "i" (Some 20).
Definition j := mkDimension "j" (Some 20).
Definition k := mkDimension "k" (Some 4).

Definition u := mkFunction "u" [i; j; k] [20; 20; 4] float32 false true.
Definition v := mkFunction "v" [i; j; k] [20; 20; 4] float32 false true.

Definition stencil : Expression :=
  mkExpression (mkEquation (Indexed u [0; 0; 0]) [Indexed v [0; 0; 0]]) float32.

Definition loop_k : Iteration :=
  mkIteration [NExpression stencil] k (Const 0, Const 4, Const 1) (0, 0)
              [PARALLEL; VECTOR] [] 3.
Definition loop_j : Iteration :=
  mkIteration [NIteration loop_k] j (Const 0, Const 20, Const 1) (0, 0)
              [PARALLEL] [] 2.
Definition loop_i : Iteration :=
  mkIteration [NIteration loop_j] i (Const 0, Const 20, Const 1) (0, 0)
              [PARALLEL] [] 1.

Definition nest3 : Node := NIteration loop_i.
Definition tree3 : list Iteration := [loop_i; loop_j; loop_k].

Definition platform : Platform :=
  mkPlatform 64
    (fun t => match t with float32 => Some 8 | float64 => Some 4 | _ => None end)
    64.
Definition thresholds : Thresholds := mkThresholds 32 2 1.

(** A second 3-deep nest that agrees with the first in every attribute
    but is made of other loop objects, and a sequential loop over time
    around the two nests. *)
Definition twin_k : Iteration :=
  mkIteration [NExpression stencil] k (Const 0, Const 4, Const 1) (0, 0)
              [PARALLEL; VECTOR] [] 23.
Definition twin_j : Iteration :=
  mkIteration [NIteration twin_k] j (Const 0, Const 20, Const 1) (0, 0)
              [PARALLEL] [] 22.
Definition twin_i : Iteration :=
  mkIteration [NIteration twin_j] i (Const 0, Const 20, Const 1) (0, 0)
              [PARALLEL] [] 21.
Definition twin3 : Node := NIteration twin_i.

Definition time := mkDimension "time" (Some 10).
Definition time_loop : Iteration :=
  mkIteration [nest3; twin3] time (Const 0, Const 10, Const 1) (0, 0)
              [SEQUENTIAL] [] 20.

(** A tree without foldable levels is left as it is by
    [fold_blockable_tree] and [unfold_blocked_tree]. *)
Definition nothing_to_fold : Node -> bool -> Node := fun n _ => n.
Definition nothing_to_unfold : Node -> Node := fun n => n.

(** The loops blocked in that nest when the innermost is excluded, and
    the nest after blocking. *)
Definition blocked2 : Blocked := fst (block_tree true ([], []) tree3).
Definition blocking_mapper3 : Mapper := snd (block_tree true ([], []) tree3).
Definition blocked_nest3 : Node :=
  match Transformer blocking_mapper3 nest3 with
  | Some n => n
  | None => nest3
  end.

(** What the OpenMP pass selects in the blocked nest; its second entry
    is the root of a remainder tree. *)
Definition selected3 : Mapper * list Function :=
  ompize_selected platform thresholds [blocked_nest3] blocked_nest3.

(** Two arrays over the same dimensions whose trailing extents differ,
    one being padded, and a 2-deep nest that copies between them. *)
Definition a := mkFunction "a" [i; j] [20; 20] float32 false true.
Definition pa := mkFunction "pa" [i; j] [20; 24] float32 false false.

Definition copy_in : Expression :=
  mkExpression (mkEquation (Indexed pa [0; 0]) [Indexed a [0; 0]]) float32.
Definition copy_out : Expression :=
  mkExpression (mkEquation (Indexed a [0; 0]) [Indexed pa [0; 0]]) float32.

Definition mixed_j : Iteration :=
  mkIteration [NExpression copy_in; NExpression copy_out] j
              (Const 0, Const 20, Const 1) (0, 0) [PARALLEL] [] 5.
Definition mixed_i : Iteration :=
  mkIteration [NIteration mixed_j] i (Const 0, Const 20, Const 1) (0, 0)
              [PARALLEL] [] 4.
Definition mixed_tree : list Iteration := [mixed_i; mixed_j].

(** An array and its transpose, whose trailing dimensions are [j] and
    [i], and a 2-deep nest that copies between them. *)
Definition at_ := mkFunction "at" [j; i] [20; 20] float32 false true.

Definition transpose_in : Expression :=
  mkExpression (mkEquation (Indexed at_ [0; 0]) [Indexed a [0; 0]]) float32.
Definition transpose_out : Expression :=
  mkExpression (mkEquation (Indexed a [0; 0]) [Indexed at_ [0; 0]]) float32.

Definition crossed_j : Iteration :=
  mkIteration [NExpression transpose_in; NExpression transpose_out] j
              (Const 0, Const 20, Const 1) (0, 0) [PARALLEL] [] 15.
Definition crossed_i : Iteration :=
  mkIteration [NIteration crossed_j] i (Const 0, Const 20, Const 1) (0, 0)
              [PARALLEL] [] 14.
Definition crossed_tree : list Iteration := [crossed_i; crossed_j].


(** A nest writing a single-precision and a double-precision array of the
    same shape. *)
Definition d := mkFunction "d" [i; j] [20; 20] float64 false true.

Definition write_a : Expression :=
  mkExpression (mkEquation (Indexed a [0; 0]) [Indexed d [0; 0]]) float32.
Definition write_d : Expression :=
  mkExpression (mkEquation (Indexed d [0; 0]) [Indexed a [0; 0]]) float64.

Definition two_dtypes : Node :=
  NIteration
    (mkIteration
       [NIteration
          (mkIteration [NExpression write_a; NExpression write_d] j
                       (Const 0, Const 20, Const 1) (0, 0) [PARALLEL] [] 7)]
       i (Const 0, Const 20, Const 1) (0, 0) [PARALLEL] [] 6).

(** A one-sided stencil: the loop over [x] (size 13) reads two points
    ahead, so its offsets are [0] and [2] and it runs over [0 .. 10]. *)
Definition x := mkDimension "x" (Some 13).
Definition w := mkFunction "w" [x] [13] float32 false true.

Definition forward_stencil : Expression :=
  mkExpression (mkEquation (Indexed w [0]) [Indexed w [2]]) float32.

Definition forward_x : Iteration :=
  mkIteration [NExpression forward_stencil] x (Const 0, Const 13, Const 1)
              (0, 2) [PARALLEL] [] 8.

(** A centred stencil: loops over [i] and [j] (size 20) that read two
    points on both sides, so each runs over [2 .. 17]; blocks of 8 points
    along [i] and of 5 along [j]. *)
Definition centred_stencil : Expression :=
  mkExpression (mkEquation (Indexed a [0; 0])
                           [Indexed a [-2; 0]; Indexed a [2; 0];
                            Indexed a [0; -2]; Indexed a [0; 2]]) float32.
Definition centred_j : Iteration :=
  mkIteration [NExpression centred_stencil] j (Const 0, Const 20, Const 1)
              (-2, 2) [PARALLEL] [] 10.
Definition centred_i : Iteration :=
  mkIteration [NIteration centred_j] i (Const 0, Const 20, Const 1)
              (-2, 2) [PARALLEL] [] 9.
Definition centred_tree : list Iteration := [centred_i; centred_j].
Definition blocks_8_5 : Env :=
  fun s => if String.eqb s "i_block_size" then 8
           else if String.eqb s "j_block_size" then 5 else 0.

(** The run-time sizes: blocks of 4 points. *)
Definition block4 : Env :=
  fun s => if String.eqb s "x_block_size" then 4 else 0.

(** What blocking puts in place of that loop. *)
Definition forward_blocked : list Node :=
  match snd (block_tree true ([], []) [forward_x]) with
  | [(_, Some n)] => body_of n
  | _ => []
  end.
End Examples.

(** ** Reference descriptions of what the passes build *)

(** The arguments a shape gives: one per blocked loop, in order. *)
Definition args_of (blocked : Blocked) (sizes : list BlockValue) : list BlockingArg :=
  map (fun kvs : Iteration * Dimension * BlockValue =>
         mkBlockingArg (snd (fst kvs)) (fst (fst kvs)) (snd kvs))
      (combine blocked sizes).

(** The arguments recorded when every blocked loop gets the size [c]. *)
Definition uniform_args (blocked : Blocked) (c : BlockValue) : list BlockingArg :=
  map (fun kd => mkBlockingArg (snd kd) (fst kd) c) blocked.

(** The sizes recorded when the caller's value has a length: its items in
    order, cut to the number of blocked loops, then [None]. *)
Definition sized_values (blocked : Blocked) (blockshape : BlockShape) : list BlockValue :=
  firstn (length blocked) (iter_items blockshape)
  ++ repeat bv_None (length blocked - length (iter_items blockshape)).

Definition mismatch_warnings (nrequired nitems : nat) : list string :=
  (if nrequired <? nitems then [more_entries] else [])
  ++ (if nitems <? nrequired then [fewer_entries] else []).

(** The functions referenced by the expressions of a fission candidate. *)
Definition referenced_functions (candidate : Iteration) : list Function :=
  filter_ordered Function_eqb
    (flat_map functions (expressions_of (nodes candidate))).

(** All of [fs] have the same trailing (fastest-varying) dimension,
    respectively the same trailing extent. *)
Definition same_trailing_dimension (fs : list Function) : Prop :=
  forall f g, In f fs -> In g fs ->
              item_last (fn_indices f) = item_last (fn_indices g).

Definition same_trailing_extent (fs : list Function) : Prop :=
  forall f g, In f fs -> In g fs ->
              item_last (fn_shape f) = item_last (fn_shape g).

(** The arrays of a tree the padding pass pads: those written arrays
    whose trailing extent is that of the first array of maximal rank. *)
Definition padding_candidates (node : Node) : list Function :=
  let handle := FindSymbols_symbolics_writes node in
  let shape := max_by_len (map fn_shape handle) in
  filter (fun f => (last (fn_shape f) 0 =? last shape 0)%Z) handle.

(** The expressions of a tree that write one of its padding candidates. *)
Definition candidate_writers (node : Node) : list Expression :=
  filter (writes_one_of (padding_candidates node)) (FindNodes_Expression node).

Definition uniform_dtype (es : list Expression) : Prop :=
  forall e1 e2, In e1 es -> In e2 es -> dtype e1 = dtype e2.

(** Every array written in the tree has at least one dimension. *)
Definition arrays_have_rank (node : Node) : Prop :=
  forall f, In f (FindSymbols_symbolics_writes node) -> fn_shape f <> [].

(** The vector width the padding pass uses for an element type. *)
Definition simd_width (p : Platform) (dt : DType) : Z :=
  match get_simd_items p dt with
  | Some n => n
  | None => (simdinfo_avx512f p / itemsize dt)%Z
  end.

(** [c] selects items of [l], keeping their order. *)
Inductive Subseq {A : Type} : list A -> list A -> Prop :=
| Subseq_nil : Subseq [] []
| Subseq_take (x : A) (c l : list A) : Subseq c l -> Subseq (x :: c) (x :: l)
| Subseq_skip (x : A) (c l : list A) : Subseq c l -> Subseq c (x :: l).

(** The block dimension each blocked loop gets from [blocked.setdefault],
    in order, and the dictionary afterwards. *)
Fixpoint memoized_dims (blocked : Blocked) (iterations : list Iteration)
  : Blocked * list Dimension :=
  match iterations with
  | [] => (blocked, [])
  | i :: t =>
      let (blocked, d) := setdefault Iteration_eqb blocked i (block_dimension i) in
      let (blocked, ds) := memoized_dims blocked t in
      (blocked, d :: ds)
  end.

(** The three loops of a selected loop [i] with block dimension [d], as
    the specification describes them.  The inter-block loop runs over
    the block dimension "from the original start to
    [stop - ((stop - end_offset) mod block_size)], step = block size", and
    is marked parallel.  The intra-block loop runs over the dimension of
    [i] "from the inter-block loop's induction value to [+block_size],
    step 1", with the properties of [i], the tag of the nest and the
    elemental marker.  The remainder loop is a "unit-step loop covering
    [[inter-block end, original stop)]" over the dimension of [i].  Each
    has an empty body and no offsets, and is otherwise as [i]. *)
Definition spec_start (i : Iteration) : SExpr :=
  Sub (limits0 i) (Const (offsets0 i)).
Definition spec_stop (i : Iteration) : SExpr :=
  Sub (size_or_symbolic (dim i)) (Const (offsets1 i)).
Definition spec_inter_block_end (i : Iteration) (d : Dimension) : SExpr :=
  Sub (spec_stop i)
      (Mod (Sub (spec_stop i) (Const (offsets1 i))) (symbolic_size d)).

Definition spec_inter_block_loop (i : Iteration) (d : Dimension) : Iteration :=
  mkIteration [] d (spec_start i, spec_inter_block_end i d, symbolic_size d)
              (0%Z, 0%Z) [PARALLEL] [] (ident i).

Definition spec_intra_block_loop (TAG : IterationProperty) (i : Iteration)
  (d : Dimension) : Iteration :=
  mkIteration [] (dim i)
              (Sym (dim_name d), Add (Sym (dim_name d)) (symbolic_size d), Const 1%Z)
              (0%Z, 0%Z) (properties i ++ [TAG; ELEMENTAL]) (pragmas i) (ident i).

Definition spec_remainder_loop (i : Iteration) (d : Dimension) : Iteration :=
  mkIteration [] (dim i) (spec_inter_block_end i d, spec_stop i, Const 1%Z)
              (0%Z, 0%Z) (properties i) (pragmas i) (ident i).

(** The main blocked tree as the specification describes it: all
    inter-block loops, then all intra-block loops, then the body. *)
Definition spec_blocked_tree (TAG : IterationProperty)
  (ids : list (Iteration * Dimension)) (body : list Node) : Node :=
  compose_nodes
    (map (fun id => spec_inter_block_loop (fst id) (snd id)) ids
     ++ map (fun id => spec_intra_block_loop TAG (fst id) (snd id)) ids)
    body.

(** The remainder tree as the specification describes it for a subset [c]
    of the selected dimensions: outermost, the inter-block loop of every
    dimension not in [c], marked as remainder; then, dimension by
    dimension, the unit-step remainder loop if the dimension is in [c] and
    the intra-block loop otherwise, each carrying the remainder property,
    the tag of the nest and the elemental marker; then the body. *)
Definition spec_remainder_tree (TAG : IterationProperty)
  (ids : list (Iteration * Dimension)) (body : list Node) (c : list Dimension)
  : Node :=
  let outer :=
    flat_map
      (fun id : Iteration * Dimension =>
         if dim_in (dim (fst id)) c then []
         else [with_properties (spec_inter_block_loop (fst id) (snd id))
                               [PARALLEL; REMAINDER]])
      ids in
  let inner :=
    map (fun id : Iteration * Dimension =>
           with_properties
             (if dim_in (dim (fst id)) c
              then spec_remainder_loop (fst id) (snd id)
              else spec_intra_block_loop TAG (fst id) (snd id))
             [REMAINDER; TAG; ELEMENTAL])
        ids in
  compose_nodes (outer ++ inner) body.




(** *** The iteration domain of a blocked nest *)

(** The variable a loop runs over, and the variable and the size symbol
    of its block dimension. *)
Definition var (i : Iteration) : string := dim_name (dim i).
Definition block_var (i : Iteration) : string := dim_name (block_dimension i).
Definition block_size_name (i : Iteration) : string :=
  (block_var i ++ "_size")%string.

(** [reaches env loops env']: running the loops of a nest, outermost
    first, from [env], the body can be entered with the variables bound
    as in [env']. *)
Inductive reaches : Env -> list Iteration -> Env -> Prop :=
| reaches_body (env : Env) : reaches env [] env
| reaches_loop (env : Env) (h : Iteration) (t : list Iteration) (v : Z) (env' : Env) :
    In v (iteration_values env h) ->
    reaches (bind_var env (var h) v) t env' ->
    reaches env (h :: t) env'.

(** First and one-past-last index of the original loop, and the end of
    the blocked region as line 157 computes it. *)
Definition domain_start (env : Env) (i : Iteration) : Z :=
  (eval env (limits0 i) - offsets0 i)%Z.
Definition domain_finish (env : Env) (i : Iteration) : Z :=
  (eval env (limits1 i) - offsets1 i)%Z.
Definition blocked_finish (env : Env) (i : Iteration) : Z :=
  (domain_finish env i
   - (domain_finish env i - offsets1 i) mod env (block_size_name i))%Z.

(** A unit-step loop with constant limits up to the size of its
    dimension, whose first index equals its upper offset - the case of a
    centred stencil starting at 0 -, a non-empty range and a positive
    run-time block size. *)
Definition symmetric_loop (env : Env) (i : Iteration) : Prop :=
  (exists a N, limits i = (Const a, Const N, Const 1%Z) /\
               dim_size (dim i) = Some N /\ N <> 0%Z) /\
  domain_start env i = offsets1 i /\
  (domain_start env i <= domain_finish env i)%Z /\
  (0 < env (block_size_name i))%Z.

(** The loop variables, the block variables and the block size symbols of
    a nest are all different names. *)
Definition names_apart (its : list Iteration) : Prop :=
  NoDup (map var its ++ map block_var its) /\
  forall i, In i its ->
            ~ In (block_size_name i) (map var its ++ map block_var its).

(** A body that records the current point, whatever else is bound. *)
Definition records_point (dims : list string) (body : list Node) : Prop :=
  forall env p, In p (flat_map (executed dims env) body) <-> p = map env dims.

(** The loops of the tree built for the dimensions selected by [sel]:
    inter-block loops of the others outermost, then per dimension the
    remainder loop (selected) or the intra-block loop; [props1] and
    [props2] give the properties the loops carry. *)
Definition selected_loops (TAG : IterationProperty) (sel : Iteration -> bool)
  (props1 props2 : Iteration -> list IterationProperty) (its : list Iteration)
  : list Iteration :=
  map (fun i => with_properties (inter_block_of i (block_dimension i)) (props1 i))
      (filter (fun i => negb (sel i)) its)
  ++ map (fun i =>
            with_properties
              (if sel i then remainder_of i (block_dimension i)
               else intra_block_of TAG i (block_dimension i))
              (props2 i))
         its.

(** ** Statements that the code does not meet

    Each is written down as the specification, or a reading of the code,
    words it, to be tested against the passes above. *)

(** "Extra entries are dropped, missing entries default to the heuristic":
    whenever a supplied block shape has the wrong number of entries, the
    pass completes with a diagnostic, and the blocked loops left without
    an entry get the heuristic. *)
Definition missing_entries_get_heuristic
  (fold_blockable_tree : Node -> bool -> Node)
  (unfold_blocked_tree : Node -> Node)
  (blockinner : bool) (blockshape : BlockShape) (state_nodes : list Node) : Prop :=
  let blocked :=
    fst (blocking_state fold_blockable_tree unfold_blocked_tree
                        (negb blockinner) state_nodes) in
  forall nitems,
    is_falsy blockshape = Ok false ->
    len blockshape = Ok nitems ->
    nitems <> length blocked ->
    exists upd,
      _loop_blocking fold_blockable_tree unfold_blocked_tree
                     blockinner blockshape state_nodes = Ok upd /\
      upd_warnings upd <> [] /\
      map value (upd_arguments upd)
      = firstn (length blocked) (iter_items blockshape)
        ++ repeat bv_heuristic (length blocked - nitems).

(** Lines 217-233 read without the truth test of line 211: whenever the
    caller supplies a block-shape value that has no length and at least
    one dimension was blocked, the pass assigns that value as the block
    size of the first blocked dimension only, while every other blocked
    dimension receives [None], and no diagnostic is emitted. *)
Definition lengthless_shape_sets_first_only
  (fold_blockable_tree : Node -> bool -> Node)
  (unfold_blocked_tree : Node -> Node)
  (blockinner : bool) (blockshape : BlockShape) (state_nodes : list Node) : Prop :=
  let st := blocking_state fold_blockable_tree unfold_blocked_tree
                           (negb blockinner) state_nodes in
  forall k0 d0 rest,
    fst st = (k0, d0) :: rest ->
    blockshape <> bs_None ->
    len blockshape = Raise TypeError ->
    exists z,
      blockshape = bs_scalar z /\
      _loop_blocking fold_blockable_tree unfold_blocked_tree
                     blockinner blockshape state_nodes
      = Ok (mkUpdate (snd st)
              (mkBlockingArg d0 k0 (bv_int z)
               :: map (fun kd => mkBlockingArg (snd kd) (fst kd) bv_None) rest)
              ["blocking"%string] []).



(** "All referenced functions must share the same trailing dimension and
    extent; otherwise skip": a nest is fissioned only if the functions its
    innermost body references agree on both. *)
Definition fission_requires_same_extent (listed : list Function -> list Function)
  (t : Thresholds) (tree : list Iteration) : Prop :=
  forall candidate entry,
    item_last tree = Ok candidate ->
    fission_tree listed t tree = Ok (Some entry) ->
    same_trailing_dimension (referenced_functions candidate) /\
    same_trailing_extent (referenced_functions candidate).

(** "No pass may raise due to IR shape it does not understand for a single
    candidate - it must skip that candidate": the padding pass completes
    on every tree sequence. *)
Definition padding_always_completes (p : Platform) (state_nodes : list Node)
  : Prop :=
  exists processed, _padding p state_nodes = Ok processed.

(** The environment that gives the variable [key i] the value [f i v] for
    each loop [i] paired with [v], and is [default] elsewhere. *)
Definition assign (key : Iteration -> string) (f : Iteration -> Z -> Z)
  (its : list Iteration) (p : list Z) (default : Env) : Env :=
  fun s =>
    match find (fun iv : Iteration * Z => String.eqb s (key (fst iv)))
               (combine its p) with
    | Some iv => f (fst iv) (snd iv)
    | None => default s
    end.

(** The first index of the block that holds [v]. *)
Definition block_start (env : Env) (i : Iteration) (v : Z) : Z :=
  (domain_start env i
   + (v - domain_start env i) / env (block_size_name i) * env (block_size_name i))%Z.

(** Where the tree built for the selection [sel] executes, dimension by
    dimension: the leftover region if selected, the blocked region if
    not. *)
Definition in_region (env : Env) (sel : Iteration -> bool) (i : Iteration) (v : Z)
  : Prop :=
  if sel i
  then (blocked_finish env i <= v < domain_finish env i)%Z
  else (domain_start env i <= v < blocked_finish env i)%Z.

(** The Cartesian iteration domain of the loops [its]: a point gives each
    loop one of the values it runs over. *)
Definition in_domain (env : Env) (its : list Iteration) (p : list Z) : Prop :=
  length p = length its /\
  forall i v, In (i, v) (combine its p) -> In v (iteration_values env i).

(** Every recorded block dimension is the one derived from its loop. *)
Definition canonical (blocked : Blocked) : Prop :=
  forall k d, In (k, d) blocked -> d = block_dimension k.

(** ** [DevitoRewriter._simdize] *)

(** Modelled from the spec: what [self._compiler_decoration(name)] gives
    for 'ignore-deps', 'ntstores' and 'storefence' - a pragma, or [None]
    when the compiler has none -, and the register width
    [simdinfo[get_simd_flag()]] ([BasicRewriter] and the compiler tables
    are not part of the sources). *)
Record Compiler : Type := mkCompiler {
  decoration_ignore_deps : option Pragma;
  decoration_ntstores : option Pragma;
  decoration_storefence : option Pragma;
  simd_flag_info : Z
}.

(** [[j for j in handle if j.shape[-1] % get_simd_items(j.dtype) == 0]]:
    for each symbol the trailing extent is read first, then the vector
    width is looked up - an unknown dtype is a [KeyError] -, then the
    remainder is taken. *)
Fixpoint aligned_items (p : Platform) (handle : list Function)
  : Result (list Function) :=
  match handle with
  | [] => Ok []
  | j :: t =>
      bind (item_last (fn_shape j)) (fun s =>
      match get_simd_items p (fn_dtype j) with
      | None => Raise KeyError
      | Some n =>
          if (n =? 0)%Z then Raise ZeroDivisionError
          else
            bind (aligned_items p t)
                 (fun rest => Ok (if (s mod n =? 0)%Z then j :: rest else rest))
      end)
  end.

(** The [try]/[except KeyError] around that list: [aligned = []]. *)
Definition aligned_of (p : Platform) (handle : list Function)
  : Result (list Function) :=
  match aligned_items p handle with
  | Raise KeyError => Ok []
  | r => r
  end.

(** The pragma [simd] chosen for the vectorizable loop [i], as a tuple. *)
Definition simd_of (p : Platform) (c : Compiler) (i : Iteration)
  : Result (list Pragma) :=
  let handle := FindSymbols_symbolics [NIteration i] in
  bind (aligned_of p handle)
       (fun aligned =>
          match aligned with
          | [] => Ok [omp_simd_for]
          | _ =>
              Ok [omp_simd_for_aligned (join "," (map fn_name aligned))
                                       (simd_flag_info c)]
          end).

(** [for i in vector_iterations]: each vectorizable loop is mapped to
    itself rebuilt with the pragmas added. *)
Fixpoint simdize_iterations (p : Platform) (c : Compiler)
  (vector_iterations : list Iteration) (mapper : Mapper) : Result Mapper :=
  match vector_iterations with
  | [] => Ok mapper
  | i :: rest =>
      bind (simd_of p c i)
           (fun simd =>
              let ignore_deps := as_list (decoration_ignore_deps c) in
              simdize_iterations p c rest
                (setitem Node_eqb mapper (NIteration i)
                   (Some (NIteration
                            (with_pragmas i (pragmas i ++ ignore_deps ++ simd))))))
  end.

(** [for tree in retrieve_iteration_tree(node)] *)
Fixpoint simdize_trees (p : Platform) (c : Compiler)
  (trees : list (list Iteration)) (mapper : Mapper) : Result Mapper :=
  match trees with
  | [] => Ok mapper
  | tree :: rest =>
      bind (simdize_iterations p c (filter is_Vectorizable tree) mapper)
           (simdize_trees p c rest)
  end.

(** The nested function [decorate] of [_simdize].  No image of the mapper
    is [None], so each visit gives a node. *)
Fixpoint simdize_decorate (p : Platform) (c : Compiler) (nodes : list Node)
  : Result (list Node) :=
  match nodes with
  | [] => Ok []
  | node :: rest =>
      bind (simdize_trees p c (retrieve_iteration_tree node) [])
           (fun mapper =>
              bind (simdize_decorate p c rest)
                   (fun processed =>
                      Ok (as_list (Transformer mapper node) ++ processed)))
  end.

(** The update [_simdize] returns: the decorated nodes and the decorated
    elemental functions. *)
Definition _simdize (p : Platform) (c : Compiler)
  (state_nodes elemental_functions : list Node)
  : Result (list Node * list Node) :=
  bind (simdize_decorate p c state_nodes)
       (fun nodes =>
          bind (simdize_decorate p c elemental_functions)
               (fun elemental => Ok (nodes, elemental))).

(** ** [DevitoSpeculativeRewriter._nontemporal_stores] *)

(** First sweep over a tree: the first parallel loop is wrapped in a
    [List] whose footer is the fence. *)
Definition fence_tree (fence : Pragma) (mapper : Mapper) (tree : list Iteration)
  : Mapper :=
  match find is_Parallel tree with
  | Some i =>
      setitem Node_eqb mapper (NIteration i)
              (Some (NList [] [NIteration i] [fence]))
  | None => mapper
  end.

(** Second sweep over a tree: every vectorizable loop is wrapped in a
    [List] whose header is the pragma. *)
Definition ntstores_tree (pragma : Pragma) (mapper : Mapper)
  (tree : list Iteration) : Mapper :=
  fold_left
    (fun (m : Mapper) (i : Iteration) =>
       if is_Vectorizable i
       then setitem Node_eqb m (NIteration i)
                    (Some (NList [pragma] [NIteration i] []))
       else m)
    tree mapper.

(** The body of [for node in nodes] in the nested function [decorate] of
    [_nontemporal_stores]; [None] stands for a visit that gave no node. *)
Definition ntstores_node (pragma fence : Pragma) (node : Node) : option Node :=
  let mapper := fold_left (fence_tree fence) (retrieve_iteration_tree node) [] in
  match Transformer mapper node with
  | None => None
  | Some transformed =>
      let mapper :=
        fold_left (ntstores_tree pragma) (retrieve_iteration_tree transformed) [] in
      Transformer mapper transformed
  end.

Definition ntstores_decorate (pragma fence : Pragma) (nodes : list Node)
  : list Node :=
  flat_map (fun node => as_list (ntstores_node pragma fence node)) nodes.

(** What a decoration pass hands back: the two tree sequences and the
    flag it records. *)
Record Decorated : Type := mkDecorated {
  dec_nodes : list Node;
  dec_elemental_functions : list Node;
  dec_flags : list string
}.

(** [_nontemporal_stores]: [None] is the empty update [{}]. *)
Definition _nontemporal_stores (c : Compiler)
  (state_nodes elemental_functions : list Node) : option Decorated :=
  match decoration_ntstores c, decoration_storefence c with
  | Some pragma, Some fence =>
      Some (mkDecorated (ntstores_decorate pragma fence state_nodes)
                        (ntstores_decorate pragma fence elemental_functions)
                        ["ntstores"%string])
  | _, _ => None
  end.

(** ** [DevitoCustomRewriter._pipeline] *)

Module DevitoCustomRewriter.
Section Pipeline.
(** The compilation state and the registered pass methods, each of which
    updates the state or raises; the pipeline is stated for any of them. *)
Variable State : Type.
Variable run : Pass -> State -> Result State.

(** [for i in self.passes: DevitoCustomRewriter.passes_mapper[i](self, state)] *)
Fixpoint _pipeline (passes : list string) (state : State) : Result State :=
  match passes with
  | [] => Ok state
  | i :: rest =>
      match get String.eqb passes_mapper i with
      | None => Raise KeyError
      | Some pass => bind (run pass state) (_pipeline rest)
      end
  end.

(** Running a sequence of passes one after the other. *)
Fixpoint run_all (passes : list Pass) (state : State) : Result State :=
  match passes with
  | [] => Ok state
  | pass :: rest => bind (run pass state) (run_all rest)
  end.
End Pipeline.
End DevitoCustomRewriter.

(** ** Reference descriptions for the decoration passes *)

(** A tree with the pragmas attached to its loops erased. *)
Fixpoint erase_pragmas (n : Node) : Node :=
  match n with
  | NIteration i =>
      NIteration (mkIteration (map erase_pragmas (nodes i)) (dim i) (limits i)
                              (offsets i) (properties i) [] (ident i))
  | NExpression e => n
  | NList h b f => NList h (map erase_pragmas b) f
  | NBlock h b f => NBlock h (map erase_pragmas b) f
  | NDenormals => n
  end.

(** The pragmas attached to the loops of a tree, loop by loop in
    depth-first order. *)
Fixpoint loop_pragmas (n : Node) : list (list Pragma) :=
  match n with
  | NIteration i => pragmas i :: flat_map loop_pragmas (nodes i)
  | NExpression _ => []
  | NList _ b _ => flat_map loop_pragmas b
  | NBlock _ b _ => flat_map loop_pragmas b
  | NDenormals => []
  end.

(** [h] is the header of a parallel region. *)
Definition is_par_region (h : list Pragma) : bool :=
  match h with
  | [omp_par_region _] => true
  | _ => false
  end.

(** The denormal instructions of a tree that are not inside a parallel
    region. *)
Fixpoint denormals_outside (n : Node) : list Node :=
  match n with
  | NIteration i => flat_map denormals_outside (nodes i)
  | NExpression _ => []
  | NList _ b _ => flat_map denormals_outside b
  | NBlock h b _ => if is_par_region h then [] else flat_map denormals_outside b
  | NDenormals => [NDenormals]
  end.

(** The vector width known for the element type of [j], if any. *)
Definition width_of (p : Platform) (j : Function) : option Z :=
  get_simd_items p (fn_dtype j).

(** [j]'s trailing extent is a multiple of the vector width of its
    element type. *)
Definition is_aligned (p : Platform) (j : Function) : bool :=
  match width_of p j with
  | Some n => (last (fn_shape j) 0 mod n =? 0)%Z
  | None => false
  end.

(** What a mapper image executes: nothing when the node is dropped. *)
Definition executed_image (dims : list string) (env : Env) (image : option Node)
  : list (list Z) :=
  flat_map (executed dims env) (as_list image).

(** The image of a mapper entry is its key, a loop, with pragmas appended
    to those it carries. *)
Definition decorated (k : Node) (image : option Node) : Prop :=
  exists i extra,
    k = NIteration i /\
    image = Some (NIteration (with_pragmas i (pragmas i ++ extra))).

(** [new] holds the pragmas [old], in order, then possibly more. *)
Definition extends (old new : list Pragma) : Prop :=
  exists extra, new = old ++ extra.

(** The array [f] is referenced by an expression of the tree. *)
Definition referenced (node : Node) (f : Function) : Prop :=
  exists e, In e (FindNodes_Expression node) /\ In f (functions e).

(** Every symbol of [handle] has an element type of known vector width. *)
Definition widths_known (p : Platform) (handle : list Function) : bool :=
  forallb (fun j => match width_of p j with Some _ => true | None => false end)
          handle.

(** The array has at least one dimension, and the vector width of its
    element type, when known, is not zero. *)
Definition measurable (p : Platform) (f : Function) : Prop :=
  fn_shape f <> [] /\ width_of p f <> Some 0%Z.

(** The image of a mapper entry is its key, a loop, wrapped in a [List]
    that gives it a header and a footer. *)
Definition wrapped (k : Node) (image : option Node) : Prop :=
  exists i h f, k = NIteration i /\ image = Some (NList h [NIteration i] f).

(** The outermost loop of no iteration tree of [node] is a candidate for
    an OpenMP pragma. *)
Definition no_omp_candidate (node : Node) : Prop :=
  forall tree root rest,
    In tree (retrieve_iteration_tree node) -> tree = root :: rest ->
    omp_key root = false.

(** ** Reference descriptions for loop fission *)

(** The loop that fission builds for one group of statements: the
    candidate, marked elemental, around the group. *)
Definition fission_group (candidate : Iteration) (g : list Expression) : Node :=
  NIteration
    (with_nodes (with_properties candidate (properties candidate ++ [ELEMENTAL]))
                (map NExpression g)).

(** The array has at least one dimension and one extent. *)
Definition has_rank (f : Function) : Prop :=
  fn_indices f <> [] /\ fn_shape f <> [].

(** ** Reference descriptions for loop blocking *)

(** The tree has loops to block and the first of them heads a perfect
    nest: the two tests a tree passes before it is blocked. *)
Definition qualifies (exclude_innermost : bool) (tree : list Iteration) : bool :=
  match blockable exclude_innermost tree with
  | [] => false
  | root :: _ => IsPerfectIteration root
  end.

(** The block size divides the extent of the loop's domain. *)
Definition exact_fit (env : Env) (i : Iteration) : Prop :=
  ((domain_finish env i - domain_start env i) mod env (block_size_name i) = 0)%Z.

(** ** Reference descriptions for padding and the custom rewriter *)

(** [v] is the padded shadow of [k] for vector width [w]: same dimensions
    and placement, the name prefixed with p, the leading extents kept and
    the trailing extent rounded up to the next multiple of [w]. *)
Definition padded_as (w : Z) (k v : Function) : Prop :=
  fn_name v = ("p" ++ fn_name k)%string /\
  fn_indices v = fn_indices k /\
  fn_mem_stack v = fn_mem_stack k /\
  exists trailing r,
    fn_shape k = removelast (fn_shape k) ++ [trailing] /\
    fn_shape v = removelast (fn_shape k) ++ [r] /\
    (r mod w = 0)%Z /\ (trailing <= r < trailing + w)%Z.

(** The character [c] occurs in [s]. *)
Fixpoint occurs (c : ascii) (s : string) : bool :=
  match s with
  | EmptyString => false
  | String c' r => Ascii.eqb c' c || occurs c r
  end.

(** The pass names of the registry. *)
Definition registered (name : string) : Prop := In name (keys passes_mapper).

(** ** More example trees *)

Module Scenarios.
Local Open Scope string_scope.
Local Open Scope Z_scope.

(** A compiler with a dependence-ignoring pragma, a nontemporal-store
    pragma and a store fence, on a machine with 64-byte registers. *)
Definition compiler : Compiler :=
  mkCompiler (Some (pragma_text "ivdep"))
             (Some (pragma_text "vector nontemporal"))
             (Some (pragma_text "_mm_sfence();"))
             64.

(** The same machine with a compiler that has no store fence. *)
Definition no_fence : Compiler :=
  mkCompiler (Some (pragma_text "ivdep"))
             (Some (pragma_text "vector nontemporal"))
             None
             64.

(** A vectorizable loop over [j] that reads [b], whose rows of 16 items
    fill whole registers of 8, and writes [a], whose rows of 20 do not;
    and the same loop when it also reads [h], made of half-precision
    items, for which the platform knows no vector width. *)
Definition b := mkFunction "b" [Examples.i; Examples.j] [20; 16] float32 false true.
Definition h := mkFunction "h" [Examples.i; Examples.j] [20; 16] float16 false true.

Definition row_copy : Iteration :=
  mkIteration
    [NExpression
       (mkExpression (mkEquation (Indexed Examples.a [0; 0]) [Indexed b [0; 0]])
                     float32)]
    Examples.j (Const 0, Const 16, Const 1) (0, 0) [PARALLEL; VECTOR] [] 11.

Definition row_sum : Iteration :=
  mkIteration
    [NExpression
       (mkExpression (mkEquation (Indexed Examples.a [0; 0])
                                 [Indexed b [0; 0]; Indexed h [0; 0]])
                     float32)]
    Examples.j (Const 0, Const 16, Const 1) (0, 0) [PARALLEL; VECTOR] [] 12.

(** What fission puts in the mapper for the 2-deep nest that copies
    between [a] and [pa], when the set lists first uses first: the
    innermost loop and its replacement. *)
Definition fissioned_copy : Node * Node :=
  match fission_tree first_use_order Examples.thresholds Examples.mixed_tree with
  | Ok (Some entry) => entry
  | _ => (NDenormals, NDenormals)
  end.

(** Run-time sizes for the centred nest: blocks of 8 points along [i]
    and of 4 along [j], both dividing the 16 points of each loop. *)
Definition blocks_8_4 : Env :=
  fun s => if String.eqb s "i_block_size" then 8
           else if String.eqb s "j_block_size" then 4 else 0.

(** A loop that only assigns the scalar temporary [t]. *)
Definition temp_sum : Iteration :=
  mkIteration
    [NExpression (mkExpression (mkEquation (Scalar "t") [Indexed b [0; 0]]) float32)]
    Examples.j (Const 0, Const 16, Const 1) (0, 0) [PARALLEL; VECTOR] [] 13.
End Scenarios.

(** * Finite-difference tools: a model of [devito/finite_differences/tools.py] *)

Module FiniteDifferences.
Local Open Scope Z_scope.

(** The exceptions the functions of the module raise or let through. *)
Inductive Error : Type := ValueError | IndexError.

Inductive Res (A : Type) : Type :=
| Val (a : A)
| Err (e : Error).
Arguments Val {A} a.
Arguments Err {A} e.

(** ** The tags [Transpose] and [Side] *)

(** A value given as [matvec], sorted by which of the module's two
    [Transpose] tags it equals: [direct], [transpose], or neither. *)
Inductive Transpose : Type := direct | transpose | other_matvec.

(** A [Side] object, sorted by which of the module's three tags it
    equals: [left], [right], [centered], or none of them. *)
Inductive Side : Type := left | right | centered | other_side.

(** The value a tag was created with: [Transpose('direct', 1)],
    [Transpose('transpose', -1)], [Side('left', -1)], [Side('right', 1)],
    [Side('centered', 0)]. *)
Definition transpose_val (m : Transpose) : option Z :=
  match m with
  | direct => Some 1
  | transpose => Some (-1)
  | other_matvec => None
  end.

Definition side_val (s : Side) : option Z :=
  match s with
  | left => Some (-1)
  | right => Some 1
  | centered => Some 0
  | other_side => None
  end.

(** [Side.adjoint(self, matvec)] *)
Definition adjoint (self : Side) (matvec : Transpose) : Res Side :=
  match matvec with
  | direct => Val self
  | _ =>
      match self with
      | centered => Val centered
      | right => Val left
      | left => Val right
      | other_side => Err ValueError
      end
  end.

(** ** [dim_with_order] *)

(** [np.max(orders)]: the largest item; a [ValueError] on an empty
    sequence. *)
Definition np_max (orders : list Z) : Res Z :=
  match orders with
  | [] => Err ValueError
  | x :: t => Val (fold_left Z.max t x)
  end.

(** [range(n)] *)
Definition range (n : Z) : list Z := map Z.of_nat (seq 0 (Z.to_nat n)).

(** [itertools.product(pool, repeat=n)]: the [n]-tuples over [pool], the
    last position running fastest. *)
Fixpoint product {A} (pool : list A) (n : nat) : list (list A) :=
  match n with
  | O => [[]]
  | S n' => flat_map (fun x => map (cons x) (product pool n')) pool
  end.

(** [all(c[k] <= orders[k] for k in range(ndim))] for a tuple [c] of
    [ndim] items: the test stops at the first [False], and reading
    [orders] past its end is an [IndexError]. *)
Fixpoint within (c orders : list Z) : Res bool :=
  match c with
  | [] => Val true
  | ck :: c' =>
      match orders with
      | [] => Err IndexError
      | ok :: orders' => if ck <=? ok then within c' orders' else Val false
      end
  end.

(** [[c for c in all_comb if all(...)]] *)
Fixpoint keep_within (all_comb : list (list Z)) (orders : list Z)
  : Res (list (list Z)) :=
  match all_comb with
  | [] => Val []
  | c :: rest =>
      match within c orders with
      | Err e => Err e
      | Val keep =>
          match keep_within rest orders with
          | Err e => Err e
          | Val kept => Val (if keep then c :: kept else kept)
          end
      end
  end.

(** [dim_with_order(dims, orders)]; of [dims] only the length is used. *)
Definition dim_with_order {D : Type} (dims : list D) (orders : list Z)
  : Res (list (list Z)) :=
  let ndim := length dims in
  match np_max orders with
  | Err e => Err e
  | Val max_order =>
      let all_comb := tl (product (range (max_order + 1)) ndim) in
      keep_within all_comb orders
  end.

(** What the docstring asks of a combination [c]: one derivative order
    per dimension, none above the order of its dimension, not all zero. *)
Definition legal_orders (orders c : list Z) : Prop :=
  Forall2 (fun ck ok => 0 <= ck <= ok) c orders /\
  exists ck, In ck c /\ ck <> 0.

(** The tuples [c] with [0 <= c[k] <= orders[k]] for every [k], and
    their number. *)
Fixpoint box (orders : list Z) : list (list Z) :=
  match orders with
  | [] => [[]]
  | ok :: t => flat_map (fun x => map (cons x) (box t)) (range (ok + 1))
  end.

Definition box_size (orders : list Z) : nat :=
  fold_right (fun ok n => (Z.to_nat (ok + 1) * n)%nat) 1%nat orders.


(** ** [generate_indices] *)

(** An index expression [dim + a*dim.spacing + b*diff] as sympy keeps it,
    like terms collected: the two step counts. *)
Record Index : Type := mkIndex {
  spacing_steps : Z;
  diff_steps : Z
}.

Definition Index_eq_dec (a b : Index) : {a = b} + {a <> b}.
Proof. decide equality; apply Z.eq_dec. Defined.

(** The expansion point [x0]: [None], or [dim + off*diff] with [off] a
    number of half steps. *)
Inductive Origin : Type :=
| no_origin
| origin (half_steps : Z).

(** The list [ind]: in the order the code builds it, or, where the code
    goes through a [set], without repetitions and in an order Python does
    not specify. *)
Inductive Indices : Type :=
| in_order (l : list Index)
| in_some_order (l : list Index).

(** [range(a, b)] *)
Definition range2 (a b : Z) : list Z :=
  map (fun k => a + Z.of_nat k) (seq 0 (Z.to_nat (b - a))).

(** [generate_indices(func, dim, diff, order, stagger, side)], given
    [func.is_Staggered].  [off] is held doubled, so that [int(i+.5+off)]
    is the quotient, rounded towards zero, of [2*i + 1 + 2*off] by 2;
    [int(order/2)] is the quotient rounded towards zero, which the
    floating-point division gives for orders below 2^53.  A tag given as
    [side] tests true. *)
Definition generate_indices (is_Staggered : bool) (order : Z)
  (stagger side : option Side) : Indices * Origin :=
  if is_Staggered then
    let off :=
      match stagger with
      | Some left => -1
      | Some right => 1
      | _ => 0
      end in
    let ind :=
      in_some_order
        (nodup Index_eq_dec
           (map (fun i => mkIndex (Z.quot (2 * i + 1 + off) 2) 0)
                (range2 (- order / 2) (order / 2)))) in
    let x0 := origin off in
    let ind :=
      if order <? 2
      then in_order (match stagger with
                     | Some right => [mkIndex 0 1; mkIndex 0 0]
                     | _ => [mkIndex 0 (-1); mkIndex 0 0]
                     end)
      else ind in
    (ind, x0)
  else
    match side with
    | Some s =>
        let lo := - Z.quot order 2 + 1 - order mod 2 in
        let hi := Z.quot (order + 1) 2 + 2 - order mod 2 in
        let ind :=
          match s with
          | right => map (fun i => mkIndex 0 i) (range2 lo hi)
          | left => map (fun i => mkIndex 0 (- i)) (range2 lo hi)
          | _ =>
              map (fun i => mkIndex 0 i)
                  (range2 (- Z.quot order 2) (Z.quot (order + 1) 2 + 1))
          end in
        (in_order ind, no_origin)
    | None =>
        let ind :=
          map (fun i => mkIndex i 0) (range2 (- order / 2) (order / 2 + 1)) in
        let ind := if order <? 2 then [mkIndex 0 0; mkIndex 0 1] else ind in
        (in_order ind, origin 0)
    end.

(** [s == right] and the like, on sorted tags. *)
Definition Side_eqb (a b : Side) : bool :=
  match a, b with
  | left, left | right, right | centered, centered => true
  | _, _ => false
  end.

End FiniteDifferences.

(** * Properties of the passes *)

(** ** Dictionaries and equality tests *)

Lemma Node_eqb_eq (a b : Node) : Node_eqb a b = true <-> a = b.
Proof.
  unfold Node_eqb. destruct (Node_eq_dec a b); split; congruence.
Qed.

Lemma Iteration_eqb_eq (a b : Iteration) : Iteration_eqb a b = true <-> a = b.
Proof.
  unfold Iteration_eqb. destruct (Iteration_eq_dec a b); split; congruence.
Qed.

Lemma Dimension_eqb_eq (a b : Dimension) : Dimension_eqb a b = true <-> a = b.
Proof.
  unfold Dimension_eqb. destruct (Dimension_eq_dec a b); split; congruence.
Qed.

Lemma Function_eqb_eq (a b : Function) : Function_eqb a b = true <-> a = b.
Proof.
  unfold Function_eqb. destruct (Function_eq_dec a b); split; congruence.
Qed.

Lemma DType_eqb_eq (a b : DType) : DType_eqb a b = true <-> a = b.
Proof.
  unfold DType_eqb. destruct (DType_eq_dec a b); split; congruence.
Qed.

Section DictFacts.
Context {K V : Type}.
Variable eqb : K -> K -> bool.
Hypothesis eqb_eq : forall a b, eqb a b = true <-> a = b.

Lemma eqb_refl (k : K) : eqb k k = true.
Proof. now apply eqb_eq. Qed.

Lemma eqb_neq (a b : K) : a <> b -> eqb a b = false.
Proof.
  intros H. destruct (eqb a b) eqn:E; [|reflexivity].
  apply eqb_eq in E. contradiction.
Qed.

Lemma get_setitem_same (d : list (K * V)) k v :
  get eqb (setitem eqb d k v) k = Some v.
Proof.
  induction d as [|[k' v'] d IH]; simpl.
  - now rewrite eqb_refl.
  - destruct (eqb k k') eqn:E; simpl; rewrite E; [reflexivity | exact IH].
Qed.

Lemma get_setitem_other (d : list (K * V)) k k' v :
  k <> k' -> get eqb (setitem eqb d k v) k' = get eqb d k'.
Proof.
  intros Hne. induction d as [|[k0 v0] d IH]; simpl.
  - rewrite eqb_neq by congruence. reflexivity.
  - destruct (eqb k k0) eqn:E; simpl.
    + apply eqb_eq in E. subst k0.
      rewrite eqb_neq by congruence. reflexivity.
    + destruct (eqb k' k0); [reflexivity | exact IH].
Qed.

Lemma contains_In_keys (d : list (K * V)) k :
  contains eqb d k = true <-> In k (keys d).
Proof.
  unfold contains, keys. induction d as [|[k' v'] d IH]; simpl.
  - split; [discriminate | tauto].
  - destruct (eqb k k') eqn:E.
    + apply eqb_eq in E. subst. tauto.
    + rewrite IH. split; [tauto|].
      intros [H|H]; [|exact H]. subst k'. rewrite eqb_refl in E. discriminate.
Qed.

Lemma keys_setitem_In (d : list (K * V)) k v :
  In k (keys d) -> keys (setitem eqb d k v) = keys d.
Proof.
  unfold keys. induction d as [|[k' v'] d IH]; simpl; [tauto|].
  intros H. destruct (eqb k k') eqn:E; simpl; [reflexivity|].
  f_equal. apply IH. destruct H as [H|H]; [|exact H].
  subst k'. rewrite eqb_refl in E. discriminate.
Qed.

Lemma keys_setitem_new (d : list (K * V)) k v :
  ~ In k (keys d) -> setitem eqb d k v = d ++ [(k, v)].
Proof.
  unfold keys. induction d as [|[k' v'] d IH]; simpl; [reflexivity|].
  intros H. rewrite eqb_neq by (intros ->; tauto).
  f_equal. apply IH. tauto.
Qed.
End DictFacts.

(** ** The tree rewrite *)

Lemma Transformer_unfold (mapper : Mapper) (n : Node) :
  Transformer mapper n
  = match get Node_eqb mapper n with
    | Some image => image
    | None =>
        let visit_all := flat_map (fun c => as_list (Transformer mapper c)) in
        match n with
        | NIteration i => Some (NIteration (with_nodes i (visit_all (nodes i))))
        | NExpression e => Some n
        | NList h b f => Some (NList h (visit_all b) f)
        | NBlock h b f => Some (NBlock h (visit_all b) f)
        | NDenormals => Some n
        end
    end.
Proof. destruct n; reflexivity. Qed.

Lemma get_Some_In_pair {K V} (eqb : K -> K -> bool)
  (eqb_eq : forall a b, eqb a b = true <-> a = b) (d : list (K * V)) k v :
  get eqb d k = Some v -> In (k, v) d.
Proof.
  induction d as [|[k' v'] d IH]; simpl; [discriminate|].
  destruct (eqb k k') eqn:E.
  - apply eqb_eq in E. subst k'. intros H. inversion H. now left.
  - intros H. right. now apply IH.
Qed.

(** A rewrite none of whose images is [None] gives a node. *)
Lemma Transformer_total (mapper : Mapper) (n : Node) :
  (forall k, ~ In (k, None) mapper) ->
  exists n', Transformer mapper n = Some n'.
Proof.
  intros Hsome. rewrite Transformer_unfold.
  destruct (get Node_eqb mapper n) as [[v|]|] eqn:E.
  - now exists v.
  - apply (get_Some_In_pair Node_eqb Node_eqb_eq) in E. now destruct (Hsome n).
  - destruct n; eexists; reflexivity.
Qed.

Lemma setitem_In_pair {K V} (eqb : K -> K -> bool)
  (eqb_eq : forall a b, eqb a b = true <-> a = b) (d : list (K * V)) k v k' v' :
  In (k', v') (setitem eqb d k v) -> (k' = k /\ v' = v) \/ In (k', v') d.
Proof.
  induction d as [|[k0 v0] d IH]; simpl.
  - intros [H|[]]. inversion H. now left.
  - destruct (eqb k k0) eqn:E; simpl.
    + apply eqb_eq in E. subst k0.
      intros [H|H]; [inversion H; now left | right; now right].
    + intros [H|H]; [right; now left|].
      destruct (IH H); [now left | right; now right].
Qed.

(** ** The custom rewriter *)

(** C9: constructing the custom rewriter with a [passes] argument that is
    not a string, or whose comma-separated list names a pass outside the
    registry, raises the configuration error [DLEException]; the object is
    left as it was, so nothing was stored in it and no pass was run. *)
Theorem custom_rewriter_rejects_bad_passes :
  forall (self : Self) (nodes : list Node) (passes : PyArg) (params : Params),
    (forall s, passes <> py_str s) \/
    (exists s name,
        passes = py_str s /\ In name (split "," s) /\
        ~ In name (keys passes_mapper)) ->
    __init__ self nodes passes params = (Raise DLEException, self).
Proof.
  intros self nodes passes params [Hns | (s & name & -> & Hin & Hout)].
  - destruct passes as [s| |]; [now destruct (Hns s) | reflexivity | reflexivity].
  - unfold __init__; cbn [split_passes].
    match goal with
    | |- context [forallb ?f ?l] => destruct (forallb f l) eqn:Hall
    end; [|reflexivity].
    rewrite forallb_forall in Hall. specialize (Hall name Hin).
    apply (contains_In_keys String.eqb String.eqb_eq) in Hall. contradiction.
Qed.

Lemma custom_rewriter_rejects_bogus :
  __init__ new_object [] (py_str "fission,bogus") (mkParams false bs_None false)
  = (Raise DLEException, new_object).
Proof.
  apply custom_rewriter_rejects_bad_passes.
  right. exists "fission,bogus"%string, "bogus"%string.
  split; [reflexivity|]. split; [simpl; tauto|].
  simpl. intros [H|[H|[H|[]]]]; discriminate.
Defined.

(** A list drawn from the registry is accepted and stored in order. *)
Lemma custom_rewriter_accepts_registered :
  forall (self : Self) (nodes : list Node) (s : string) (params : Params),
    (forall name, In name (split "," s) -> In name (keys passes_mapper)) ->
    __init__ self nodes (py_str s) params
    = (Ok tt, mkSelf (Some (split "," s)) (Some nodes) (Some params)).
Proof.
  intros self nodes s params H. unfold __init__; cbn [split_passes].
  replace (forallb _ (split "," s)) with true; [reflexivity|].
  symmetry. apply forallb_forall. intros name Hin.
  apply (contains_In_keys String.eqb String.eqb_eq). now apply H.
Qed.

(** ** OpenMP decoration: the choice of pragma *)

(** The candidates of a nest are its longest prefix of qualifying loops. *)
Lemma filter_iterations_longest_prefix (tree : list Iteration) key :
  exists rest,
    tree = filter_iterations tree key ++ rest /\
    forallb key (filter_iterations tree key) = true /\
    match rest with [] => True | i :: _ => key i = false end.
Proof.
  induction tree as [|i t (rest & Heq & Hall & Hstop)]; simpl.
  - exists []. auto.
  - destruct (key i) eqn:E.
    + exists rest. simpl. rewrite E, Hall. split; [congruence | auto].
    + exists (i :: t). simpl. auto.
Qed.

Lemma omp_pragma_collapse (p : Platform) (t : Thresholds) (n : nat) :
  (2 <= n /\ (collapse t <= cpu_count p)%Z -> omp_pragma p t n = omp_collapse n) /\
  (~ (2 <= n /\ (collapse t <= cpu_count p)%Z) -> omp_pragma p t n = omp_for).
Proof.
  unfold omp_pragma.
  destruct (Z.ltb_spec (cpu_count p) (collapse t));
    destruct (Nat.ltb_spec n 2); simpl; split; intros; try reflexivity; lia.
Qed.

(** What the pass records for a nest with candidates when it visits it:
    the selected root rebuilt with one more pragma, which is the collapse
    pragma exactly when the candidates - the longest prefix of parallel,
    not vectorizable loops - are at least two and the physical core count
    reaches the collapse threshold, and the plain parallel-for pragma in
    every other case.  A later nest with the same root replaces this
    entry. *)
Lemma ompize_tree_collapse_iff :
  forall (p : Platform) (t : Thresholds) (mapper : Mapper) (pvt : list Function)
         (tree : list Iteration) (root : Iteration) (rest : list Iteration),
    filter_iterations tree omp_key = root :: rest ->
    let nparallel := length (filter_iterations tree omp_key) in
    let collapsing := 2 <= nparallel /\ (collapse t <= cpu_count p)%Z in
    exists pragma,
      get Node_eqb (fst (ompize_tree p t (mapper, pvt) tree)) (NIteration root)
      = Some (Some (NIteration (with_pragmas root (pragmas root ++ [pragma])))) /\
      ((exists n, pragma = omp_collapse n) <-> collapsing) /\
      (collapsing -> pragma = omp_collapse nparallel) /\
      (~ collapsing -> pragma = omp_for).
Proof.
  intros p t mapper pvt tree root rest Hc nparallel collapsing.
  exists (omp_pragma p t nparallel).
  destruct (omp_pragma_collapse p t nparallel) as [Hyes Hno].
  split; [|split; [|split; assumption]].
  - unfold ompize_tree. rewrite Hc. cbn [fst].
    fold nparallel. subst nparallel. rewrite Hc.
    apply (get_setitem_same Node_eqb Node_eqb_eq).
  - split.
    + intros [n Hn].
      destruct (Nat.le_gt_cases 2 nparallel) as [H2|H2];
        destruct (Z.le_gt_cases (collapse t) (cpu_count p)) as [Hz|Hz];
        try (split; assumption);
        rewrite Hno in Hn by (unfold collapsing; lia); discriminate.
    + intros H. exists nparallel. now apply Hyes.
Qed.

(** A nest without candidates leaves the mapper as it is. *)
Lemma ompize_tree_no_candidates (p : Platform) (t : Thresholds)
  (st : Mapper * list Function) (tree : list Iteration) :
  filter_iterations tree omp_key = [] -> ompize_tree p t st tree = st.
Proof.
  intros H. unfold ompize_tree. destruct st. now rewrite H.
Qed.

(** ** Loop blocking: resolving the block shape *)

Section ShapeFacts.
Context {K V : Type}.
Variable eqb : K -> K -> bool.
Hypothesis eqb_eq : forall a b, eqb a b = true <-> a = b.

Lemma update_fresh (pairs d : list (K * V)) :
  NoDup (keys pairs) ->
  (forall k, In k (keys pairs) -> ~ In k (keys d)) ->
  update eqb d pairs = d ++ pairs.
Proof.
  unfold update. revert d.
  induction pairs as [|[k v] pairs IH]; intros d Hnd Hfresh; simpl.
  - now rewrite app_nil_r.
  - simpl in Hnd. inversion Hnd as [|? ? Hk Hnd']; subst.
    rewrite (keys_setitem_new eqb eqb_eq) by (apply Hfresh; now left).
    rewrite IH; [now rewrite <- app_assoc | exact Hnd' |].
    intros k' Hin. unfold keys. rewrite map_app, in_app_iff. simpl.
    intros [H|[H|[]]].
    + apply (Hfresh k'); [now right | exact H].
    + subst k'. contradiction.
Qed.

Lemma keys_combine (ks : list K) (vals : list V) :
  keys (combine ks vals) = firstn (length vals) ks.
Proof.
  unfold keys. revert vals.
  induction ks as [|k ks IH]; intros [|v vals]; simpl; try reflexivity.
  now rewrite IH.
Qed.

Lemma get_combine (ks : list K) (vals : list V) k v :
  NoDup ks -> In (k, v) (combine ks vals) ->
  get eqb (combine ks vals) k = Some v.
Proof.
  revert vals. induction ks as [|k0 ks IH]; intros [|v0 vals] Hnd Hin;
    simpl in *; try tauto.
  inversion Hnd as [|? ? Hk Hnd']; subst.
  destruct Hin as [Heq | Hin].
  - inversion Heq; subst. now rewrite (eqb_refl eqb eqb_eq).
  - rewrite (eqb_neq eqb eqb_eq).
    + now apply IH.
    + intros ->. apply Hk. eapply in_combine_l. exact Hin.
Qed.

Lemma filter_none {A} (f : A -> bool) (l : list A) :
  (forall a, In a l -> f a = false) -> filter f l = [].
Proof.
  induction l as [|a l IH]; intros H; simpl; [reflexivity|].
  rewrite (H a) by now left. apply IH. intros; apply H; now right.
Qed.

Lemma filter_all {A} (f : A -> bool) (l : list A) :
  (forall a, In a l -> f a = true) -> filter f l = l.
Proof.
  induction l as [|a l IH]; intros H; simpl; [reflexivity|].
  rewrite (H a) by now left. f_equal. apply IH. intros; apply H; now right.
Qed.

Lemma NoDup_app_disjoint {A} (l1 l2 : list A) :
  NoDup (l1 ++ l2) -> forall a, In a l1 -> In a l2 -> False.
Proof.
  induction l1 as [|x l1 IH]; simpl; intros Hnd a H1 H2; [tauto|].
  inversion Hnd as [|? ? Hx Hnd']; subst.
  destruct H1 as [->|H1].
  - apply Hx. apply in_or_app. now right.
  - now apply (IH Hnd' a).
Qed.

Lemma missing_keys (ks : list K) (vals : list V) :
  NoDup ks ->
  filter (fun k => negb (contains eqb (combine ks vals) k)) ks
  = skipn (length vals) ks.
Proof.
  intros Hnd.
  set (f := fun k => negb (contains eqb (combine ks vals) k)).
  transitivity (filter f (firstn (length vals) ks ++ skipn (length vals) ks));
    [now rewrite firstn_skipn|].
  rewrite <- (firstn_skipn (length vals) ks) in Hnd. subst f.
  rewrite filter_app, filter_none, filter_all; [reflexivity | |].
  - intros k Hin. apply negb_true_iff, not_true_is_false.
    rewrite (contains_In_keys eqb eqb_eq), keys_combine.
    intros Hin'. exact (NoDup_app_disjoint _ _ Hnd k Hin' Hin).
  - intros k Hin. apply negb_false_iff.
    now rewrite (contains_In_keys eqb eqb_eq), keys_combine.
Qed.

Lemma combine_padded (ks : list K) (vals : list V) (c : V) :
  combine ks vals ++ map (fun k => (k, c)) (skipn (length vals) ks)
  = combine ks (firstn (length ks) vals
                ++ repeat c (length ks - length vals)).
Proof.
  revert vals. induction ks as [|k ks IH]; intros [|v vals]; simpl;
    try reflexivity.
  - f_equal. specialize (IH []). simpl in IH.
    rewrite firstn_nil, Nat.sub_0_r, combine_nil in IH. exact IH.
  - f_equal. apply IH.
Qed.
End ShapeFacts.

Lemma len_iter_items (blockshape : BlockShape) (nitems : nat) :
  len blockshape = Ok nitems -> length (iter_items blockshape) = nitems.
Proof.
  destruct blockshape; simpl; intros H; inversion H;
    now rewrite length_map.
Qed.

Lemma blocking_args_ok (blocked : Blocked) (sizes : list BlockValue) (shape : Shape) :
  length sizes = length blocked ->
  (forall k v, In (k, v) (combine (keys blocked) sizes) ->
               get Iteration_eqb shape k = Some v) ->
  blocking_args blocked shape = Ok (args_of blocked sizes).
Proof.
  unfold args_of, keys. revert sizes.
  induction blocked as [|[k d] blocked IH]; intros [|v sizes] Hlen Hget;
    simpl in *; try discriminate; [reflexivity|].
  rewrite (Hget k v) by now left.
  rewrite (IH sizes); [reflexivity | congruence |].
  intros k' v' Hin. apply Hget. now right.
Qed.

Lemma value_args_of (blocked : Blocked) (sizes : list BlockValue) :
  length sizes = length blocked -> map value (args_of blocked sizes) = sizes.
Proof.
  unfold args_of. revert sizes.
  induction blocked as [|kd blocked IH]; intros [|v sizes] Hlen;
    simpl in *; try discriminate; [reflexivity|].
  f_equal. apply IH. congruence.
Qed.

Lemma determine_blockshape_sized (blocked : Blocked) (blockshape : BlockShape)
  (nitems : nat) :
  NoDup (keys blocked) ->
  is_falsy blockshape = Ok false ->
  len blockshape = Ok nitems ->
  determine_blockshape blocked blockshape
  = Ok (combine (keys blocked) (sized_values blocked blockshape),
        mismatch_warnings (length blocked) nitems).
Proof.
  intros Hnd Hf Hlen.
  unfold determine_blockshape, supplied_shape. rewrite Hf, Hlen. cbn [bind].
  set (ks := keys blocked) in *. set (items := iter_items blockshape).
  assert (Hsplit : NoDup (firstn (length items) ks ++ skipn (length items) ks))
    by now rewrite firstn_skipn.
  assert (Hd : dict_of (combine ks items) = combine ks items).
  { unfold dict_of.
    rewrite (update_fresh Iteration_eqb Iteration_eqb_eq); [reflexivity | | auto].
    rewrite keys_combine. eapply NoDup_app_remove_r. exact Hsplit. }
  rewrite Hd, (missing_keys Iteration_eqb Iteration_eqb_eq) by exact Hnd.
  rewrite (update_fresh Iteration_eqb Iteration_eqb_eq).
  - rewrite combine_padded. unfold sized_values, mismatch_warnings.
    subst ks items. unfold keys. rewrite !length_map. reflexivity.
  - unfold keys. rewrite map_map. simpl. rewrite map_id.
    eapply NoDup_app_remove_l. exact Hsplit.
  - unfold keys at 1. rewrite map_map. simpl. rewrite map_id.
    intros k Hin. rewrite keys_combine. intros Hin'.
    exact (NoDup_app_disjoint _ _ Hsplit k Hin' Hin).
Qed.

Lemma sized_values_length (blocked : Blocked) (blockshape : BlockShape) :
  length (sized_values blocked blockshape) = length blocked.
Proof.
  unfold sized_values. rewrite length_app, length_firstn, repeat_length. lia.
Qed.

Lemma blocking_update_sized (blocked : Blocked) (blockshape : BlockShape)
  (processed : list Node) (nitems : nat) :
  NoDup (keys blocked) ->
  blocked <> [] ->
  is_falsy blockshape = Ok false ->
  len blockshape = Ok nitems ->
  blocking_update blocked blockshape processed
  = Ok (mkUpdate processed (args_of blocked (sized_values blocked blockshape))
                 ["blocking"%string]
                 (mismatch_warnings (length blocked) nitems)).
Proof.
  intros Hnd Hne Hf Hlen. unfold blocking_update.
  destruct blocked as [|kd rest] eqn:Eb; [contradiction|]. rewrite <- Eb in *.
  rewrite (determine_blockshape_sized _ _ nitems) by assumption. cbn [bind].
  rewrite (blocking_args_ok _ (sized_values blocked blockshape)).
  - reflexivity.
  - apply sized_values_length.
  - intros k v Hin.
    now apply (get_combine Iteration_eqb Iteration_eqb_eq).
Qed.

Lemma map_pair_repeat {K V} (l : list K) (c : V) :
  map (fun k => (k, c)) l = combine l (repeat c (length l)).
Proof. induction l as [|k l IH]; simpl; [reflexivity | now rewrite IH]. Qed.

Lemma args_of_repeat (blocked : Blocked) (c : BlockValue) :
  args_of blocked (repeat c (length blocked))
  = map (fun kd => mkBlockingArg (snd kd) (fst kd) c) blocked.
Proof.
  unfold args_of. induction blocked as [|kd blocked IH]; simpl;
    [reflexivity | now rewrite IH].
Qed.

(** On the update: with a length that differs from the number of blocked
    loops, one diagnostic, the supplied entries in order, then [None]. *)
Lemma blocking_update_mismatch (blocked : Blocked) (blockshape : BlockShape)
  (processed : list Node) (nitems : nat) :
  NoDup (keys blocked) ->
  blocked <> [] ->
  is_falsy blockshape = Ok false ->
  len blockshape = Ok nitems ->
  nitems <> length blocked ->
  exists upd warning,
    blocking_update blocked blockshape processed = Ok upd /\
    upd_nodes upd = processed /\
    upd_warnings upd = [warning] /\
    map (fun a => (iteration a, blocked_dim a)) (upd_arguments upd) = blocked /\
    map value (upd_arguments upd)
    = firstn (length blocked) (iter_items blockshape)
      ++ repeat bv_None (length blocked - nitems).
Proof.
  intros Hnd Hne Hf Hlen Hmis.
  eexists. exists (if length blocked <? nitems then more_entries else fewer_entries).
  rewrite (blocking_update_sized _ _ _ nitems) by assumption.
  split; [reflexivity|]. cbn [upd_nodes upd_warnings upd_arguments].
  split; [reflexivity|]. split; [|split].
  - unfold mismatch_warnings.
    destruct (Nat.ltb_spec (length blocked) nitems);
      destruct (Nat.ltb_spec nitems (length blocked)); simpl; try reflexivity; lia.
  - unfold args_of. rewrite map_map. cbn [iteration blocked_dim].
    pose proof (sized_values_length blocked blockshape) as Hl.
    revert Hl. generalize (sized_values blocked blockshape).
    clear. induction blocked as [|[k d] blocked IH]; intros [|v l] Hl;
      simpl in *; try discriminate; [reflexivity|].
    f_equal. apply IH. congruence.
  - rewrite value_args_of by apply sized_values_length.
    unfold sized_values. now rewrite (len_iter_items _ _ Hlen).
Qed.

(** On the update: a value without a length goes to the first blocked
    loop, [None] to the others, and nothing is logged. *)
Lemma blocking_update_scalar (blocked : Blocked) (blockshape : BlockShape)
  (processed : list Node) (k0 : Iteration) (d0 : Dimension) (rest : Blocked) :
  NoDup (keys blocked) ->
  blocked = (k0, d0) :: rest ->
  is_falsy blockshape = Ok false ->
  len blockshape = Raise TypeError ->
  exists z,
    blockshape = bs_scalar z /\
    blocking_update blocked blockshape processed
    = Ok (mkUpdate processed
            (mkBlockingArg d0 k0 (bv_int z)
             :: map (fun kd => mkBlockingArg (snd kd) (fst kd) bv_None) rest)
            ["blocking"%string] []).
Proof.
  intros Hnd -> Hf Hlen.
  destruct blockshape as [|z|l|l|l]; try discriminate.
  exists z. split; [reflexivity|].
  simpl in Hnd. inversion Hnd as [|? ? Hk0 Hnd']; subst.
  unfold blocking_update, determine_blockshape, supplied_shape.
  rewrite Hf. cbn [len keys map fst item_first bind].
  assert (Hmiss :
            filter (fun k => negb (contains Iteration_eqb [(k0, bv_int z)] k))
                   (k0 :: map fst rest) = map fst rest).
  { simpl. unfold contains at 1. simpl.
    rewrite (eqb_refl Iteration_eqb Iteration_eqb_eq). simpl.
    apply filter_all. intros k Hin. unfold contains. simpl.
    rewrite (eqb_neq Iteration_eqb Iteration_eqb_eq); [reflexivity|].
    intros ->. contradiction. }
  rewrite Hmiss.
  rewrite (update_fresh Iteration_eqb Iteration_eqb_eq).
  - rewrite (blocking_args_ok _ (bv_int z :: repeat bv_None (length rest))).
    + unfold args_of. simpl. fold (args_of rest (repeat bv_None (length rest))).
      now rewrite args_of_repeat.
    + simpl. now rewrite repeat_length.
    + intros k v Hin. simpl app.
      rewrite map_pair_repeat, length_map.
      change ((k0, bv_int z) :: combine (map fst rest) (repeat bv_None (length rest)))
        with (combine (k0 :: map fst rest) (bv_int z :: repeat bv_None (length rest))).
      apply (get_combine Iteration_eqb Iteration_eqb_eq); [|exact Hin].
      now constructor.
  - unfold keys. rewrite map_map. simpl. now rewrite map_id.
  - unfold keys. rewrite map_map. simpl. rewrite map_id.
    intros k Hin [<-|[]]. contradiction.
Qed.

Lemma args_of_pairs (blocked : Blocked) (sizes : list BlockValue) :
  length sizes = length blocked ->
  map (fun a => (iteration a, blocked_dim a)) (args_of blocked sizes) = blocked.
Proof.
  unfold args_of. rewrite map_map. cbn [iteration blocked_dim]. revert sizes.
  induction blocked as [|[k d] blocked IH]; intros [|v l] Hl;
    simpl in *; try discriminate; [reflexivity|].
  f_equal. apply IH. congruence.
Qed.

Lemma uniform_args_pairs (blocked : Blocked) (c : BlockValue) :
  map (fun a => (iteration a, blocked_dim a)) (uniform_args blocked c) = blocked.
Proof.
  unfold uniform_args. rewrite map_map. cbn [iteration blocked_dim].
  induction blocked as [|[k d] blocked IH]; simpl; congruence.
Qed.

(** On the update: without a block shape every blocked loop gets the
    heuristic, and nothing is logged. *)
Lemma blocking_update_heuristic (blocked : Blocked) (blockshape : BlockShape)
  (processed : list Node) :
  NoDup (keys blocked) ->
  blocked <> [] ->
  is_falsy blockshape = Ok true ->
  blocking_update blocked blockshape processed
  = Ok (mkUpdate processed (uniform_args blocked bv_heuristic)
                 ["blocking"%string] []).
Proof.
  intros Hnd Hne Hf. unfold blocking_update, determine_blockshape.
  destruct blocked as [|kd rest] eqn:Eb; [contradiction|]. rewrite <- Eb in *.
  rewrite Hf. cbn [bind].
  rewrite (blocking_args_ok _ (repeat bv_heuristic (length blocked))).
  - cbn [bind]. now rewrite args_of_repeat.
  - apply repeat_length.
  - intros k v Hin. rewrite map_pair_repeat. unfold keys. rewrite length_map.
    now apply (get_combine Iteration_eqb Iteration_eqb_eq).
Qed.

(** On the update: it is returned whenever no loop was blocked or the
    truth test of the block shape gives an answer, with one argument per
    blocked loop, in order. *)
Lemma blocking_update_completes (blocked : Blocked) (blockshape : BlockShape)
  (processed : list Node) :
  NoDup (keys blocked) ->
  blocked = [] \/ (exists b, is_falsy blockshape = Ok b) ->
  exists upd,
    blocking_update blocked blockshape processed = Ok upd /\
    upd_nodes upd = processed /\
    map (fun a => (iteration a, blocked_dim a)) (upd_arguments upd) = blocked /\
    upd_flags upd = match blocked with [] => [] | _ => ["blocking"%string] end.
Proof.
  intros Hnd Hcase.
  destruct blocked as [|[k0 d0] rest] eqn:Eb.
  - eexists. repeat split.
  - rewrite <- Eb in *.
    assert (Hne : blocked <> []) by (rewrite Eb; discriminate).
    destruct Hcase as [Hnil|[b Hf]]; [now rewrite Hnil in Hne|].
    destruct b.
    + rewrite (blocking_update_heuristic _ _ _ Hnd Hne Hf).
      eexists. split; [reflexivity|]. cbn [upd_nodes upd_arguments upd_flags].
      rewrite uniform_args_pairs. rewrite Eb. auto.
    + destruct (len blockshape) as [nitems|e] eqn:Hlen.
      * rewrite (blocking_update_sized _ _ _ nitems Hnd Hne Hf Hlen).
        eexists. split; [reflexivity|]. cbn [upd_nodes upd_arguments upd_flags].
        rewrite args_of_pairs by apply sized_values_length. rewrite Eb. auto.
      * assert (e = TypeError) by (destruct blockshape; inversion Hlen; auto).
        subst e.
        destruct (blocking_update_scalar blocked blockshape processed k0 d0 rest
                    Hnd Eb Hf Hlen) as (z & _ & ->).
        eexists. split; [reflexivity|]. cbn [upd_nodes upd_arguments upd_flags].
        split; [reflexivity|]. split; [|reflexivity].
        rewrite Eb. cbn [map iteration blocked_dim]. f_equal.
        rewrite map_map. cbn [iteration blocked_dim].
        clear. induction rest as [|[k d] rest IH]; simpl; congruence.
Qed.

(** On the update: what the truth test of the block shape raises leaves
    the pass, once a loop was blocked. *)
Lemma blocking_update_raises (blocked : Blocked) (blockshape : BlockShape)
  (processed : list Node) (e : Exception) :
  blocked <> [] ->
  is_falsy blockshape = Raise e ->
  blocking_update blocked blockshape processed = Raise e.
Proof.
  intros Hne Hf. unfold blocking_update, determine_blockshape.
  destruct blocked; [contradiction|]. now rewrite Hf.
Qed.

(** ** OpenMP decoration: the parallel region *)

Section RedirectFacts.
Context {K V : Type}.
Variable eqb : K -> K -> bool.
Hypothesis eqb_eq : forall a b, eqb a b = true <-> a = b.

Lemma get_None (d : list (K * V)) k : ~ In k (keys d) -> get eqb d k = None.
Proof.
  intros H. pose proof (contains_In_keys eqb eqb_eq d k) as Hc.
  unfold contains in Hc. destruct (get eqb d k); [|reflexivity].
  exfalso. apply H, Hc. reflexivity.
Qed.

Lemma get_In (d : list (K * V)) k v :
  NoDup (keys d) -> In (k, v) d -> get eqb d k = Some v.
Proof.
  unfold keys. induction d as [|[k' v'] d IH]; simpl; [tauto|].
  intros Hnd [Heq|Hin].
  - inversion Heq; subst. now rewrite (eqb_refl eqb eqb_eq).
  - inversion Hnd as [|? ? Hk Hnd']; subst.
    rewrite (eqb_neq eqb eqb_eq); [now apply IH|].
    intros ->. apply Hk. now apply (in_map fst) in Hin.
Qed.

Lemma setitem_NoDup (d : list (K * V)) k v :
  NoDup (keys d) -> NoDup (keys (setitem eqb d k v)).
Proof.
  intros Hnd. destruct (contains eqb d k) eqn:E.
  - apply (contains_In_keys eqb eqb_eq) in E.
    now rewrite (keys_setitem_In eqb eqb_eq).
  - assert (Hk : ~ In k (keys d)).
    { intros Hin. apply (contains_In_keys eqb eqb_eq) in Hin. congruence. }
    rewrite (keys_setitem_new eqb eqb_eq) by exact Hk.
    unfold keys in *. rewrite map_app. simpl.
    clear E. induction (map fst d) as [|x l IH]; simpl.
    + constructor; [tauto | constructor].
    + inversion Hnd as [|? ? Hx Hnd']; subst. simpl in Hk. constructor.
      * rewrite in_app_iff. simpl. intuition.
      * apply IH; tauto.
Qed.

Lemma update_NoDup (pairs d : list (K * V)) :
  NoDup (keys d) -> NoDup (keys (update eqb d pairs)).
Proof.
  unfold update. revert d. induction pairs as [|[k v] pairs IH];
    intros d Hnd; simpl; [exact Hnd|].
  apply IH. now apply setitem_NoDup.
Qed.
End RedirectFacts.

Lemma ompize_tree_NoDup (p : Platform) (t : Thresholds)
  (st : Mapper * list Function) (tree : list Iteration) :
  NoDup (keys (fst st)) -> NoDup (keys (fst (ompize_tree p t st tree))).
Proof.
  destruct st as [mapper pvt]. unfold ompize_tree.
  destruct (filter_iterations tree omp_key); simpl; [auto|].
  apply (setitem_NoDup Node_eqb Node_eqb_eq).
Qed.

Lemma ompize_selected_NoDup (p : Platform) (t : Thresholds)
  (state_nodes : list Node) (node : Node) :
  NoDup (keys (fst (ompize_selected p t state_nodes node))).
Proof.
  unfold ompize_selected.
  set (st0 := (update Node_eqb [] _, @nil Function)).
  assert (H0 : NoDup (keys (fst st0))).
  { apply (update_NoDup Node_eqb Node_eqb_eq). constructor. }
  revert H0. generalize st0.
  induction (retrieve_iteration_tree node) as [|tree trees IH]; intros st H;
    simpl; [exact H|].
  apply IH. now apply ompize_tree_NoDup.
Qed.

Lemma get_redirect_fold (par_region : Node) (items acc : Mapper) (k : Node) :
  NoDup (keys items) ->
  get Node_eqb
      (fold_left
         (fun (m : Mapper) (kv : Node * option Node) =>
            match snd kv with
            | Some v =>
                setitem Node_eqb m (fst kv)
                  (if node_is_Remainder v then None else Some par_region)
            | None => m
            end) items acc) k
  = match get Node_eqb items k with
    | Some (Some v) => Some (if node_is_Remainder v then None else Some par_region)
    | _ => get Node_eqb acc k
    end.
Proof.
  revert acc. induction items as [|[k1 o1] items IH]; intros acc Hnd;
    [reflexivity|].
  simpl in Hnd. inversion Hnd as [|? ? Hk1 Hnd']; subst.
  cbn [fold_left snd fst]. rewrite IH by exact Hnd'. cbn [get].
  destruct (Node_eqb k k1) eqn:E.
  - apply Node_eqb_eq in E. subst k1.
    rewrite (get_None Node_eqb Node_eqb_eq) by exact Hk1.
    destruct o1 as [v|]; [|reflexivity].
    apply (get_setitem_same Node_eqb Node_eqb_eq).
  - destruct (get Node_eqb items k) as [[v|]|]; try reflexivity;
      (destruct o1 as [v1|]; [|reflexivity];
       apply (get_setitem_other Node_eqb Node_eqb_eq);
       intros ->; rewrite (eqb_refl Node_eqb Node_eqb_eq) in E; discriminate).
Qed.




(** The tree the pass returns for that nest: the region, holding the main
    blocked tree and the two remainder trees headed by a parallel loop,
    then the all-remainder tree, which has no candidate and stays where it
    was. *)
Lemma ompize_blocked_nest3 :
  ompize_node Examples.platform Examples.thresholds
    [Examples.blocked_nest3] Examples.blocked_nest3
  = Some (NList []
            [par_region_of [Examples.blocked_nest3] Examples.selected3;
             nth 3 (body_of Examples.blocked_nest3) NDenormals]
            []).
Proof. vm_compute. reflexivity. Qed.

(** ** Loop fission: the safety check *)

Lemma any_other_dim_false (d : Dimension) (fs : list Function) :
  any_other_dim d fs = Ok false ->
  forall f, In f fs -> item_last (fn_indices f) = Ok d.
Proof.
  induction fs as [|f0 fs IH]; simpl; [tauto|].
  destruct (item_last (fn_indices f0)) as [d0|e] eqn:E; cbn [bind];
    [|discriminate].
  destruct (Dimension_eqb d d0) eqn:Ed; [|discriminate].
  apply Dimension_eqb_eq in Ed. subst d0.
  intros H f [<-|Hin]; [exact E | now apply IH].
Qed.

Lemma any_other_dim_true (d : Dimension) (fs : list Function) :
  (forall f, In f fs -> fn_indices f <> []) ->
  (exists f, In f fs /\ item_last (fn_indices f) <> Ok d) ->
  any_other_dim d fs = Ok true.
Proof.
  induction fs as [|f0 fs IH]; simpl; intros Hne (f & Hin & Hf); [tauto|].
  destruct (item_last (fn_indices f0)) as [d0|e] eqn:E; cbn [bind].
  - destruct (Dimension_eqb d d0) eqn:Ed; [|reflexivity].
    apply Dimension_eqb_eq in Ed. subst d0.
    apply IH; [intros; apply Hne; now right|].
    exists f. split; [|exact Hf].
    destruct Hin as [<-|Hin]; [contradiction | exact Hin].
  - exfalso. apply (Hne f0); [now left|].
    unfold item_last in E. destruct (rev (fn_indices f0)) eqn:Er; [|discriminate].
    apply (f_equal (@rev Dimension)) in Er. now rewrite rev_involutive in Er.
Qed.

Lemma item_last_nonempty {A} (l : list A) :
  l <> [] -> exists x, item_last l = Ok x.
Proof.
  intros H. unfold item_last. destruct (rev l) as [|x r] eqn:E; [|now exists x].
  apply (f_equal (@rev A)) in E. rewrite rev_involutive in E. contradiction.
Qed.

Lemma any_other_dim_ok (d : Dimension) (fs : list Function) :
  (forall f, In f fs -> fn_indices f <> []) ->
  exists b, any_other_dim d fs = Ok b.
Proof.
  induction fs as [|f fs IH]; intros H; simpl; [now eexists|].
  destruct (item_last_nonempty (fn_indices f)) as [x ->]; [apply H; now left|].
  cbn [bind]. destruct (Dimension_eqb d x); [|now eexists].
  apply IH. intros; apply H; now right.
Qed.

Lemma any_other_dim_all (d : Dimension) (fs : list Function) :
  (forall f, In f fs -> item_last (fn_indices f) = Ok d) ->
  any_other_dim d fs = Ok false.
Proof.
  induction fs as [|f fs IH]; intros H; simpl; [reflexivity|].
  rewrite (H f (or_introl eq_refl)). cbn [bind].
  rewrite (eqb_refl Dimension_eqb Dimension_eqb_eq).
  apply IH. intros; apply H; now right.
Qed.

(** The two listings are listings. *)
Lemma In_first_use_order (l : list Function) (f : Function) :
  In f (first_use_order l) <-> In f l.
Proof.
  unfold first_use_order. induction l as [|x l IH]; [reflexivity|].
  cbn [filter_ordered In]. rewrite filter_In, IH.
  destruct (Function_eq_dec x f) as [<-|Hne]; [tauto|].
  rewrite (eqb_neq Function_eqb Function_eqb_eq) by exact Hne. simpl. tauto.
Qed.

Lemma NoDup_first_use_order (l : list Function) : NoDup (first_use_order l).
Proof.
  unfold first_use_order. induction l as [|x l IH]; [constructor|].
  cbn [filter_ordered]. constructor; [|now apply NoDup_filter].
  rewrite filter_In, (eqb_refl Function_eqb Function_eqb_eq). simpl.
  intros [_ H]. discriminate.
Qed.

Lemma first_use_order_lists : lists_the_set first_use_order.
Proof.
  intros l. split; [apply NoDup_first_use_order | apply In_first_use_order].
Qed.

Lemma last_use_order_lists : lists_the_set last_use_order.
Proof.
  intros l. unfold last_use_order. split.
  - apply NoDup_rev, NoDup_first_use_order.
  - intros f. rewrite <- in_rev. apply In_first_use_order.
Qed.

(** A listing of the functions collected from a candidate holds the
    functions the candidate references. *)
Lemma listed_referenced (listed : list Function -> list Function)
  (candidate : Iteration) (f : Function) :
  lists_the_set listed ->
  In f (listed (flat_map functions (expressions_of (nodes candidate))))
  <-> In f (referenced_functions candidate).
Proof.
  intros Hl. unfold referenced_functions.
  rewrite (proj2 (Hl _) f). symmetry. apply In_first_use_order.
Qed.

(** What a fissioned tree went through. *)
Lemma fission_tree_Some (listed : list Function -> list Function)
  (t : Thresholds) (tree : list Iteration) entry :
  fission_tree listed t tree = Ok (Some entry) ->
  exists candidate dim,
    item_last tree = Ok candidate /\
    any_other_dim dim (listed (flat_map functions (expressions_of (nodes candidate))))
    = Ok false.
Proof.
  unfold fission_tree, item_last.
  destruct (length tree <=? 1); [discriminate|].
  destruct (rev tree) as [|candidate r]; [discriminate|].
  destruct (_ <? _); [discriminate|].
  destruct (negb _); [discriminate|].
  destruct (expressions_of (nodes candidate)) as [|e0 es] eqn:Ee; [discriminate|].
  destruct (listed _) as [|handle fs] eqn:Ef; [discriminate|].
  destruct (match rev (fn_indices handle) with [] => _ | _ => _ end) as [dim|];
    cbn [bind]; [|discriminate].
  destruct (match rev (fn_shape handle) with [] => _ | _ => _ end) as [size|];
    cbn [bind]; [|discriminate].
  destruct (any_other_dim dim (handle :: fs)) as [[|]|] eqn:Ea; cbn [bind];
    try discriminate.
  intros _. exists candidate, dim. split; [reflexivity|].
  now rewrite Ee, Ef.
Qed.

(** A candidate whose referenced functions, each with a rank, do not
    share one trailing dimension is skipped. *)
Lemma fission_tree_skips (listed : list Function -> list Function)
  (t : Thresholds) (tree : list Iteration) (candidate : Iteration) :
  lists_the_set listed ->
  item_last tree = Ok candidate ->
  (forall f, In f (referenced_functions candidate) ->
             fn_indices f <> [] /\ fn_shape f <> []) ->
  ~ same_trailing_dimension (referenced_functions candidate) ->
  fission_tree listed t tree = Ok None.
Proof.
  intros Hl Hlast Hne Hmixed.
  unfold fission_tree. unfold item_last in Hlast.
  destruct (length tree <=? 1); [reflexivity|].
  destruct (rev tree) as [|c r]; [discriminate|].
  assert (c = candidate) by congruence. subst c.
  destruct (_ <? _); [reflexivity|].
  destruct (negb _); [reflexivity|].
  assert (Hrank : forall f,
             In f (listed (flat_map functions (expressions_of (nodes candidate)))) ->
             fn_indices f <> [] /\ fn_shape f <> []).
  { intros f Hf. apply Hne. now apply (listed_referenced listed candidate f Hl). }
  destruct (expressions_of (nodes candidate)) as [|e0 es] eqn:Ee.
  { exfalso. apply Hmixed. unfold referenced_functions. rewrite Ee.
    intros f g []. }
  rewrite <- Ee in *.
  destruct (listed _) as [|handle fs] eqn:Ef; [reflexivity|].
  destruct (Hrank handle (or_introl eq_refl)) as [Hi Hs].
  destruct (item_last_nonempty _ Hi) as [dim Hdim].
  destruct (item_last_nonempty _ Hs) as [size Hsize].
  rewrite Hdim, Hsize. cbn [bind].
  destruct (any_other_dim_ok dim (handle :: fs)) as [[|] Ea];
    [intros f Hf; now apply Hrank | now rewrite Ea |].
  exfalso. apply Hmixed. intros f g Hf Hg.
  apply (listed_referenced listed candidate _ Hl) in Hf, Hg.
  rewrite Ef in Hf, Hg.
  now rewrite (any_other_dim_false _ _ Ea f Hf), (any_other_dim_false _ _ Ea g Hg).
Qed.

(** A candidate of a nest of two loops or more, whose body is made of
    enough expressions referencing functions, each with a rank, that
    share one trailing dimension, is transformed: no other test stands in
    the way, and none reads a trailing extent. *)
Lemma fission_tree_transforms (listed : list Function -> list Function)
  (t : Thresholds) (tree : list Iteration) (candidate : Iteration) :
  lists_the_set listed ->
  item_last tree = Ok candidate ->
  (forall f, In f (referenced_functions candidate) ->
             fn_indices f <> [] /\ fn_shape f <> []) ->
  same_trailing_dimension (referenced_functions candidate) ->
  2 <= length tree ->
  nodes candidate = map NExpression (expressions_of (nodes candidate)) ->
  max_fission t <= length (nodes candidate) ->
  referenced_functions candidate <> [] ->
  exists fissioned,
    fission_tree listed t tree
    = Ok (Some (NIteration candidate, NList [] fissioned [])).
Proof.
  intros Hl Hlast Hne Hsame Hdepth Hbody Hcount Hsome.
  assert (Hlen : length (expressions_of (nodes candidate)) = length (nodes candidate)).
  { rewrite Hbody at 2. now rewrite length_map. }
  unfold fission_tree. unfold item_last in Hlast.
  destruct (Nat.leb_spec (length tree) 1); [lia|].
  destruct (rev tree) as [|c r]; [discriminate|].
  assert (c = candidate) by congruence. subst c.
  destruct (Nat.ltb_spec (length (expressions_of (nodes candidate))) (max_fission t));
    [lia|].
  rewrite Hlen, Nat.eqb_refl. cbn [negb].
  assert (Hrank : forall f,
             In f (listed (flat_map functions (expressions_of (nodes candidate)))) ->
             fn_indices f <> [] /\ fn_shape f <> []).
  { intros f Hf. apply Hne. now apply (listed_referenced listed candidate f Hl). }
  destruct (expressions_of (nodes candidate)) as [|e0 es] eqn:Ee.
  { exfalso. apply Hsome. unfold referenced_functions. now rewrite Ee. }
  rewrite <- Ee in *.
  destruct (listed _) as [|handle fs] eqn:Ef.
  { exfalso. destruct (referenced_functions candidate) as [|f0 l] eqn:Er;
      [now apply Hsome|].
    assert (Hin : In f0 (referenced_functions candidate))
      by (rewrite Er; now left).
    apply (listed_referenced listed candidate _ Hl) in Hin.
    now rewrite Ef in Hin. }
  destruct (Hrank handle (or_introl eq_refl)) as [Hi Hs].
  destruct (item_last_nonempty _ Hi) as [dim Hdim].
  destruct (item_last_nonempty _ Hs) as [size Hsize].
  rewrite Hdim, Hsize. cbn [bind].
  rewrite any_other_dim_all.
  - cbn [bind]. unfold promote_scalar_expressions.
    rewrite !length_map, Hlen, Nat.eqb_refl. cbn [negb]. now eexists.
  - intros f Hf. rewrite <- Hdim. apply Hsame.
    + apply (listed_referenced listed candidate _ Hl). now rewrite Ef.
    + apply (listed_referenced listed candidate _ Hl). rewrite Ef. now left.
Qed.

(** C5, as the code has it, for any order in which the set lists the
    referenced functions.  A nest is fissioned only if all functions
    referenced by the expressions of its innermost body share the same
    trailing dimension.  When each of them has at least one dimension and
    extent: a candidate whose referenced functions have mixed trailing
    dimensions is skipped, the mapper being left as it was; and the
    trailing extents are not compared - a candidate of a nest of two loops
    or more whose body is made of at least [max_fission] expressions, and
    references functions that share the trailing dimension, is
    transformed whatever their extents. *)
Theorem fission_checks_trailing_dimension_only :
  forall (listed : list Function -> list Function) (t : Thresholds)
         (tree : list Iteration) (candidate : Iteration),
    lists_the_set listed ->
    item_last tree = Ok candidate ->
    (forall entry,
        fission_tree listed t tree = Ok (Some entry) ->
        same_trailing_dimension (referenced_functions candidate)) /\
    ((forall f, In f (referenced_functions candidate) ->
                fn_indices f <> [] /\ fn_shape f <> []) ->
     (~ same_trailing_dimension (referenced_functions candidate) ->
      fission_tree listed t tree = Ok None /\
      forall mapper, fission_mapper listed t [tree] mapper = Ok mapper) /\
     (same_trailing_dimension (referenced_functions candidate) ->
      2 <= length tree ->
      nodes candidate = map NExpression (expressions_of (nodes candidate)) ->
      max_fission t <= length (nodes candidate) ->
      referenced_functions candidate <> [] ->
      exists fissioned,
        fission_tree listed t tree
        = Ok (Some (NIteration candidate, NList [] fissioned [])))).
Proof.
  intros listed t tree candidate Hl Hlast. split; [|intros Hne; split].
  - intros entry H. apply fission_tree_Some in H.
    destruct H as (c & dim & Hc & Hany).
    assert (c = candidate) by congruence. subst c.
    intros f g Hf Hg.
    apply (listed_referenced listed candidate _ Hl) in Hf, Hg.
    now rewrite (any_other_dim_false _ _ Hany f Hf),
                (any_other_dim_false _ _ Hany g Hg).
  - intros Hmixed.
    assert (Hskip : fission_tree listed t tree = Ok None)
      by now apply (fission_tree_skips listed t tree candidate).
    split; [exact Hskip|].
    intros mapper. simpl. now rewrite Hskip.
  - intros Hsame Hdepth Hbody Hcount Hsome.
    now apply (fission_tree_transforms listed t tree candidate).
Qed.

Lemma mixed_tree_is_ranked :
  forall f, In f (referenced_functions Examples.mixed_j) ->
            fn_indices f <> [] /\ fn_shape f <> [].
Proof.
  intros f Hf. vm_compute in Hf.
  destruct Hf as [<-|[<-|[]]]; split; discriminate.
Qed.

Lemma mixed_tree_shares_dimension :
  same_trailing_dimension (referenced_functions Examples.mixed_j).
Proof.
  intros f g Hf Hg. vm_compute in Hf, Hg.
  destruct Hf as [<-|[<-|[]]], Hg as [<-|[<-|[]]]; reflexivity.
Qed.

Lemma crossed_tree_is_ranked :
  forall f, In f (referenced_functions Examples.crossed_j) ->
            fn_indices f <> [] /\ fn_shape f <> [].
Proof.
  intros f Hf. vm_compute in Hf.
  destruct Hf as [<-|[<-|[]]]; split; discriminate.
Qed.

Lemma crossed_tree_mixes_dimensions :
  ~ same_trailing_dimension (referenced_functions Examples.crossed_j).
Proof.
  intros H. specialize (H Examples.a Examples.at_).
  assert (Heq : item_last (fn_indices Examples.a)
                = item_last (fn_indices Examples.at_)).
  { apply H; vm_compute; tauto. }
  vm_compute in Heq. discriminate.
Qed.

(** The two halves at work, with the set listing last uses first: the nest
    that copies between [a] and [pa], whose trailing extents are 20 and
    24, is transformed; the nest that copies between [a] and its
    transpose is skipped. *)
Lemma fission_checks_trailing_dimension_only_example :
  (exists fissioned,
      fission_tree last_use_order Examples.thresholds Examples.mixed_tree
      = Ok (Some (NIteration Examples.mixed_j, NList [] fissioned []))) /\
  (fission_tree last_use_order Examples.thresholds Examples.crossed_tree = Ok None /\
   forall mapper,
     fission_mapper last_use_order Examples.thresholds [Examples.crossed_tree] mapper
     = Ok mapper).
Proof.
  split.
  - apply (proj2 (proj2 (fission_checks_trailing_dimension_only
                           last_use_order Examples.thresholds Examples.mixed_tree
                           Examples.mixed_j last_use_order_lists eq_refl)
                        mixed_tree_is_ranked)).
    + exact mixed_tree_shares_dimension.
    + vm_compute. lia.
    + reflexivity.
    + vm_compute. lia.
    + vm_compute. discriminate.
  - apply (proj1 (proj2 (fission_checks_trailing_dimension_only
                           last_use_order Examples.thresholds Examples.crossed_tree
                           Examples.crossed_j last_use_order_lists eq_refl)
                        crossed_tree_is_ranked)).
    exact crossed_tree_mixes_dimensions.
Defined.

(** The nest that copies between an array and its padded shadow, whose
    trailing extents are 20 and 24, is fissioned, whatever the order in
    which the set lists the two arrays. *)
Lemma fission_of_mixed_extents (listed : list Function -> list Function) :
  lists_the_set listed ->
  exists fissioned,
    fission_tree listed Examples.thresholds Examples.mixed_tree
    = Ok (Some (NIteration Examples.mixed_j, NList [] fissioned [])).
Proof.
  intros Hl.
  apply (fission_tree_transforms listed Examples.thresholds Examples.mixed_tree
           Examples.mixed_j Hl eq_refl mixed_tree_is_ranked
           mixed_tree_shares_dimension).
  - vm_compute. lia.
  - reflexivity.
  - vm_compute. lia.
  - vm_compute. discriminate.
Qed.

(** C5 as the specification words it fails on that nest. *)
Lemma fission_does_not_require_same_extent :
  ~ fission_requires_same_extent first_use_order Examples.thresholds
      Examples.mixed_tree.
Proof.
  intros H.
  destruct (fission_of_mixed_extents first_use_order first_use_order_lists)
    as (fissioned & Hf).
  destruct (H Examples.mixed_j _ eq_refl Hf) as [_ Hext].
  specialize (Hext Examples.pa Examples.a).
  assert (Heq : item_last (fn_shape Examples.pa) = item_last (fn_shape Examples.a)).
  { apply Hext; vm_compute; tauto. }
  vm_compute in Heq. discriminate.
Qed.

(** ** Padding: when the pass completes *)

Lemma In_insert_by_name (f x : Function) (l : list Function) :
  In x (insert_by_name f l) <-> x = f \/ In x l.
Proof.
  induction l as [|y l IH]; simpl; [intuition|].
  destruct (String.leb (fn_name f) (fn_name y)); simpl; [intuition|].
  rewrite IH. intuition.
Qed.

Lemma In_filter_ordered {A} (eqb : A -> A -> bool) (x : A) (l : list A) :
  In x (filter_ordered eqb l) -> In x l.
Proof.
  induction l as [|y l IH]; simpl; [tauto|].
  intros [H|H]; [now left|]. apply filter_In in H. right. now apply IH.
Qed.

Lemma In_filter_sorted (x : Function) (l : list Function) :
  In x (filter_sorted l) -> In x l.
Proof.
  unfold filter_sorted. intros H. apply (In_filter_ordered Function_eqb).
  induction (filter_ordered Function_eqb l) as [|y l' IH]; simpl in *; [tauto|].
  apply In_insert_by_name in H. destruct H as [->|H]; [now left | right; auto].
Qed.

Lemma max_by_len_In (shapes : list (list Z)) :
  shapes <> [] -> In (max_by_len shapes) shapes.
Proof.
  induction shapes as [|s t IH]; [congruence|]. intros _.
  destruct t as [|s' t']; [now left|].
  change (max_by_len (s :: s' :: t'))
    with (if (length (max_by_len (s' :: t')) <=? length s)%nat
          then s else max_by_len (s' :: t')).
  destruct (_ <=? _)%nat; [now left|]. right. apply IH. discriminate.
Qed.

Lemma item_last_last {A} (l : list A) (d : A) :
  l <> [] -> item_last l = Ok (last l d).
Proof.
  intros H. destruct (exists_last H) as (l' & x & ->).
  unfold item_last. rewrite rev_app_distr. simpl. now rewrite last_last.
Qed.

Lemma same_trailing_filter (lastv : Z) (handle : list Function) :
  (forall f, In f handle -> fn_shape f <> []) ->
  same_trailing lastv handle
  = Ok (filter (fun f => (last (fn_shape f) 0 =? lastv)%Z) handle).
Proof.
  induction handle as [|f t IH]; intros H; simpl; [reflexivity|].
  rewrite (item_last_last _ 0%Z) by (apply H; now left). cbn [bind].
  rewrite IH by (intros; apply H; now right). reflexivity.
Qed.

Lemma padded_buffers_ok (w : Z) (candidates : list Function) :
  w <> 0%Z ->
  (forall f, In f candidates -> fn_shape f <> []) ->
  exists entries, padded_buffers w candidates = Ok entries.
Proof.
  intros Hw. induction candidates as [|k t IH]; intros H; simpl;
    [now eexists|].
  unfold padded_buffer.
  rewrite (item_last_last _ 0%Z) by (apply H; now left). cbn [bind].
  unfold roundm. destruct (Z.eqb_spec w 0); [contradiction|]. cbn [bind].
  destruct IH as [rest ->]; [intros; apply H; now right|].
  cbn [bind]. now eexists.
Qed.

(** A padding candidate is written by some expression of its tree, so the
    first assertion of the pass cannot fail. *)
Lemma candidate_has_writer (node : Node) (f : Function) :
  In f (padding_candidates node) ->
  exists e, In e (candidate_writers node) /\ output_function e = Some f.
Proof.
  intros Hc. unfold candidate_writers.
  assert (Hw : In f (FindSymbols_symbolics_writes node)).
  { unfold padding_candidates in Hc. now apply filter_In in Hc. }
  unfold FindSymbols_symbolics_writes in Hw. apply In_filter_sorted in Hw.
  apply in_flat_map in Hw. destruct Hw as (e & He & Hf).
  exists e. destruct (output_function e) as [g|] eqn:Eg; simpl in Hf; [|tauto].
  destruct Hf as [->|[]]. split; [|reflexivity].
  apply filter_In. split; [exact He|].
  unfold writes_one_of. rewrite Eg. apply existsb_exists.
  exists f. split; [exact Hc | now apply Function_eqb_eq].
Qed.

Lemma uniform_dtype_forallb (e0 : Expression) (es : list Expression) :
  forallb (fun e => DType_eqb (dtype e) (dtype e0)) (e0 :: es) = true
  <-> uniform_dtype (e0 :: es).
Proof.
  rewrite forallb_forall. split.
  - intros H e1 e2 H1 H2.
    apply H in H1, H2. apply DType_eqb_eq in H1, H2. congruence.
  - intros H e He. apply DType_eqb_eq. apply H; [exact He | now left].
Qed.

Lemma uniform_dtype_dec (es : list Expression) :
  uniform_dtype es \/ ~ uniform_dtype es.
Proof.
  destruct es as [|e0 es]; [left; intros e1 e2 []|].
  pose proof (uniform_dtype_forallb e0 es) as Hu.
  destruct (forallb _ (e0 :: es)).
  - left. now apply Hu.
  - right. intros H. apply Hu in H. discriminate.
Qed.

(** The pass on one tree whose written arrays all have a rank, in terms of
    its candidates and their writers. *)
Lemma padding_node_eq (p : Platform) (node : Node) :
  arrays_have_rank node ->
  padding_node p node
  = match padding_candidates node with
    | [] => Ok []
    | _ =>
        match candidate_writers node with
        | [] => Raise AssertionError
        | e0 :: _ =>
            if negb (forallb (fun e => DType_eqb (dtype e) (dtype e0))
                             (candidate_writers node))
            then Raise AssertionError
            else padded_buffers (simd_width p (dtype e0)) (padding_candidates node)
        end
    end.
Proof.
  intros Hrank. unfold padding_node.
  destruct (FindSymbols_symbolics_writes node) as [|f0 W'] eqn:EW.
  - unfold padding_candidates. now rewrite EW.
  - cbv iota. rewrite <- EW.
    assert (Hs : max_by_len (map fn_shape (FindSymbols_symbolics_writes node)) <> []).
    { intros Hnil.
      assert (Hin : In (max_by_len (map fn_shape (FindSymbols_symbolics_writes node)))
                       (map fn_shape (FindSymbols_symbolics_writes node))).
      { apply max_by_len_In. rewrite EW. discriminate. }
      rewrite Hnil in Hin. apply in_map_iff in Hin.
      destruct Hin as (f & Hf & Hin). now apply (Hrank f). }
    destruct (max_by_len _) as [|s0 shape'] eqn:Es; [contradiction|].
    cbv iota. rewrite <- Es.
    rewrite (item_last_last _ 0%Z) by (rewrite Es; discriminate). cbn [bind].
    rewrite same_trailing_filter by exact Hrank. cbn [bind].
    reflexivity.
Qed.

Lemma padding_node_cases (p : Platform) (node : Node) :
  (forall dt, simd_width p dt <> 0%Z) ->
  arrays_have_rank node ->
  (uniform_dtype (candidate_writers node) ->
   exists entries, padding_node p node = Ok entries) /\
  (~ uniform_dtype (candidate_writers node) ->
   padding_node p node = Raise AssertionError).
Proof.
  intros Hw Hrank. rewrite padding_node_eq by exact Hrank.
  destruct (padding_candidates node) as [|c0 cs] eqn:Ec.
  - split; [intros _; now eexists|].
    intros H. exfalso. apply H. unfold candidate_writers. rewrite Ec.
    rewrite filter_none; [intros e1 e2 []|].
    intros e _. unfold writes_one_of. now destruct (output_function e).
  - destruct (candidate_has_writer node c0) as (e & He & _);
      [rewrite Ec; now left|].
    destruct (candidate_writers node) as [|e0 es] eqn:Ee; [destruct He|].
    pose proof (uniform_dtype_forallb e0 es) as Hu.
    destruct (forallb _ (e0 :: es)) eqn:Ef; cbn [negb].
    + split; [|intros H; exfalso; apply H; now apply Hu].
      intros _. apply padded_buffers_ok; [apply Hw|].
      intros f Hf. apply Hrank.
      rewrite <- Ec in Hf. unfold padding_candidates in Hf.
      now apply filter_In in Hf.
    + split; [|reflexivity].
      intros H. apply Hu in H. discriminate.
Qed.

Lemma padding_mapper_cases (p : Platform) (state_nodes : list Node)
  (mapper : Padding) :
  (forall dt, simd_width p dt <> 0%Z) ->
  (forall node, In node state_nodes -> arrays_have_rank node) ->
  ((forall node, In node state_nodes -> uniform_dtype (candidate_writers node)) ->
   exists m, padding_mapper p state_nodes mapper = Ok m) /\
  ((exists node, In node state_nodes /\ ~ uniform_dtype (candidate_writers node)) ->
   padding_mapper p state_nodes mapper = Raise AssertionError).
Proof.
  intros Hw. revert mapper.
  induction state_nodes as [|node rest IH]; intros mapper Hrank.
  - split; [intros _; simpl; now eexists | intros (n & [] & _)].
  - destruct (padding_node_cases p node Hw (Hrank node (or_introl eq_refl)))
      as [Hok Hfail].
    assert (Hrank' : forall n, In n rest -> arrays_have_rank n)
      by (intros; apply Hrank; now right).
    split.
    + intros Hu. destruct (Hok (Hu node (or_introl eq_refl))) as [entries He].
      cbn [padding_mapper]. rewrite He. cbn [bind].
      apply IH; [exact Hrank'|]. intros; apply Hu; now right.
    + intros (n & Hin & Hn). cbn [padding_mapper].
      destruct (padding_node p node) as [entries|e] eqn:En; cbn [bind].
      * apply IH; [exact Hrank'|].
        exists n. split; [|exact Hn]. destruct Hin as [Heq|Hin]; [|exact Hin].
        subst n. specialize (Hfail Hn). congruence.
      * assert (e = AssertionError); [|now subst].
        destruct (uniform_dtype_dec (candidate_writers node)) as [Hu|Hu].
        -- destruct (Hok Hu) as [x Hx]. congruence.
        -- specialize (Hfail Hu). congruence.
Qed.

(** C6, as the code has it: on a tree sequence whose written arrays all
    have a rank, for a platform whose vector widths are not zero, the
    padding pass completes when, in every tree, the expressions writing
    the padding candidates share one dtype - a tree without written
    arrays or candidates being skipped - and it stops with an assertion
    error, rather than skipping, as soon as one tree has candidate writers
    of differing dtypes. *)
Theorem padding_completes_iff_uniform_dtype :
  forall (p : Platform) (state_nodes : list Node),
    (forall dt, simd_width p dt <> 0%Z) ->
    (forall node, In node state_nodes -> arrays_have_rank node) ->
    ((forall node, In node state_nodes -> uniform_dtype (candidate_writers node)) ->
     exists processed, _padding p state_nodes = Ok processed) /\
    ((exists node, In node state_nodes /\ ~ uniform_dtype (candidate_writers node)) ->
     _padding p state_nodes = Raise AssertionError).
Proof.
  intros p state_nodes Hw Hrank. unfold _padding.
  destruct (padding_mapper_cases p state_nodes [] Hw Hrank) as [Hok Hfail].
  split.
  - intros Hu. destruct (Hok Hu) as [m ->]. cbn [bind]. now eexists.
  - intros Hex. now rewrite (Hfail Hex).
Qed.

Lemma padding_completes_iff_uniform_dtype_example :
  (forall dt, simd_width Examples.platform dt <> 0%Z) /\
  (forall node, In node [Examples.nest3] -> arrays_have_rank node) /\
  ((forall node, In node [Examples.nest3] ->
                 uniform_dtype (candidate_writers node)) ->
   exists processed, _padding Examples.platform [Examples.nest3] = Ok processed) /\
  ((exists node, In node [Examples.nest3] /\
                 ~ uniform_dtype (candidate_writers node)) ->
   _padding Examples.platform [Examples.nest3] = Raise AssertionError).
Proof.
  assert (Hw : forall dt, simd_width Examples.platform dt <> 0%Z).
  { intros dt. destruct dt; vm_compute; discriminate. }
  assert (Hr : forall node, In node [Examples.nest3] -> arrays_have_rank node).
  { intros node [<-|[]] f Hf. vm_compute in Hf.
    destruct Hf as [<-|[]]. discriminate. }
  split; [exact Hw|]. split; [exact Hr|].
  exact (padding_completes_iff_uniform_dtype Examples.platform [Examples.nest3]
           Hw Hr).
Defined.

(** The nest writing a [float32] and a [float64] array of the same shape
    stops the pass at its second assertion. *)
Lemma padding_of_two_dtypes :
  _padding Examples.platform [Examples.two_dtypes] = Raise AssertionError.
Proof. vm_compute. reflexivity. Qed.

(** C6 as the specification words it fails on that nest. *)
Lemma padding_does_not_always_complete :
  ~ padding_always_completes Examples.platform [Examples.two_dtypes].
Proof.
  intros [processed H]. rewrite padding_of_two_dtypes in H. discriminate.
Qed.

(** ** Combinations *)

Section Combinations.
Context {A : Type}.


Lemma In_combinations (r : nat) (l c : list A) :
  In c (combinations r l) <-> Subseq c l /\ length c = r.
Proof.
  revert r c. induction l as [|x t IH]; intros r c.
  - destruct r; simpl.
    + split.
      * intros [<-|[]]. split; [constructor | reflexivity].
      * intros [H Hl]. destruct c; [now left | discriminate].
    + split; [tauto|]. intros [H Hl]. inversion H; subst. discriminate.
  - destruct r.
    + simpl. split.
      * intros [<-|[]]. split; [|reflexivity].
        constructor. apply (IH 0 []). destruct t; simpl; now left.
      * intros [H Hl]. destruct c; [now left | discriminate].
    + cbn [combinations]. rewrite in_app_iff, in_map_iff. split.
      * intros [(c' & <- & Hc') | Hc].
        -- apply IH in Hc'. destruct Hc' as [Hs Hl].
           split; [now constructor | simpl; congruence].
        -- apply IH in Hc. destruct Hc as [Hs Hl].
           split; [now constructor | exact Hl].
      * intros [H Hl]. inversion H as [|y c' l' Hs|y c' l' Hs]; subst.
        -- left. exists c'. split; [reflexivity|].
           apply IH. split; [exact Hs | simpl in Hl; congruence].
        -- right. apply IH. now split.
Qed.

Lemma Subseq_In (c l : list A) (y : A) : Subseq c l -> In y c -> In y l.
Proof.
  induction 1 as [|x c l H IH|x c l H IH]; simpl; intuition.
Qed.

Lemma Subseq_length (c l : list A) : Subseq c l -> length c <= length l.
Proof. induction 1; simpl; lia. Qed.

Lemma NoDup_combinations (r : nat) (l : list A) :
  NoDup l -> NoDup (combinations r l).
Proof.
  revert r. induction l as [|x t IH]; intros r Hnd.
  - destruct r; simpl; repeat constructor. tauto.
  - inversion Hnd as [|? ? Hx Hnd']; subst.
    destruct r; [simpl; repeat constructor; tauto|].
    cbn [combinations].
    assert (Hmap : NoDup (map (cons x) (combinations r t))).
    { specialize (IH r Hnd'). revert IH.
      generalize (combinations r t) as cs.
      induction cs as [|c cs IHc]; simpl; intros Hcs; [constructor|].
      inversion Hcs as [|? ? Hc Hcs']; subst. constructor; [|now apply IHc].
      rewrite in_map_iff. intros (c' & Heq & Hin).
      inversion Heq; subst. contradiction. }
    assert (Hdis : forall c, In c (map (cons x) (combinations r t)) ->
                             In c (combinations (S r) t) -> False).
    { intros c H1 H2. apply in_map_iff in H1. destruct H1 as (c' & <- & _).
      apply In_combinations in H2. destruct H2 as [Hs _].
      apply Hx. apply (Subseq_In _ _ x Hs). now left. }
    revert Hmap Hdis. generalize (map (cons x) (combinations r t)) as l1.
    induction l1 as [|c l1 IH1]; simpl; intros Hmap Hdis; [now apply IH|].
    inversion Hmap as [|? ? Hc Hmap']; subst. constructor.
    + rewrite in_app_iff. intros [H|H]; [contradiction|].
      apply (Hdis c); [now left | exact H].
    + apply IH1; [assumption|].
      intros c' Hc1 Hc2. apply (Hdis c'); [now right | exact Hc2].
Qed.




End Combinations.

Lemma NoDup_flat_map {B C} (f : B -> list C) (l : list B) :
  NoDup l ->
  (forall x, In x l -> NoDup (f x)) ->
  (forall x y c, In x l -> In y l -> In c (f x) -> In c (f y) -> x = y) ->
  NoDup (flat_map f l).
Proof.
  induction l as [|x l IH]; simpl; intros Hnd Hf Hdis; [constructor|].
  inversion Hnd as [|? ? Hx Hnd']; subst.
  assert (Hrest : NoDup (flat_map f l)).
  { apply IH; [exact Hnd' | intros; apply Hf; now right |].
    intros a b c Ha Hb. apply Hdis; now right. }
  assert (Hfx : NoDup (f x)) by (apply Hf; now left).
  assert (Hsep : forall c, In c (f x) -> ~ In c (flat_map f l)).
  { intros c Hc Hin. apply in_flat_map in Hin. destruct Hin as (y & Hy & Hcy).
    assert (x = y) by (apply (Hdis x y c); auto). subst y. contradiction. }
  revert Hfx Hsep. generalize (f x) as l1.
  induction l1 as [|c l1 IH1]; simpl; intros Hfx Hsep; [exact Hrest|].
  inversion Hfx as [|? ? Hc Hfx']; subst. constructor.
  - rewrite in_app_iff. intros [H|H]; [contradiction|].
    apply (Hsep c); [now left | exact H].
  - apply IH1; [exact Hfx'|]. intros c' Hc'. apply Hsep. now right.
Qed.


(** They are the non-empty selections of the blocked dimensions. *)
Lemma In_remainder_combinations (iterations : list Iteration) (c : list Dimension) :
  In c (remainder_combinations iterations)
  <-> c <> [] /\ Subseq c (map dim iterations).
Proof.
  unfold remainder_combinations. rewrite in_flat_map. split.
  - intros (n & Hn & Hc). apply In_combinations in Hc. destruct Hc as [Hs Hl].
    split; [|exact Hs]. intros ->. simpl in Hl. lia.
  - intros [Hne Hs]. exists (length c - 1).
    pose proof (Subseq_length _ _ Hs) as Hlen. rewrite length_map in Hlen.
    assert (0 < length c) by (destruct c; [contradiction | simpl; lia]).
    split; [apply in_seq; lia|].
    apply In_combinations. split; [exact Hs | lia].
Qed.

(** When the blocked dimensions are distinct, each is visited once. *)
Lemma NoDup_remainder_combinations (iterations : list Iteration) :
  NoDup (map dim iterations) -> NoDup (remainder_combinations iterations).
Proof.
  intros Hnd. unfold remainder_combinations. apply NoDup_flat_map.
  - apply seq_NoDup.
  - intros n _. now apply NoDup_combinations.
  - intros n m c _ _ Hn Hm.
    apply In_combinations in Hn, Hm. lia.
Qed.

(** ** Loop blocking: the trees built *)

Lemma build_loops_acc (TAG : IterationProperty) (iterations : list Iteration)
  (blocked : Blocked) (l : Loops) :
  fold_left
    (fun (acc : Blocked * Loops) (i : Iteration) =>
       let (blocked, l) := acc in
       let (blocked, d) := setdefault Iteration_eqb blocked i (block_dimension i) in
       (blocked,
        mkLoops (inter_blocks l ++ [inter_block_of i d])
                (intra_blocks l ++ [intra_block_of TAG i d])
                (remainders l ++ [remainder_of i d])))
    iterations (blocked, l)
  = let ids := combine iterations (snd (memoized_dims blocked iterations)) in
    (fst (memoized_dims blocked iterations),
     mkLoops
       (inter_blocks l ++ map (fun id => inter_block_of (fst id) (snd id)) ids)
       (intra_blocks l ++ map (fun id => intra_block_of TAG (fst id) (snd id)) ids)
       (remainders l ++ map (fun id => remainder_of (fst id) (snd id)) ids)).
Proof.
  revert blocked l. induction iterations as [|i t IH]; intros blocked l.
  - simpl. rewrite !app_nil_r. now destruct l.
  - cbn [fold_left memoized_dims].
    destruct (setdefault Iteration_eqb blocked i (block_dimension i)) as [b d].
    rewrite IH. destruct (memoized_dims b t) as [b' ds].
    cbn [fst snd combine map inter_blocks intra_blocks remainders].
    now rewrite <- !app_assoc.
Qed.

Lemma build_loops_eq (TAG : IterationProperty) (blocked : Blocked)
  (iterations : list Iteration) :
  build_loops TAG blocked iterations
  = let ids := combine iterations (snd (memoized_dims blocked iterations)) in
    (fst (memoized_dims blocked iterations),
     mkLoops (map (fun id => inter_block_of (fst id) (snd id)) ids)
             (map (fun id => intra_block_of TAG (fst id) (snd id)) ids)
             (map (fun id => remainder_of (fst id) (snd id)) ids)).
Proof. unfold build_loops. now rewrite build_loops_acc. Qed.

Lemma memoized_dims_length (blocked : Blocked) (iterations : list Iteration) :
  length (snd (memoized_dims blocked iterations)) = length iterations.
Proof.
  revert blocked. induction iterations as [|i t IH]; intros blocked;
    [reflexivity|].
  cbn [memoized_dims].
  destruct (setdefault Iteration_eqb blocked i (block_dimension i)) as [b d].
  specialize (IH b). destruct (memoized_dims b t) as [b' ds].
  simpl in *. now rewrite IH.
Qed.

Lemma combine_map_map {B C D} (f : B -> C) (g : B -> D) (l : list B) :
  combine (map f l) (map g l) = map (fun x => (f x, g x)) l.
Proof. induction l as [|x l IH]; simpl; [reflexivity | now rewrite IH]. Qed.

(** The remainder tree the pass builds is the one the specification
    describes. *)
Lemma remainder_tree_of_spec (TAG : IterationProperty)
  (ids : list (Iteration * Dimension)) (body : list Node) (c : list Dimension) :
  remainder_tree_of TAG
    (mkLoops (map (fun id => inter_block_of (fst id) (snd id)) ids)
             (map (fun id => intra_block_of TAG (fst id) (snd id)) ids)
             (map (fun id => remainder_of (fst id) (snd id)) ids))
    body c
  = spec_remainder_tree TAG ids body c.
Proof.
  unfold remainder_tree_of, spec_remainder_tree.
  cbn [inter_blocks intra_blocks remainders].
  rewrite !combine_map_map. f_equal. f_equal.
  - induction ids as [|[i d] ids IH]; [reflexivity|].
    cbn [map filter flat_map fst snd].
    change (dim (remainder_of i d)) with (dim i).
    destruct (dim_in (dim i) c); cbn [negb]; [exact IH|].
    cbn [map app]. now rewrite IH.
  - rewrite map_map. apply map_ext. intros [i d]. reflexivity.
Qed.

Lemma remainder_loop_unit_step (i : Iteration) (d : Dimension) :
  limits2 (remainder_of i d) = Const 1%Z /\ dim (remainder_of i d) = dim i.
Proof. split; reflexivity. Qed.

Lemma remainder_tree_loops_marked (TAG : IterationProperty) (h : Iteration) :
  is_Remainder (with_properties h [REMAINDER; TAG; ELEMENTAL]) = true /\
  is_Remainder (with_properties h [PARALLEL; REMAINDER]) = true.
Proof. split; reflexivity. Qed.

(** What the pass records for a nest it blocks. *)
Lemma block_tree_built (exclude_innermost : bool) (blocked : Blocked)
  (mapper : Mapper) (tree : list Iteration) (root : Iteration)
  (rest : list Iteration) :
  blockable exclude_innermost tree = root :: rest ->
  IsPerfectIteration root = true ->
  let iterations := root :: rest in
  let TAG := tagger (length mapper) in
  let ids := combine iterations (snd (memoized_dims blocked iterations)) in
  let body := innermost_body iterations in
  block_tree exclude_innermost (blocked, mapper) tree
  = (fst (memoized_dims blocked iterations),
     setitem Node_eqb mapper (NIteration root)
       (Some (NList []
                (spec_blocked_tree TAG ids body
                 :: map (spec_remainder_tree TAG ids body)
                        (remainder_combinations iterations))
                []))).
Proof.
  intros Hsel Hperf iterations TAG ids body.
  unfold block_tree. rewrite Hsel, Hperf. cbn [negb].
  fold iterations. fold TAG. rewrite build_loops_eq. cbv zeta.
  fold ids. fold body. unfold remainder_trees_of. fold body.
  rewrite (map_ext _ _ (remainder_tree_of_spec TAG ids body)).
  reflexivity.
Qed.

(** In the scenario of the 3-deep nest the combinations are [{i}], [{j}]
    and [{i, j}], in this order. *)
Lemma remainder_combinations_of_nest3 :
  remainder_combinations [Examples.loop_i; Examples.loop_j]
  = [[Examples.i]; [Examples.j]; [Examples.i; Examples.j]].
Proof. reflexivity. Qed.

(** ** Loop blocking: what is left untouched *)

(** Induction over a tree, with the property available for every child. *)
Lemma Node_induction (P : Node -> Prop) :
  (forall i, Forall P (nodes i) -> P (NIteration i)) ->
  (forall e, P (NExpression e)) ->
  (forall h b f, Forall P b -> P (NList h b f)) ->
  (forall h b f, Forall P b -> P (NBlock h b f)) ->
  P NDenormals ->
  forall n, P n.
Proof.
  intros Hiter Hexpr Hlist Hblock Hden.
  fix IH 1. intros n.
  assert (Hall : forall l : list Node, Forall P l).
  { clear n. fix IHl 1. intros [|x l]; constructor; [apply IH | apply IHl]. }
  destruct n as [i|e|h b f|h b f|].
  - apply Hiter. apply Hall.
  - apply Hexpr.
  - apply Hlist. apply Hall.
  - apply Hblock. apply Hall.
  - apply Hden.
Qed.

Lemma item_last_app {A} (l1 l2 : list A) :
  l2 <> [] -> item_last (l1 ++ l2) = item_last l2.
Proof.
  intros H. destruct (exists_last H) as (l & x & ->).
  unfold item_last. rewrite app_assoc, !rev_app_distr. reflexivity.
Qed.

Lemma item_last_In {A} (l : list A) (x : A) : item_last l = Ok x -> In x l.
Proof.
  unfold item_last. destruct (rev l) as [|y r] eqn:E; [discriminate|].
  intros H. inversion H; subst y. apply in_rev. rewrite E. now left.
Qed.

(** Below a loop of a nest, the rest of the nest is a nest of its body. *)
Lemma nest_suffix (n : Node) :
  forall (pre : list Iteration) (i : Iteration) (suf : list Iteration),
    In (pre ++ i :: suf) (retrieve_iteration_tree n) ->
    suf <> [] ->
    In suf (flat_map retrieve_iteration_tree (nodes i)).
Proof.
  induction n as [j IH|e|h b f IH|h b f IH|] using Node_induction;
    intros pre i suf Hin Hsuf; cbn [retrieve_iteration_tree] in Hin.
  - rewrite Forall_forall in IH.
    destruct (flat_map retrieve_iteration_tree (nodes j)) as [|s ss] eqn:Esub.
    + destruct Hin as [Heq|[]].
      destruct pre as [|x pre]; simpl in Heq; inversion Heq as [[Hj Hs]].
      * now subst suf.
      * destruct pre; discriminate.
    + apply in_map_iff in Hin. destruct Hin as (p' & Heq & Hp').
      destruct pre as [|x pre]; simpl in Heq; inversion Heq; subst.
      * now rewrite Esub.
      * rewrite <- Esub in Hp'. apply in_flat_map in Hp'.
        destruct Hp' as (child & Hchild & Hp').
        exact (IH child Hchild pre i suf Hp' Hsuf).
  - destruct Hin.
  - rewrite Forall_forall in IH. apply in_flat_map in Hin.
    destruct Hin as (child & Hchild & Hp).
    exact (IH child Hchild pre i suf Hp Hsuf).
  - rewrite Forall_forall in IH. apply in_flat_map in Hin.
    destruct Hin as (child & Hchild & Hp).
    exact (IH child Hchild pre i suf Hp Hsuf).
  - destruct Hin.
Qed.

(** Nesting loops around a body extends each nest of the body upwards. *)
Lemma nest_extends (loops : list Iteration) (body : list Node) (p : list Iteration) :
  In p (flat_map retrieve_iteration_tree body) ->
  exists pre, In (pre ++ p) (flat_map retrieve_iteration_tree (nest loops body)).
Proof.
  intros Hp. induction loops as [|h t (pre & IH)].
  - exists []. exact Hp.
  - cbn [nest flat_map retrieve_iteration_tree with_nodes nodes].
    rewrite app_nil_r.
    destruct (flat_map retrieve_iteration_tree (nest t body)) as [|s ss] eqn:E;
      [destruct IH|].
    exists (with_nodes h (nest t body) :: pre).
    apply in_map_iff. exists (pre ++ p). split; [reflexivity | exact IH].
Qed.

Lemma compose_nodes_extends (loops : list Iteration) (body : list Node)
  (p : list Iteration) :
  In p (flat_map retrieve_iteration_tree body) ->
  exists pre, In (pre ++ p) (retrieve_iteration_tree (compose_nodes loops body)).
Proof.
  intros Hp. destruct loops as [|h t].
  - exists []. exact Hp.
  - destruct (nest_extends (h :: t) body p Hp) as (pre & H).
    exists pre. cbn [nest flat_map] in H. now rewrite app_nil_r in H.
Qed.

(** Every tree built for a blocked nest whose innermost loop is
    vectorizable has a nest ending in that very loop. *)
Lemma blocked_trees_keep_innermost :
  forall (blocked : Blocked) (mapper : Mapper) (node : Node)
         (tree : list Iteration) (inner root : Iteration) (rest : list Iteration),
    In tree (retrieve_iteration_tree node) ->
    item_last tree = Ok inner ->
    is_Vectorizable inner = true ->
    blockable true tree = root :: rest ->
    IsPerfectIteration root = true ->
    exists blocked' trees,
      block_tree true (blocked, mapper) tree
      = (blocked',
         setitem Node_eqb mapper (NIteration root) (Some (NList [] trees []))) /\
      forall T, In T trees ->
                exists path kept,
                  In path (retrieve_iteration_tree T) /\
                  item_last path = Ok kept /\
                  kept = inner /\ limits kept = limits inner.
Proof.
  intros blocked mapper node tree inner root rest Htree Hlast Hvec Hsel Hperf.
  unfold block_tree. rewrite Hsel, Hperf. cbn [negb].
  set (iterations := root :: rest) in *.
  destruct (build_loops (tagger (length mapper)) blocked iterations) as [b l].
  eexists. eexists. split; [reflexivity|].
  (* the last selected loop and the part of the nest below it *)
  destruct (item_last_nonempty iterations) as [ls Hls]; [discriminate|].
  assert (Hbody : innermost_body iterations = nodes ls).
  { unfold innermost_body. unfold item_last in Hls.
    destruct (rev iterations); [discriminate | now inversion Hls]. }
  assert (Hin : In ls (blockable true tree))
    by (rewrite Hsel; now apply item_last_In).
  unfold blockable in Hin. apply filter_In in Hin. destruct Hin as [Hin Hnv].
  apply filter_In in Hin. destruct Hin as [Hin _].
  destruct (in_split _ _ Hin) as (pre & suf & Hsplit).
  assert (Hsuf : suf <> []).
  { intros ->. rewrite Hsplit in Hlast. unfold item_last in Hlast.
    rewrite rev_app_distr in Hlast. simpl in Hlast. inversion Hlast; subst ls.
    rewrite Hvec in Hnv. discriminate. }
  assert (Hinner : item_last suf = Ok inner).
  { rewrite Hsplit in Hlast.
    change (pre ++ ls :: suf) with (pre ++ [ls] ++ suf) in Hlast.
    now rewrite app_assoc, item_last_app in Hlast. }
  assert (Hpath : In suf (flat_map retrieve_iteration_tree
                                   (innermost_body iterations))).
  { rewrite Hbody. apply (nest_suffix node pre ls suf); [|exact Hsuf].
    now rewrite <- Hsplit. }
  assert (Hkeep : forall loops,
             exists path kept,
               In path (retrieve_iteration_tree
                          (compose_nodes loops (innermost_body iterations))) /\
               item_last path = Ok kept /\ kept = inner /\
               limits kept = limits inner).
  { intros loops.
    destruct (compose_nodes_extends loops _ suf Hpath) as (pre' & Hp).
    exists (pre' ++ suf), inner. split; [exact Hp|].
    split; [now rewrite item_last_app | split; reflexivity]. }
  intros T [<-|HT].
  - apply Hkeep.
  - unfold remainder_trees_of in HT. apply in_map_iff in HT.
    destruct HT as (c & <- & _). apply Hkeep.
Qed.

(** C4: with the innermost loop excluded from blocking, for a nest whose
    innermost loop is vectorizable, either the pass leaves the nest alone,
    or every tree it puts in place of the root - the main blocked tree
    and each remainder tree - has a nest ending in that very loop: its
    limits, hence its start, stop and step, are those of the input. *)
Theorem blocking_keeps_innermost_loop :
  forall (blocked : Blocked) (mapper : Mapper) (node : Node)
         (tree : list Iteration) (inner : Iteration),
    In tree (retrieve_iteration_tree node) ->
    item_last tree = Ok inner ->
    is_Vectorizable inner = true ->
    block_tree true (blocked, mapper) tree = (blocked, mapper) \/
    exists blocked' root trees,
      In root tree /\
      block_tree true (blocked, mapper) tree
      = (blocked',
         setitem Node_eqb mapper (NIteration root) (Some (NList [] trees []))) /\
      forall T, In T trees ->
                exists path kept,
                  In path (retrieve_iteration_tree T) /\
                  item_last path = Ok kept /\
                  kept = inner /\ limits kept = limits inner.
Proof.
  intros blocked mapper node tree inner Htree Hlast Hvec.
  destruct (blockable true tree) as [|root rest] eqn:Hsel.
  - left. unfold block_tree. now rewrite Hsel.
  - destruct (IsPerfectIteration root) eqn:Hperf.
    + right.
      destruct (blocked_trees_keep_innermost blocked mapper node tree inner
                  root rest Htree Hlast Hvec Hsel Hperf)
        as (blocked' & trees & Heq & Hkeep).
      exists blocked', root, trees. split; [|split; assumption].
      assert (Hin : In root (blockable true tree)) by (rewrite Hsel; now left).
      unfold blockable in Hin. apply filter_In in Hin. destruct Hin as [Hin _].
      apply filter_In in Hin. tauto.
    + left. unfold block_tree. now rewrite Hsel, Hperf.
Qed.

Lemma blocking_keeps_innermost_loop_example :
  In Examples.tree3 (retrieve_iteration_tree Examples.nest3) /\
  item_last Examples.tree3 = Ok Examples.loop_k /\
  is_Vectorizable Examples.loop_k = true /\
  (block_tree true ([], []) Examples.tree3 = ([], []) \/
   exists blocked' root trees,
     In root Examples.tree3 /\
     block_tree true ([], []) Examples.tree3
     = (blocked',
        setitem Node_eqb [] (NIteration root) (Some (NList [] trees []))) /\
     forall T, In T trees ->
               exists path kept,
                 In path (retrieve_iteration_tree T) /\
                 item_last path = Ok kept /\
                 kept = Examples.loop_k /\
                 limits kept = limits Examples.loop_k).
Proof.
  assert (Htree : In Examples.tree3 (retrieve_iteration_tree Examples.nest3))
    by (left; reflexivity).
  split; [exact Htree|]. repeat (split; [reflexivity|]).
  exact (blocking_keeps_innermost_loop [] [] Examples.nest3 Examples.tree3
           Examples.loop_k Htree eq_refl eq_refl).
Defined.

(** ** Loop blocking: coverage of the iteration domain *)

(** C1 fails on a loop with a one-sided stencil.  The loop over [x] of
    size 13 with offsets [0] and [2] runs over [0 .. 10]; blocked by 4,
    the main tree runs over [0 .. 11] and the remainder tree over [10]:
    the point 10 is executed twice and the point 11, outside the domain,
    is executed as well. *)
Theorem blocking_forward_stencil_overlaps :
  exists main remainder,
    Examples.forward_blocked = [main; remainder] /\
    executed ["x"%string] Examples.block4 (NIteration Examples.forward_x)
    = map (fun v => [v]) [0; 1; 2; 3; 4; 5; 6; 7; 8; 9; 10]%Z /\
    executed ["x"%string] Examples.block4 main
    = map (fun v => [v]) [0; 1; 2; 3; 4; 5; 6; 7; 8; 9; 10; 11]%Z /\
    executed ["x"%string] Examples.block4 remainder = [[10%Z]].
Proof.
  eexists. eexists. split; [reflexivity|].
  split; [|split]; vm_compute; reflexivity.
Qed.

(** ** Loop blocking: the pass as a whole *)

Lemma build_loops_NoDup (TAG : IterationProperty) (iterations : list Iteration)
  (blocked : Blocked) :
  NoDup (keys blocked) -> NoDup (keys (fst (build_loops TAG blocked iterations))).
Proof.
  rewrite build_loops_eq. cbv zeta. cbn [fst].
  revert blocked. induction iterations as [|i t IH]; intros blocked Hnd;
    [exact Hnd|].
  cbn [memoized_dims]. unfold setdefault.
  destruct (get Iteration_eqb blocked i) as [d|].
  - specialize (IH blocked Hnd). destruct (memoized_dims blocked t). exact IH.
  - specialize (IH (setitem Iteration_eqb blocked i (block_dimension i))
                   (setitem_NoDup Iteration_eqb Iteration_eqb_eq _ _ _ Hnd)).
    destruct (memoized_dims _ t). exact IH.
Qed.

Lemma block_tree_NoDup (exclude_innermost : bool) (st : Blocked * Mapper)
  (tree : list Iteration) :
  NoDup (keys (fst st)) ->
  NoDup (keys (fst (block_tree exclude_innermost st tree))).
Proof.
  destruct st as [blocked mapper]. unfold block_tree. intros Hnd.
  destruct (blockable exclude_innermost tree) as [|root rest]; [exact Hnd|].
  destruct (IsPerfectIteration root); cbn [negb]; [|exact Hnd].
  pose proof (build_loops_NoDup (tagger (length mapper)) (root :: rest) blocked Hnd)
    as H.
  destruct (build_loops _ blocked (root :: rest)). exact H.
Qed.

Section PassFacts.
Variable fold_blockable_tree : Node -> bool -> Node.
Variable unfold_blocked_tree : Node -> Node.

(** [blocked] is a dictionary: no loop is recorded twice. *)
Lemma blocking_state_NoDup (exclude_innermost : bool) (state_nodes : list Node) :
  NoDup (keys (fst (blocking_state fold_blockable_tree unfold_blocked_tree
                                   exclude_innermost state_nodes))).
Proof.
  unfold blocking_state.
  assert (H0 : NoDup (keys (fst (@nil (Iteration * Dimension), @nil Node))))
    by constructor.
  revert H0. generalize (@nil (Iteration * Dimension), @nil Node).
  induction state_nodes as [|node rest IH]; intros st Hst; [exact Hst|].
  cbn [fold_left]. apply IH. destruct st as [blocked processed].
  unfold block_node.
  assert (Htrees : forall trees (s : Blocked * Mapper),
             NoDup (keys (fst s)) ->
             NoDup (keys (fst (fold_left (block_tree exclude_innermost) trees s)))).
  { induction trees as [|tree trees IHt]; intros s Hs; [exact Hs|].
    cbn [fold_left]. apply IHt. now apply block_tree_NoDup. }
  match goal with
  | |- context [fold_left (block_tree ?e) ?l ?s] =>
      pose proof (Htrees l s Hst) as H;
      destruct (fold_left (block_tree e) l s) as [blocked' mapper]
  end.
  exact H.
Qed.
End PassFacts.

(** What the pass returns for the 3-deep nest of the scenario: a [List]
    of four trees in place of the nest, and arguments for [i] and [j]. *)
Lemma loop_blocking_of_nest3 :
  exists main r1 r2 r3 upd,
    _loop_blocking Examples.nothing_to_fold Examples.nothing_to_unfold
                   false bs_None [Examples.nest3] = Ok upd /\
    upd_nodes upd = [NList [] [main; r1; r2; r3] []] /\
    map iteration (upd_arguments upd) = [Examples.loop_i; Examples.loop_j].
Proof. vm_compute. do 5 eexists. repeat split. Qed.

(** C7, as the code has it: when a supplied block shape has a length that
    differs from the number of blocked loops (at least one), the pass
    completes, emits exactly one diagnostic, keeps the supplied entries in
    order up to the number of blocked loops (extra entries are dropped),
    and records [None] - not the heuristic - for every blocked loop left
    without an entry. *)
Theorem blockshape_mismatch_recovers :
  forall (fold_blockable_tree : Node -> bool -> Node)
         (unfold_blocked_tree : Node -> Node)
         (blockinner : bool) (blockshape : BlockShape) (state_nodes : list Node)
         (nitems : nat),
    let st := blocking_state fold_blockable_tree unfold_blocked_tree
                             (negb blockinner) state_nodes in
    fst st <> [] ->
    is_falsy blockshape = Ok false ->
    len blockshape = Ok nitems ->
    nitems <> length (fst st) ->
    exists upd warning,
      _loop_blocking fold_blockable_tree unfold_blocked_tree
                     blockinner blockshape state_nodes = Ok upd /\
      upd_nodes upd = snd st /\
      upd_flags upd = ["blocking"%string] /\
      upd_warnings upd = [warning] /\
      map (fun a => (iteration a, blocked_dim a)) (upd_arguments upd) = fst st /\
      map value (upd_arguments upd)
      = firstn (length (fst st)) (iter_items blockshape)
        ++ repeat bv_None (length (fst st) - nitems).
Proof.
  intros fold unfold blockinner blockshape state_nodes nitems st Hne Hf Hlen Hmis.
  pose proof (blocking_state_NoDup fold unfold (negb blockinner) state_nodes) as Hnd.
  unfold _loop_blocking. fold st in Hnd |- *.
  destruct st as [blocked processed]. cbn [fst snd] in *.
  destruct (blocking_update_mismatch blocked blockshape processed nitems
              Hnd Hne Hf Hlen Hmis) as (upd & warning & Hupd & Hn & Hw & Ha & Hv).
  exists upd, warning. repeat split; try assumption.
  rewrite (blocking_update_sized _ _ _ nitems) in Hupd by assumption.
  inversion Hupd. reflexivity.
Qed.

Lemma blockshape_mismatch_recovers_example :
  let st := blocking_state Examples.nothing_to_fold Examples.nothing_to_unfold
                           (negb false) [Examples.nest3] in
  fst st <> [] /\
  is_falsy (bs_sequence [4%Z]) = Ok false /\
  len (bs_sequence [4%Z]) = Ok 1 /\
  1 <> length (fst st) /\
  exists upd warning,
    _loop_blocking Examples.nothing_to_fold Examples.nothing_to_unfold
                   false (bs_sequence [4%Z]) [Examples.nest3] = Ok upd /\
    upd_nodes upd = snd st /\
    upd_flags upd = ["blocking"%string] /\
    upd_warnings upd = [warning] /\
    map (fun a => (iteration a, blocked_dim a)) (upd_arguments upd) = fst st /\
    map value (upd_arguments upd)
    = firstn (length (fst st)) (iter_items (bs_sequence [4%Z]))
      ++ repeat bv_None (length (fst st) - 1).
Proof.
  intros st.
  assert (H1 : fst st <> []) by (vm_compute; discriminate).
  assert (H2 : 1 <> length (fst st)) by (vm_compute; discriminate).
  split; [exact H1|]. split; [reflexivity|]. split; [reflexivity|].
  split; [exact H2|].
  exact (blockshape_mismatch_recovers Examples.nothing_to_fold
           Examples.nothing_to_unfold false (bs_sequence [4%Z])
           [Examples.nest3] 1 H1 eq_refl eq_refl H2).
Defined.

(** What the pass returns for the 3-deep nest and the one-entry shape
    [[4]]: the second blocked loop gets [None]. *)
Lemma loop_blocking_one_entry_shape :
  exists upd,
    _loop_blocking Examples.nothing_to_fold Examples.nothing_to_unfold
                   false (bs_sequence [4%Z]) [Examples.nest3] = Ok upd /\
    map value (upd_arguments upd) = [bv_int 4; bv_None] /\
    upd_warnings upd = [fewer_entries].
Proof. vm_compute. eexists. repeat split. Qed.

(** C7 as the specification words it fails there. *)
Lemma missing_entries_do_not_get_heuristic :
  ~ missing_entries_get_heuristic Examples.nothing_to_fold
      Examples.nothing_to_unfold false (bs_sequence [4%Z]) [Examples.nest3].
Proof.
  intros H. specialize (H 1 eq_refl eq_refl).
  destruct H as (upd & Hupd & _ & Hval); [vm_compute; discriminate|].
  destruct loop_blocking_one_entry_shape as (upd' & Hupd' & Hval' & _).
  assert (upd = upd') by congruence. subst upd'.
  rewrite Hval' in Hval. vm_compute in Hval. discriminate.
Qed.

(** C10, as the code has it: a supplied block shape that tests true and
    has no length - a non-zero number - becomes the block size of the
    first blocked loop only; every other blocked loop gets [None] in its
    argument, and no diagnostic is emitted. *)
Theorem scalar_blockshape_sets_first_only :
  forall (fold_blockable_tree : Node -> bool -> Node)
         (unfold_blocked_tree : Node -> Node)
         (blockinner : bool) (blockshape : BlockShape) (state_nodes : list Node)
         (k0 : Iteration) (d0 : Dimension) (rest : Blocked),
    let st := blocking_state fold_blockable_tree unfold_blocked_tree
                             (negb blockinner) state_nodes in
    fst st = (k0, d0) :: rest ->
    is_falsy blockshape = Ok false ->
    len blockshape = Raise TypeError ->
    exists z,
      blockshape = bs_scalar z /\
      _loop_blocking fold_blockable_tree unfold_blocked_tree
                     blockinner blockshape state_nodes
      = Ok (mkUpdate (snd st)
              (mkBlockingArg d0 k0 (bv_int z)
               :: map (fun kd => mkBlockingArg (snd kd) (fst kd) bv_None) rest)
              ["blocking"%string] []).
Proof.
  intros fold unfold blockinner blockshape state_nodes k0 d0 rest st Hb Hf Hlen.
  pose proof (blocking_state_NoDup fold unfold (negb blockinner) state_nodes) as Hnd.
  unfold _loop_blocking. fold st in Hnd |- *.
  destruct st as [blocked processed]. cbn [fst snd] in *.
  exact (blocking_update_scalar blocked blockshape processed k0 d0 rest
           Hnd Hb Hf Hlen).
Qed.

Lemma scalar_blockshape_sets_first_only_example :
  let st := blocking_state Examples.nothing_to_fold Examples.nothing_to_unfold
                           (negb false) [Examples.nest3] in
  fst st = [(Examples.loop_i, block_dimension Examples.loop_i);
            (Examples.loop_j, block_dimension Examples.loop_j)] /\
  exists z,
    bs_scalar 16 = bs_scalar z /\
    _loop_blocking Examples.nothing_to_fold Examples.nothing_to_unfold
                   false (bs_scalar 16) [Examples.nest3]
    = Ok (mkUpdate (snd st)
            (mkBlockingArg (block_dimension Examples.loop_i) Examples.loop_i (bv_int z)
             :: map (fun kd => mkBlockingArg (snd kd) (fst kd) bv_None)
                    [(Examples.loop_j, block_dimension Examples.loop_j)])
            ["blocking"%string] []).
Proof.
  intros st.
  assert (H1 : fst st = [(Examples.loop_i, block_dimension Examples.loop_i);
                         (Examples.loop_j, block_dimension Examples.loop_j)])
    by reflexivity.
  split; [exact H1|].
  exact (scalar_blockshape_sets_first_only Examples.nothing_to_fold
           Examples.nothing_to_unfold false (bs_scalar 16) [Examples.nest3]
           Examples.loop_i (block_dimension Examples.loop_i)
           [(Examples.loop_j, block_dimension Examples.loop_j)]
           H1 eq_refl eq_refl).
Defined.

(** What the pass returns for the 3-deep nest and the number 0 as block
    shape: 0 tests false, so it counts as no block shape at all, and both
    blocked loops get the heuristic. *)
Lemma loop_blocking_zero_scalar :
  exists upd,
    _loop_blocking Examples.nothing_to_fold Examples.nothing_to_unfold
                   false (bs_scalar 0) [Examples.nest3] = Ok upd /\
    map value (upd_arguments upd) = [bv_heuristic; bv_heuristic] /\
    upd_warnings upd = [].
Proof. vm_compute. eexists. repeat split. Qed.

(** C10 without the truth test fails there. *)
Lemma zero_scalar_does_not_set_first :
  ~ lengthless_shape_sets_first_only Examples.nothing_to_fold
      Examples.nothing_to_unfold false (bs_scalar 0) [Examples.nest3].
Proof.
  intros H.
  destruct (H Examples.loop_i (block_dimension Examples.loop_i)
              [(Examples.loop_j, block_dimension Examples.loop_j)])
    as (z & _ & Hupd); [reflexivity | discriminate | reflexivity |].
  destruct loop_blocking_zero_scalar as (upd & Hupd' & Hval & _).
  rewrite Hupd in Hupd'. inversion Hupd' as [Heq]. rewrite <- Heq in Hval.
  vm_compute in Hval. discriminate.
Qed.

(** Two nests that agree in every attribute but are two objects: the
    loops of both are blocked, so there are four arguments, and a block
    shape of two entries is too short. *)
Lemma equal_nests_are_blocked_separately :
  exists upd,
    _loop_blocking Examples.nothing_to_fold Examples.nothing_to_unfold
                   false (bs_sequence [4; 4]%Z) [Examples.nest3; Examples.twin3]
    = Ok upd /\
    map iteration (upd_arguments upd)
    = [Examples.loop_i; Examples.loop_j; Examples.twin_i; Examples.twin_j] /\
    map value (upd_arguments upd) = [bv_int 4; bv_int 4; bv_None; bv_None] /\
    upd_warnings upd = [fewer_entries].
Proof. vm_compute. eexists. repeat split. Qed.

(** A NumPy array of several sizes as block shape: its truth test raises,
    and the pass with it. *)
Lemma loop_blocking_array_raises :
  _loop_blocking Examples.nothing_to_fold Examples.nothing_to_unfold
                 false (bs_array [4; 4]%Z) [Examples.nest3]
  = Raise ValueError.
Proof. reflexivity. Qed.

(** ** Loop blocking: coverage for symmetric stencils *)

Section LoopValues.
Local Open Scope Z_scope.

Lemma In_loop_values (s f st v : Z) :
  In v (loop_values s f st)
  <-> 0 < st /\ exists k, 0 <= k /\ v = s + k * st /\ v < f.
Proof.
  unfold loop_values. destruct (Z.leb_spec st 0) as [Hst|Hst].
  - split; [intros [] | intros [H _]; lia].
  - rewrite in_map_iff. split.
    + intros (k & <- & Hk). apply in_seq in Hk. split; [exact Hst|].
      exists (Z.of_nat k). split; [lia|]. split; [reflexivity|].
      assert (Hq : Z.of_nat k < (f - s + st - 1) / st) by lia.
      assert (Hm : st * ((f - s + st - 1) / st) <= f - s + st - 1)
        by (apply Z.mul_div_le; lia).
      nia.
    + intros (_ & k & Hk & -> & Hlt). exists (Z.to_nat k).
      split; [rewrite Z2Nat.id by lia; reflexivity|].
      apply in_seq. split; [lia|]. simpl.
      assert (Hq : k + 1 <= (f - s + st - 1) / st)
        by (apply Z.div_le_lower_bound; [exact Hst | nia]).
      lia.
Qed.

Lemma In_unit_loop (s f v : Z) : In v (loop_values s f 1) <-> s <= v < f.
Proof.
  rewrite In_loop_values. split.
  - intros (_ & k & Hk & -> & Hlt). lia.
  - intros H. split; [lia|]. exists (v - s). lia.
Qed.

(** When the blocked region is a whole number of blocks, the blocks tile
    it. *)
Lemma In_blocks (s f bs v : Z) :
  0 < bs -> s <= f -> (f - s) mod bs = 0 ->
  (exists b, In b (loop_values s f bs) /\ b <= v < b + bs) <-> s <= v < f.
Proof.
  intros Hbs Hsf Hdiv.
  assert (Hm : f - s = bs * ((f - s) / bs))
    by (pose proof (Z.div_mod (f - s) bs); lia).
  split.
  - intros (b & Hb & Hv). apply In_loop_values in Hb.
    destruct Hb as (_ & k & Hk & -> & Hlt). split; [nia|].
    assert (k < (f - s) / bs) by nia. nia.
  - intros Hv. exists (s + (v - s) / bs * bs).
    pose proof (Z.div_mod (v - s) bs) as Hd.
    pose proof (Z.mod_pos_bound (v - s) bs Hbs) as Hr.
    split; [|lia].
    apply In_loop_values. split; [exact Hbs|].
    exists ((v - s) / bs). split; [apply Z.div_pos; lia|].
    split; [reflexivity | lia].
Qed.
End LoopValues.

Lemma executed_nest (dims : list string) (loops : list Iteration)
  (body : list Node) (p : list Z) :
  forall env,
    In p (flat_map (executed dims env) (nest loops body))
    <-> exists env', reaches env loops env' /\
                     In p (flat_map (executed dims env') body).
Proof.
  induction loops as [|h t IH]; intros env.
  - cbn [nest]. split.
    + intros H. exists env. split; [constructor | exact H].
    + intros (env' & Hr & H). inversion Hr; subst. exact H.
  - cbn [nest flat_map executed]. rewrite app_nil_r.
    cbn [with_nodes nodes dim]. rewrite in_flat_map. split.
    + intros (v & Hv & H). apply IH in H. destruct H as (env' & Hr & H).
      exists env'. split; [|exact H]. econstructor; [exact Hv | exact Hr].
    + intros (env' & Hr & H). inversion Hr as [|? ? ? v ? Hv Hr']; subst.
      exists v. split; [exact Hv|]. apply IH. now exists env'.
Qed.

Lemma executed_compose_nodes (dims : list string) (loops : list Iteration)
  (body : list Node) (p : list Z) (env : Env) :
  In p (executed dims env (compose_nodes loops body))
  <-> exists env', reaches env loops env' /\
                   In p (flat_map (executed dims env') body).
Proof.
  rewrite <- executed_nest. destruct loops as [|h t].
  - reflexivity.
  - cbn [compose_nodes nest flat_map]. now rewrite app_nil_r.
Qed.

Lemma reaches_app (l1 l2 : list Iteration) :
  forall env env',
    reaches env (l1 ++ l2) env'
    <-> exists mid, reaches env l1 mid /\ reaches mid l2 env'.
Proof.
  induction l1 as [|h t IH]; intros env env'; cbn [app].
  - split.
    + intros H. exists env. split; [constructor | exact H].
    + intros (mid & H1 & H2). inversion H1; subst. exact H2.
  - split.
    + intros H. inversion H as [|? ? ? v ? Hv Hr]; subst.
      apply IH in Hr. destruct Hr as (mid & H1 & H2).
      exists mid. split; [econstructor; eassumption | exact H2].
    + intros (mid & H1 & H2). inversion H1 as [|? ? ? v ? Hv Hr]; subst.
      econstructor; [exact Hv|]. apply IH. now exists mid.
Qed.

(** Loops whose ranges do not depend on the variables they bind: the
    body is reached exactly with each variable somewhere in the range of
    its loop, and nothing else changed. *)
Lemma reaches_independent (loops : list Iteration) :
  NoDup (map var loops) ->
  forall env,
    (forall h env1, In h loops ->
                    (forall s, ~ In s (map var loops) -> env1 s = env s) ->
                    iteration_values env1 h = iteration_values env h) ->
    (forall env', reaches env loops env' ->
                  (forall s, ~ In s (map var loops) -> env' s = env s) /\
                  (forall h, In h loops ->
                             In (env' (var h)) (iteration_values env h))) /\
    (forall target,
        (forall h, In h loops -> In (target (var h)) (iteration_values env h)) ->
        exists env', reaches env loops env' /\
                     (forall h, In h loops -> env' (var h) = target (var h)) /\
                     (forall s, ~ In s (map var loops) -> env' s = env s)).
Proof.
  induction loops as [|h t IH]; intros Hnd env Hind.
  - split.
    + intros env' Hr. inversion Hr; subst. split; [reflexivity | intros ? []].
    + intros target _. exists env. split; [constructor|].
      split; [intros ? [] | reflexivity].
  - cbn [map] in Hnd. inversion Hnd as [|? ? Hh Hnd']; subst.
    assert (Hstep : forall v s, ~ In s (map var (h :: t)) ->
                                bind_var env (var h) v s = env s).
    { intros v s Hs. unfold bind_var.
      destruct (String.eqb_spec s (var h)) as [->|]; [|reflexivity].
      exfalso. apply Hs. now left. }
    assert (Hind1 : forall v g env1,
               In g t ->
               (forall s, ~ In s (map var t) -> env1 s = bind_var env (var h) v s) ->
               iteration_values env1 g
               = iteration_values (bind_var env (var h) v) g).
    { intros v g env1 Hg Hagree.
      rewrite (Hind g env1), (Hind g (bind_var env (var h) v));
        try (now right); try reflexivity.
      - apply Hstep.
      - intros s Hs. rewrite Hagree; [now apply Hstep|].
        intros Hin. apply Hs. now right. }
    split.
    + intros env' Hr. inversion Hr as [|? ? ? v ? Hv Hr']; subst.
      destruct (IH Hnd' (bind_var env (var h) v) (Hind1 v)) as [Hsound _].
      destruct (Hsound env' Hr') as [Hframe Hmem].
      assert (Hvh : env' (var h) = v).
      { rewrite Hframe by exact Hh. unfold bind_var.
        now rewrite String.eqb_refl. }
      split.
      * intros s Hs. rewrite Hframe; [now apply Hstep|].
        intros Hin. apply Hs. now right.
      * intros g [<-|Hg]; [now rewrite Hvh|].
        rewrite <- (Hind g (bind_var env (var h) v)); [now apply Hmem | now right |].
        apply Hstep.
    + intros target Htarget.
      destruct (IH Hnd' (bind_var env (var h) (target (var h)))
                   (Hind1 (target (var h)))) as [_ Hcomplete].
      destruct (Hcomplete target) as (env' & Hr & Heq & Hframe).
      { intros g Hg.
        rewrite (Hind g (bind_var env (var h) (target (var h))));
          [apply Htarget; now right | now right | apply Hstep]. }
      exists env'. split; [|split].
      * econstructor; [apply Htarget; now left | exact Hr].
      * intros g [<-|Hg]; [|now apply Heq].
        rewrite Hframe by exact Hh. unfold bind_var.
        now rewrite String.eqb_refl.
      * intros s Hs. rewrite Hframe; [now apply Hstep|].
        intros Hin. apply Hs. now right.
Qed.

Section BuiltLoops.
Local Open Scope Z_scope.
Variable TAG : IterationProperty.

Lemma size_of_known (d : Dimension) (N : Z) :
  dim_size d = Some N -> N <> 0 -> size_or_symbolic d = Const N.
Proof.
  unfold size_or_symbolic. intros -> H. destruct N; [contradiction | |];
    reflexivity.
Qed.

Lemma values_inter (e : Env) (i : Iteration) (ps : list IterationProperty) :
  (exists a N, limits i = (Const a, Const N, Const 1) /\
               dim_size (dim i) = Some N /\ N <> 0) ->
  iteration_values e (with_properties (inter_block_of i (block_dimension i)) ps)
  = loop_values (domain_start e i) (blocked_finish e i) (e (block_size_name i)).
Proof.
  intros (a & N & Hl & Hs & HN).
  unfold iteration_values, inter_block_of, with_properties, limits0, limits1,
    limits2, offsets0, offsets1, blocked_finish, domain_start, domain_finish,
    limits0, limits1, offsets0, offsets1.
  cbn [limits offsets fst snd no_offsets eval].
  rewrite (size_of_known _ N Hs HN), Hl. cbn [fst snd eval].
  unfold symbolic_size, block_size_name, block_var.
  now rewrite !Z.sub_0_r.
Qed.

Lemma values_intra (e : Env) (i : Iteration) (ps : list IterationProperty) :
  iteration_values e (with_properties (intra_block_of TAG i (block_dimension i)) ps)
  = loop_values (e (block_var i))
                (e (block_var i) + e (block_size_name i)) 1.
Proof.
  unfold iteration_values, intra_block_of, with_properties, limits0, limits1,
    limits2, offsets0, offsets1.
  cbn [limits offsets fst snd no_offsets eval inter_block_of dim].
  unfold symbolic_size, block_size_name, block_var.
  now rewrite !Z.sub_0_r.
Qed.

Lemma values_remainder (e : Env) (i : Iteration) (ps : list IterationProperty) :
  (exists a N, limits i = (Const a, Const N, Const 1) /\
               dim_size (dim i) = Some N /\ N <> 0) ->
  iteration_values e (with_properties (remainder_of i (block_dimension i)) ps)
  = loop_values (blocked_finish e i) (domain_finish e i) 1.
Proof.
  intros (a & N & Hl & Hs & HN).
  unfold iteration_values, remainder_of, with_properties, limits0, limits1,
    limits2, offsets0, offsets1, blocked_finish, domain_finish,
    limits1, offsets1.
  cbn [limits offsets fst snd no_offsets eval inter_block_of].
  rewrite (size_of_known _ N Hs HN), Hl. cbn [fst snd eval].
  unfold symbolic_size, block_size_name, block_var.
  now rewrite !Z.sub_0_r.
Qed.

Lemma values_original (e : Env) (i : Iteration) :
  (exists a N, limits i = (Const a, Const N, Const 1) /\
               dim_size (dim i) = Some N /\ N <> 0) ->
  iteration_values e i = loop_values (domain_start e i) (domain_finish e i) 1.
Proof.
  intros (a & N & Hl & _). unfold iteration_values, domain_start, domain_finish,
    limits0, limits1, limits2. rewrite Hl. reflexivity.
Qed.

(** With constant limits, only the block size is read from the
    environment. *)
Lemma domain_fixed (e e' : Env) (i : Iteration) :
  (exists a N, limits i = (Const a, Const N, Const 1) /\
               dim_size (dim i) = Some N /\ N <> 0) ->
  e' (block_size_name i) = e (block_size_name i) ->
  domain_start e' i = domain_start e i /\
  domain_finish e' i = domain_finish e i /\
  blocked_finish e' i = blocked_finish e i.
Proof.
  intros (a & N & Hl & _) Hsz.
  unfold blocked_finish, domain_start, domain_finish, limits0, limits1.
  rewrite Hl, Hsz. cbn [fst snd eval]. auto.
Qed.

(** For a symmetric loop the blocked region is a whole number of blocks
    inside the domain. *)
Lemma blocked_region_aligned (e : Env) (i : Iteration) :
  symmetric_loop e i ->
  domain_start e i <= blocked_finish e i <= domain_finish e i /\
  (blocked_finish e i - domain_start e i) mod e (block_size_name i) = 0.
Proof.
  intros (_ & Hsym & Hle & Hbs). unfold blocked_finish. rewrite <- Hsym.
  set (s := domain_start e i) in *. set (f := domain_finish e i) in *.
  set (bs := e (block_size_name i)) in *.
  pose proof (Z.mod_pos_bound (f - s) bs Hbs) as Hr.
  pose proof (Z.div_mod (f - s) bs) as Hd.
  assert (Hq : 0 <= (f - s) / bs) by (apply Z.div_pos; lia).
  split; [nia|].
  replace (f - (f - s) mod bs - s) with ((f - s) / bs * bs) by lia.
  apply Z.mod_mul. lia.
Qed.
End BuiltLoops.

Section Assignments.
Variable key : Iteration -> string.

Lemma assign_In (f : Iteration -> Z -> Z) (its : list Iteration) (p : list Z)
  (default : Env) (i : Iteration) (v : Z) :
  NoDup (map key its) -> In (i, v) (combine its p) ->
  assign key f its p default (key i) = f i v.
Proof.
  unfold assign. revert p.
  induction its as [|i0 t IH]; intros [|v0 p] Hnd Hin; simpl in Hin; try tauto.
  cbn [map] in Hnd. inversion Hnd as [|? ? Hk Hnd']; subst.
  cbn [combine find fst]. destruct Hin as [Heq|Hin].
  - inversion Heq; subst. now rewrite String.eqb_refl.
  - destruct (String.eqb_spec (key i) (key i0)) as [E|_]; [|now apply IH].
    exfalso. apply Hk. rewrite <- E. apply in_map.
    eapply in_combine_l. exact Hin.
Qed.

Lemma assign_other (f : Iteration -> Z -> Z) (its : list Iteration) (p : list Z)
  (default : Env) (s : string) :
  ~ In s (map key its) -> assign key f its p default s = default s.
Proof.
  unfold assign. revert p.
  induction its as [|i0 t IH]; intros [|v0 p] Hs; try reflexivity.
  cbn [combine find fst]. cbn [map] in Hs.
  destruct (String.eqb_spec s (key i0)) as [E|_].
  - exfalso. apply Hs. now left.
  - apply IH. intros Hin. apply Hs. now right.
Qed.
End Assignments.

Lemma in_combine_map {B C} (g : B -> C) (l : list B) (i : B) (v : C) :
  In (i, v) (combine l (map g l)) -> v = g i /\ In i l.
Proof.
  induction l as [|x l IH]; simpl; [tauto|].
  intros [Heq|Hin]; [inversion Heq; subst; auto|].
  destruct (IH Hin). auto.
Qed.

Lemma in_combine_exists {B C} (l : list B) (p : list C) (i : B) :
  length p = length l -> In i l -> exists v, In (i, v) (combine l p).
Proof.
  revert p. induction l as [|x l IH]; intros [|v p] Hlen Hin;
    simpl in *; try tauto; try discriminate.
  destruct Hin as [->|Hin]; [exists v; now left|].
  destruct (IH p) as [v' Hv']; [congruence | exact Hin |].
  exists v'. now right.
Qed.

Lemma map_eq_combine {B C} (g : B -> C) (l : list B) (p : list C) :
  length p = length l ->
  (forall i v, In (i, v) (combine l p) -> g i = v) ->
  map g l = p.
Proof.
  revert p. induction l as [|x l IH]; intros [|v p] Hlen H;
    simpl in *; try discriminate; [reflexivity|].
  f_equal; [apply H; now left|].
  apply IH; [congruence|]. intros i v' Hin. apply H. now right.
Qed.

Lemma NoDup_map_filter {B C} (f : B -> C) (g : B -> bool) (l : list B) :
  NoDup (map f l) -> NoDup (map f (filter g l)).
Proof.
  induction l as [|x l IH]; simpl; intros Hnd; [constructor|].
  inversion Hnd as [|? ? Hx Hnd']; subst.
  destruct (g x); simpl; [|now apply IH].
  constructor; [|now apply IH].
  intros Hin. apply Hx. apply in_map_iff in Hin.
  destruct Hin as (y & Hy & Hin). apply filter_In in Hin.
  apply in_map_iff. exists y. tauto.
Qed.

Lemma In_map_filter {B C} (f : B -> C) (g : B -> bool) (l : list B) (s : C) :
  In s (map f (filter g l)) -> In s (map f l).
Proof.
  rewrite !in_map_iff. intros (y & Hy & Hin). apply filter_In in Hin.
  exists y. tauto.
Qed.

Section SelectedTree.
Local Open Scope Z_scope.
Variable TAG : IterationProperty.
Variable sel : Iteration -> bool.
Variables props1 props2 : Iteration -> list IterationProperty.
Variable its : list Iteration.
Variable body : list Node.
Variable env : Env.
Hypothesis Hnames : names_apart its.
Hypothesis Hsym : forall i, In i its -> symmetric_loop env i.
Hypothesis Hbody : records_point (map var its) body.

Let outer : list Iteration :=
  map (fun i => with_properties (inter_block_of i (block_dimension i)) (props1 i))
      (filter (fun i => negb (sel i)) its).
Let inner : list Iteration :=
  map (fun i =>
         with_properties
           (if sel i then remainder_of i (block_dimension i)
            else intra_block_of TAG i (block_dimension i))
           (props2 i))
      its.

Lemma var_outer : map var outer = map block_var (filter (fun i => negb (sel i)) its).
Proof. unfold outer. rewrite map_map. reflexivity. Qed.

Lemma var_inner : map var inner = map var its.
Proof.
  unfold inner. rewrite map_map. apply map_ext. intros i.
  now destruct (sel i).
Qed.

Lemma names_vars : NoDup (map var its).
Proof. destruct Hnames as [H _]. eapply NoDup_app_remove_r. exact H. Qed.

Lemma names_block_vars : NoDup (map block_var its).
Proof. destruct Hnames as [H _]. eapply NoDup_app_remove_l. exact H. Qed.

Lemma size_not_var (i : Iteration) :
  In i its -> ~ In (block_size_name i) (map var its).
Proof.
  intros Hi Hin. destruct Hnames as [_ H]. apply (H i Hi).
  apply in_or_app. now left.
Qed.

Lemma size_not_block_var (i : Iteration) :
  In i its -> ~ In (block_size_name i) (map var outer).
Proof.
  intros Hi Hin. destruct Hnames as [_ H]. apply (H i Hi).
  apply in_or_app. right. rewrite var_outer in Hin.
  eapply In_map_filter. exact Hin.
Qed.

Lemma block_var_not_var (i : Iteration) :
  In i its -> ~ In (block_var i) (map var its).
Proof.
  intros Hi Hin. destruct Hnames as [H _].
  apply (NoDup_app_disjoint _ _ H (block_var i)); [exact Hin|].
  now apply in_map.
Qed.

Lemma limits_known (i : Iteration) :
  In i its ->
  exists a N, limits i = (Const a, Const N, Const 1) /\
              dim_size (dim i) = Some N /\ N <> 0.
Proof. intros Hi. now destruct (Hsym i Hi). Qed.

Lemma outer_independent (h : Iteration) (env1 : Env) :
  In h outer ->
  (forall s, ~ In s (map var outer) -> env1 s = env s) ->
  iteration_values env1 h = iteration_values env h.
Proof.
  intros Hh Hagree. unfold outer in Hh. apply in_map_iff in Hh.
  destruct Hh as (i & <- & Hi). apply filter_In in Hi. destruct Hi as [Hi _].
  rewrite !values_inter by now apply limits_known.
  destruct (domain_fixed env env1 i (limits_known i Hi)) as (-> & _ & ->);
    [apply Hagree; now apply size_not_block_var|].
  rewrite Hagree by now apply size_not_block_var. reflexivity.
Qed.

Lemma inner_independent (mid : Env) (h : Iteration) (env1 : Env) :
  In h inner ->
  (forall s, ~ In s (map var inner) -> env1 s = mid s) ->
  iteration_values env1 h = iteration_values mid h.
Proof.
  intros Hh Hagree. unfold inner in Hh. apply in_map_iff in Hh.
  destruct Hh as (i & <- & Hi). rewrite var_inner in Hagree.
  assert (Hsz : env1 (block_size_name i) = mid (block_size_name i))
    by (apply Hagree; now apply size_not_var).
  destruct (sel i).
  - rewrite !values_remainder by now apply limits_known.
    destruct (domain_fixed mid env1 i (limits_known i Hi) Hsz) as (_ & -> & ->).
    reflexivity.
  - rewrite !(values_intra TAG), Hsz.
    rewrite (Hagree (block_var i)) by now apply block_var_not_var.
    reflexivity.
Qed.

(** The points at which the tree built for [sel] executes its body. *)
Lemma selected_tree_points (p : list Z) :
  In p (executed (map var its) env
          (compose_nodes (selected_loops TAG sel props1 props2 its) body))
  <-> length p = length its /\
      forall i v, In (i, v) (combine its p) -> in_region env sel i v.
Proof.
  unfold selected_loops. fold outer. fold inner.
  rewrite executed_compose_nodes.
  assert (Hnd_outer : NoDup (map var outer))
    by (rewrite var_outer; apply NoDup_map_filter, names_block_vars).
  assert (Hnd_inner : NoDup (map var inner))
    by (rewrite var_inner; apply names_vars).
  destruct (reaches_independent outer Hnd_outer env outer_independent)
    as [Hout_sound Hout_complete].
  split.
  - intros (env' & Hr & Hp). apply Hbody in Hp.
    apply reaches_app in Hr. destruct Hr as (mid & Hr1 & Hr2).
    destruct (Hout_sound mid Hr1) as [Hframe1 Hmem1].
    destruct (reaches_independent inner Hnd_inner mid (inner_independent mid))
      as [Hin_sound _].
    destruct (Hin_sound env' Hr2) as [_ Hmem2].
    rewrite map_map in Hp. subst p. split; [now rewrite length_map|].
    intros i v Hiv. apply in_combine_map in Hiv. destruct Hiv as [-> Hi].
    assert (Hsz : mid (block_size_name i) = env (block_size_name i))
      by (apply Hframe1; now apply size_not_block_var).
    destruct (domain_fixed env mid i (limits_known i Hi) Hsz) as (Hs & Hf & Hb).
    specialize (Hmem2 (with_properties
                         (if sel i then remainder_of i (block_dimension i)
                          else intra_block_of TAG i (block_dimension i))
                         (props2 i))).
    unfold in_region. destruct (sel i) eqn:Esel.
    + rewrite values_remainder in Hmem2 by now apply limits_known.
      rewrite Hb, Hf in Hmem2. apply In_unit_loop. apply Hmem2.
      unfold inner. apply in_map_iff. exists i. rewrite Esel. auto.
    + rewrite (values_intra TAG), Hsz in Hmem2.
      assert (Hblock : In (env' (var i))
                          (loop_values (mid (block_var i))
                             (mid (block_var i) + env (block_size_name i)) 1)).
      { apply Hmem2. unfold inner. apply in_map_iff. exists i.
        rewrite Esel. auto. }
      apply In_unit_loop in Hblock.
      specialize (Hmem1 (with_properties (inter_block_of i (block_dimension i))
                                         (props1 i))).
      rewrite values_inter in Hmem1 by now apply limits_known.
      destruct (Hsym i Hi) as (_ & _ & _ & Hbs).
      destruct (blocked_region_aligned env i (Hsym i Hi)) as [Hle Hdiv].
      apply (In_blocks _ _ _ _ Hbs (proj1 Hle) Hdiv).
      exists (mid (block_var i)). split; [|exact Hblock].
      apply Hmem1. unfold outer. apply in_map_iff. exists i.
      split; [reflexivity|]. apply filter_In. now rewrite Esel.
  - intros [Hlen Hreg].
    (* the block of every point, then the point itself *)
    destruct (Hout_complete (assign block_var (block_start env) its p env))
      as (mid & Hr1 & Hmid & Hframe1).
    { intros h Hh. unfold outer in Hh. apply in_map_iff in Hh.
      destruct Hh as (i & <- & Hi). apply filter_In in Hi.
      destruct Hi as [Hi Hsel]. apply negb_true_iff in Hsel.
      rewrite values_inter by now apply limits_known.
      destruct (in_combine_exists its p i Hlen Hi) as [v Hv].
      change (var (with_properties (inter_block_of i (block_dimension i))
                                   (props1 i))) with (block_var i).
      rewrite (assign_In block_var _ its p env i v names_block_vars Hv).
      specialize (Hreg i v Hv). unfold in_region in Hreg. rewrite Hsel in Hreg.
      destruct (Hsym i Hi) as (_ & _ & _ & Hbs).
      unfold block_start. apply In_loop_values. split; [exact Hbs|].
      exists ((v - domain_start env i) / env (block_size_name i)).
      pose proof (Z.div_mod (v - domain_start env i) (env (block_size_name i))).
      pose proof (Z.mod_pos_bound (v - domain_start env i)
                    (env (block_size_name i)) Hbs).
      split; [apply Z.div_pos; lia|]. split; [reflexivity | lia]. }
    destruct (reaches_independent inner Hnd_inner mid (inner_independent mid))
      as [_ Hin_complete].
    destruct (Hin_complete (assign var (fun _ v => v) its p mid))
      as (env' & Hr2 & Henv' & _).
    { intros h Hh. unfold inner in Hh. apply in_map_iff in Hh.
      destruct Hh as (i & <- & Hi).
      destruct (in_combine_exists its p i Hlen Hi) as [v Hv].
      assert (Hvar : var (with_properties
                            (if sel i then remainder_of i (block_dimension i)
                             else intra_block_of TAG i (block_dimension i))
                            (props2 i)) = var i) by now destruct (sel i).
      rewrite Hvar, (assign_In var _ its p mid i v names_vars Hv).
      assert (Hsz : mid (block_size_name i) = env (block_size_name i))
        by (apply Hframe1; now apply size_not_block_var).
      destruct (domain_fixed env mid i (limits_known i Hi) Hsz) as (Hs & Hf & Hb).
      specialize (Hreg i v Hv). unfold in_region in Hreg.
      destruct (sel i) eqn:Esel.
      - rewrite values_remainder by now apply limits_known.
        rewrite Hb, Hf. now apply In_unit_loop.
      - rewrite (values_intra TAG), Hsz. apply In_unit_loop.
        specialize (Hmid (with_properties (inter_block_of i (block_dimension i))
                                          (props1 i))).
        change (var (with_properties (inter_block_of i (block_dimension i))
                                     (props1 i))) with (block_var i) in Hmid.
        rewrite Hmid, (assign_In block_var _ its p env i v names_block_vars Hv).
        + destruct (Hsym i Hi) as (_ & _ & _ & Hbs). unfold block_start.
          pose proof (Z.div_mod (v - domain_start env i) (env (block_size_name i))).
          pose proof (Z.mod_pos_bound (v - domain_start env i)
                        (env (block_size_name i)) Hbs).
          lia.
        + unfold outer. apply in_map_iff. exists i. split; [reflexivity|].
          apply filter_In. now rewrite Esel. }
    exists env'. split; [apply reaches_app; now exists mid|].
    apply Hbody. rewrite map_map. symmetry. apply map_eq_combine; [exact Hlen|].
    intros i v Hv.
    assert (Hi : In i its) by (eapply in_combine_l; exact Hv).
    specialize (Henv' (with_properties
                         (if sel i then remainder_of i (block_dimension i)
                          else intra_block_of TAG i (block_dimension i))
                         (props2 i))).
    assert (Hvar : var (with_properties
                          (if sel i then remainder_of i (block_dimension i)
                           else intra_block_of TAG i (block_dimension i))
                          (props2 i)) = var i) by now destruct (sel i).
    rewrite Hvar in Henv'. rewrite Henv'.
    + exact (assign_In var (fun _ v0 => v0) its p mid i v names_vars Hv).
    + unfold inner. apply in_map_iff. now exists i.
Qed.
End SelectedTree.

Lemma get_Some_In (blocked : Blocked) (k : Iteration) (d : Dimension) :
  get Iteration_eqb blocked k = Some d -> In (k, d) blocked.
Proof.
  induction blocked as [|[k' d'] t IH]; simpl; [discriminate|].
  destruct (Iteration_eqb k k') eqn:E.
  - apply Iteration_eqb_eq in E. subst k'. intros H. inversion H. now left.
  - intros H. right. now apply IH.
Qed.

Lemma setitem_In (blocked : Blocked) (k k' : Iteration) (d d' : Dimension) :
  In (k', d') (setitem Iteration_eqb blocked k d) ->
  (k', d') = (k, d) \/ In (k', d') blocked.
Proof.
  induction blocked as [|[k0 d0] t IH]; simpl.
  - intros [H|[]]. left. now symmetry.
  - destruct (Iteration_eqb k k0) eqn:E; simpl.
    + apply Iteration_eqb_eq in E. subst k0.
      intros [H|H]; [left; now symmetry | right; now right].
    + intros [H|H]; [right; now left|].
      destruct (IH H); [now left | right; now right].
Qed.

(** Starting from such a dictionary, every blocked loop gets the block
    dimension derived from it. *)
Lemma memoized_dims_canonical (its : list Iteration) :
  forall blocked,
    canonical blocked ->
    combine its (snd (memoized_dims blocked its))
    = map (fun i => (i, block_dimension i)) its.
Proof.
  induction its as [|i t IH]; intros blocked Hc; [reflexivity|].
  cbn [memoized_dims]. unfold setdefault.
  destruct (get Iteration_eqb blocked i) as [d|] eqn:E.
  - specialize (IH blocked Hc). destruct (memoized_dims blocked t) as [b ds].
    cbn [snd combine map] in *. rewrite IH.
    now rewrite (Hc i d (get_Some_In _ _ _ E)).
  - assert (Hc' : canonical (setitem Iteration_eqb blocked i (block_dimension i))).
    { intros k d Hin. apply setitem_In in Hin.
      destruct Hin as [Heq|Hin]; [now inversion Heq | now apply Hc]. }
    specialize (IH _ Hc'). destruct (memoized_dims _ t) as [b ds].
    cbn [snd combine map] in *. now rewrite IH.
Qed.

Lemma spec_blocked_tree_selected (TAG : IterationProperty)
  (its : list Iteration) (body : list Node) :
  spec_blocked_tree TAG (map (fun i => (i, block_dimension i)) its) body
  = compose_nodes
      (selected_loops TAG (fun _ => false) (fun _ => [PARALLEL])
                      (fun i => properties i ++ [TAG; ELEMENTAL]) its)
      body.
Proof.
  unfold spec_blocked_tree, selected_loops. rewrite !map_map. cbn [fst snd negb].
  f_equal. f_equal. f_equal. induction its as [|i t IH]; simpl; congruence.
Qed.

Lemma spec_remainder_tree_selected (TAG : IterationProperty)
  (its : list Iteration) (body : list Node) (c : list Dimension) :
  spec_remainder_tree TAG (map (fun i => (i, block_dimension i)) its) body c
  = compose_nodes
      (selected_loops TAG (fun i => dim_in (dim i) c)
                      (fun _ => [PARALLEL; REMAINDER])
                      (fun _ => [REMAINDER; TAG; ELEMENTAL]) its)
      body.
Proof.
  unfold spec_remainder_tree, selected_loops. rewrite !map_map. cbn [fst snd].
  f_equal. f_equal.
  induction its as [|i t IH]; [reflexivity|].
  cbn [map flat_map filter fst snd].
  destruct (dim_in (dim i) c); cbn [negb app map]; now rewrite IH.
Qed.

Lemma Subseq_nil_any {A} (l : list A) : Subseq [] l.
Proof. induction l; constructor; assumption. Qed.

Lemma dim_in_In (d : Dimension) (c : list Dimension) :
  dim_in d c = true <-> In d c.
Proof.
  unfold dim_in. rewrite existsb_exists. split.
  - intros (x & Hx & E). apply Dimension_eqb_eq in E. now subst.
  - intros H. exists d. split; [exact H | now apply Dimension_eqb_eq].
Qed.

(** A selection from distinct items is known by its members. *)
Lemma Subseq_filter (c l : list Dimension) :
  Subseq c l -> NoDup l -> filter (fun d => dim_in d c) l = c.
Proof.
  induction 1 as [|x c l Hs IH|x c l Hs IH]; intros Hnd; [reflexivity| |];
    inversion Hnd as [|? ? Hx Hnd']; subst; cbn [filter].
  - replace (dim_in x (x :: c)) with true
      by (symmetry; apply dim_in_In; now left).
    f_equal. transitivity (filter (fun d => dim_in d c) l); [|now apply IH].
    apply filter_ext_in.
    intros d Hd. unfold dim_in. cbn [existsb].
    destruct (Dimension_eqb d x) eqn:E; [|reflexivity].
    apply Dimension_eqb_eq in E. subst. contradiction.
  - replace (dim_in x c) with false; [now apply IH|].
    symmetry. apply not_true_is_false. rewrite dim_in_In.
    intros Hin. apply Hx. eapply Subseq_In; eassumption.
Qed.

Lemma Subseq_determined (c1 c2 l : list Dimension) :
  NoDup l -> Subseq c1 l -> Subseq c2 l ->
  (forall d, In d l -> dim_in d c1 = dim_in d c2) -> c1 = c2.
Proof.
  intros Hnd H1 H2 Heq.
  rewrite <- (Subseq_filter c1 l H1 Hnd), <- (Subseq_filter c2 l H2 Hnd).
  now apply filter_ext_in.
Qed.

Lemma NoDup_map_inv {B C D} (f : B -> C) (g : C -> D) (l : list B) :
  NoDup (map (fun x => g (f x)) l) -> NoDup (map f l).
Proof.
  induction l as [|x l IH]; simpl; intros H; [constructor|].
  inversion H as [|? ? Hx Hnd]; subst. constructor; [|now apply IH].
  intros Hin. apply Hx. apply in_map_iff in Hin. destruct Hin as (y & Hy & Hin).
  apply in_map_iff. exists y. split; [now rewrite Hy | exact Hin].
Qed.

Lemma combine_unique {B C D} (f : B -> D) (l : list B) (p : list C)
  (i i' : B) (v v' : C) :
  NoDup (map f l) ->
  In (i, v) (combine l p) -> In (i', v') (combine l p) -> f i = f i' ->
  v = v'.
Proof.
  revert p. induction l as [|x l IH]; intros [|w p] Hnd H1 H2 Hf;
    simpl in *; try tauto.
  inversion Hnd as [|? ? Hx Hnd']; subst.
  destruct H1 as [E1|H1], H2 as [E2|H2].
  - congruence.
  - inversion E1; subst. exfalso. apply Hx. rewrite Hf.
    apply in_map. eapply in_combine_l. exact H2.
  - inversion E2; subst. exfalso. apply Hx. rewrite <- Hf.
    apply in_map. eapply in_combine_l. exact H1.
  - now apply (IH p).
Qed.

(** The dimensions whose coordinate lies in the leftover region. *)
Lemma leftover_selection (env : Env) (its : list Iteration) (p : list Z) :
  NoDup (map dim its) ->
  let c := map (fun iv : Iteration * Z => dim (fst iv))
               (filter (fun iv => (blocked_finish env (fst iv) <=? snd iv)%Z)
                       (combine its p)) in
  Subseq c (map dim its) /\
  forall i v, In (i, v) (combine its p) ->
              dim_in (dim i) c = (blocked_finish env i <=? v)%Z.
Proof.
  intros Hnd c. split.
  - subst c. clear Hnd. revert p.
    induction its as [|i t IH]; intros [|v p]; cbn [combine filter map];
      try apply Subseq_nil_any.
    cbn [fst snd]. destruct (_ <=? _)%Z; cbn [map fst]; constructor; apply IH.
  - intros i v Hiv.
    destruct (blocked_finish env i <=? v)%Z eqn:E.
    + apply dim_in_In. subst c. apply in_map_iff. exists (i, v).
      split; [reflexivity|]. apply filter_In. now split.
    + apply not_true_is_false. rewrite dim_in_In. subst c.
      rewrite in_map_iff. intros ([i' v'] & Hd & Hin).
      apply filter_In in Hin. destruct Hin as [Hin E']. cbn [fst snd] in *.
      assert (v = v') by (eapply (combine_unique dim); eauto).
      assert (Hi : i = i').
      { clear -Hnd Hiv Hin Hd. apply in_combine_l in Hiv, Hin.
        induction its as [|x t IH]; [destruct Hiv|].
        cbn [map] in Hnd. inversion Hnd as [|? ? Hx Hnd']; subst.
        destruct Hiv as [->|Hiv], Hin as [->|Hin]; auto.
        - exfalso. apply Hx. rewrite <- Hd. now apply in_map.
        - exfalso. apply Hx. rewrite Hd. now apply in_map. }
      subst. congruence.
Qed.

Section Coverage.
Local Open Scope Z_scope.
Variable TAG : IterationProperty.
Variable its : list Iteration.
Variable body : list Node.
Variable env : Env.
Hypothesis Hnames : names_apart its.
Hypothesis Hsym : forall i, In i its -> symmetric_loop env i.
Hypothesis Hbody : records_point (map var its) body.

Let ids := map (fun i : Iteration => (i, block_dimension i)) its.
Let region (c : list Dimension) (p : list Z) : Prop :=
  length p = length its /\
  forall i v, In (i, v) (combine its p) ->
              in_region env (fun i => dim_in (dim i) c) i v.

Lemma main_tree_points (p : list Z) :
  In p (executed (map var its) env (spec_blocked_tree TAG ids body))
  <-> region [] p.
Proof.
  unfold ids. rewrite spec_blocked_tree_selected.
  now rewrite (selected_tree_points TAG _ _ _ its body env Hnames Hsym Hbody).
Qed.

Lemma remainder_tree_points (c : list Dimension) (p : list Z) :
  In p (executed (map var its) env (spec_remainder_tree TAG ids body c))
  <-> region c p.
Proof.
  unfold ids. rewrite spec_remainder_tree_selected.
  now rewrite (selected_tree_points TAG _ _ _ its body env Hnames Hsym Hbody).
Qed.

Lemma dims_distinct : NoDup (map dim its).
Proof.
  apply (NoDup_map_inv dim dim_name).
  exact (names_vars its Hnames).
Qed.

Lemma region_in_domain (c : list Dimension) (p : list Z) :
  region c p -> in_domain env its p.
Proof.
  intros [Hlen Hreg]. split; [exact Hlen|]. intros i v Hiv.
  assert (Hi : In i its) by (eapply in_combine_l; exact Hiv).
  rewrite values_original by now destruct (Hsym i Hi).
  apply In_unit_loop.
  destruct (blocked_region_aligned env i (Hsym i Hi)) as [Hle _].
  specialize (Hreg i v Hiv). unfold in_region in Hreg.
  destruct (dim_in (dim i) c); lia.
Qed.

Lemma domain_in_region (p : list Z) :
  in_domain env its p ->
  exists c, Subseq c (map dim its) /\ region c p.
Proof.
  intros [Hlen Hdom].
  destruct (leftover_selection env its p dims_distinct) as [Hsub Hsel].
  eexists. split; [exact Hsub|]. split; [exact Hlen|].
  intros i v Hiv.
  assert (Hi : In i its) by (eapply in_combine_l; exact Hiv).
  specialize (Hdom i v Hiv).
  rewrite values_original in Hdom by now destruct (Hsym i Hi).
  apply In_unit_loop in Hdom.
  unfold in_region. rewrite (Hsel i v Hiv).
  destruct (Z.leb_spec (blocked_finish env i) v); lia.
Qed.

Lemma regions_disjoint (c1 c2 : list Dimension) (p : list Z) :
  Subseq c1 (map dim its) -> Subseq c2 (map dim its) ->
  region c1 p -> region c2 p -> c1 = c2.
Proof.
  intros H1 H2 [Hlen Hr1] [_ Hr2].
  apply (Subseq_determined c1 c2 (map dim its) dims_distinct H1 H2).
  intros d Hd. apply in_map_iff in Hd. destruct Hd as (i & <- & Hi).
  destruct (in_combine_exists its p i Hlen Hi) as [v Hiv].
  specialize (Hr1 i v Hiv). specialize (Hr2 i v Hiv).
  unfold in_region in Hr1, Hr2.
  destruct (dim_in (dim i) c1), (dim_in (dim i) c2); try reflexivity; lia.
Qed.

Let trees : list Node :=
  spec_blocked_tree TAG ids body
  :: map (spec_remainder_tree TAG ids body) (remainder_combinations its).

Lemma tree_selection (n : nat) (T : Node) :
  nth_error trees n = Some T ->
  exists c, nth_error ([] :: remainder_combinations its) n = Some c /\
            Subseq c (map dim its) /\
            forall p, In p (executed (map var its) env T) <-> region c p.
Proof.
  destruct n as [|n]; cbn [trees nth_error].
  - intros H. inversion H; subst T. exists []. split; [reflexivity|].
    split; [apply Subseq_nil_any | apply main_tree_points].
  - rewrite nth_error_map.
    destruct (nth_error (remainder_combinations its) n) as [c|] eqn:E;
      [|discriminate].
    intros H. inversion H; subst T. exists c. split; [reflexivity|].
    split; [|apply remainder_tree_points].
    apply nth_error_In in E. now apply In_remainder_combinations in E.
Qed.

(** The main tree and the remainder trees execute each point of the
    domain, and no point twice. *)
Lemma trees_partition_domain :
  (forall p, (exists T, In T trees /\ In p (executed (map var its) env T))
             <-> in_domain env its p) /\
  (forall n m T1 T2 p,
      n <> m ->
      nth_error trees n = Some T1 -> nth_error trees m = Some T2 ->
      In p (executed (map var its) env T1) ->
      ~ In p (executed (map var its) env T2)).
Proof.
  split.
  - intros p. split.
    + intros (T & HT & Hp). apply In_nth_error in HT. destruct HT as [n Hn].
      destruct (tree_selection n T Hn) as (c & _ & _ & Hc).
      apply (region_in_domain c). now apply Hc.
    + intros Hd. destruct (domain_in_region p Hd) as (c & Hsub & Hreg).
      destruct c as [|d c'].
      * exists (spec_blocked_tree TAG ids body).
        split; [now left | now apply main_tree_points].
      * exists (spec_remainder_tree TAG ids body (d :: c')). split.
        -- right. apply in_map. apply In_remainder_combinations.
           split; [discriminate | exact Hsub].
        -- now apply remainder_tree_points.
  - intros n m T1 T2 p Hnm H1 H2 Hp1 Hp2.
    destruct (tree_selection n T1 H1) as (c1 & Hc1 & Hs1 & Hr1).
    destruct (tree_selection m T2 H2) as (c2 & Hc2 & Hs2 & Hr2).
    assert (c1 = c2)
      by (apply (regions_disjoint c1 c2 p); [assumption.. | now apply Hr1 | now apply Hr2]).
    subst c2. apply Hnm.
    assert (Hnd : NoDup ([] :: remainder_combinations its)).
    { constructor; [|apply NoDup_remainder_combinations, dims_distinct].
      intros Hin. apply In_remainder_combinations in Hin. now destruct Hin. }
    apply (proj1 (NoDup_nth_error _) Hnd n m); [|congruence].
    apply nth_error_Some. congruence.
Qed.
End Coverage.

Lemma memoized_dims_keeps_canonical (its : list Iteration) :
  forall blocked,
    canonical blocked -> canonical (fst (memoized_dims blocked its)).
Proof.
  induction its as [|i t IH]; intros blocked Hc; [exact Hc|].
  cbn [memoized_dims]. unfold setdefault.
  destruct (get Iteration_eqb blocked i) as [d|].
  - specialize (IH blocked Hc). now destruct (memoized_dims blocked t).
  - assert (Hc' : canonical (setitem Iteration_eqb blocked i (block_dimension i))).
    { intros k d Hin. apply setitem_In in Hin.
      destruct Hin as [Heq|Hin]; [now inversion Heq | now apply Hc]. }
    specialize (IH _ Hc'). now destruct (memoized_dims _ t).
Qed.

(** X1: coverage without overlap, for the nests the formula of line 157
    is right for: when every blocked loop is symmetric, the trees put in
    place of the root execute exactly the points of the Cartesian domain
    of the blocked loops, and no point is executed by two of them,
    whatever the block sizes. *)
Lemma blocking_covers_symmetric_nests
  (exclude_innermost : bool) (blocked : Blocked) (mapper : Mapper)
  (tree : list Iteration) (root : Iteration) (rest : list Iteration) (env : Env) :
  blockable exclude_innermost tree = root :: rest ->
  IsPerfectIteration root = true ->
  canonical blocked ->
  let its := root :: rest in
  names_apart its ->
  (forall i, In i its -> symmetric_loop env i) ->
  records_point (map var its) (innermost_body its) ->
  exists blocked' trees,
    block_tree exclude_innermost (blocked, mapper) tree
    = (blocked',
       setitem Node_eqb mapper (NIteration root) (Some (NList [] trees []))) /\
    canonical blocked' /\
    (forall p, (exists T, In T trees /\ In p (executed (map var its) env T))
               <-> in_domain env its p) /\
    (forall n m T1 T2 p,
        n <> m ->
        nth_error trees n = Some T1 -> nth_error trees m = Some T2 ->
        In p (executed (map var its) env T1) ->
        ~ In p (executed (map var its) env T2)).
Proof.
  intros Hsel Hperf Hcan its Hnames Hsym Hbody.
  rewrite (block_tree_built _ blocked mapper tree root rest Hsel Hperf).
  cbv zeta. fold its. rewrite (memoized_dims_canonical its blocked Hcan).
  eexists. eexists. split; [reflexivity|].
  split; [now apply memoized_dims_keeps_canonical|].
  exact (trees_partition_domain (tagger (length mapper)) its
           (innermost_body its) env Hnames Hsym Hbody).
Qed.

(** The centred 2-deep nest meets these conditions with blocks of 8 and
    of 5 points, although 16 is not a multiple of 5. *)
Lemma centred_nest_is_partitioned :
  exists blocked' trees,
    block_tree true ([], []) Examples.centred_tree
    = (blocked',
       setitem Node_eqb [] (NIteration Examples.centred_i)
               (Some (NList [] trees []))) /\
    canonical blocked' /\
    (forall p,
        (exists T, In T trees /\
                   In p (executed ["i"; "j"]%string Examples.blocks_8_5 T))
        <-> in_domain Examples.blocks_8_5 Examples.centred_tree p) /\
    (forall n m T1 T2 p,
        n <> m ->
        nth_error trees n = Some T1 -> nth_error trees m = Some T2 ->
        In p (executed ["i"; "j"]%string Examples.blocks_8_5 T1) ->
        ~ In p (executed ["i"; "j"]%string Examples.blocks_8_5 T2)).
Proof.
  apply (blocking_covers_symmetric_nests true [] [] Examples.centred_tree
           Examples.centred_i [Examples.centred_j] Examples.blocks_8_5).
  - reflexivity.
  - reflexivity.
  - intros k d [].
  - split.
    + vm_compute. repeat constructor; simpl; intuition discriminate.
    + intros i [<-|[<-|[]]]; vm_compute; intuition discriminate.
  - intros i [<-|[<-|[]]]; (split; [|split; [|split]]);
      try (vm_compute; reflexivity); try (vm_compute; discriminate).
    + exists 0%Z, 20%Z. repeat split. discriminate.
    + exists 0%Z, 20%Z. repeat split. discriminate.
  - intros env p. cbn. split.
    + intros [<-|[]]. reflexivity.
    + intros ->. now left.
Defined.

Lemma block_tree_canonical (exclude_innermost : bool) (st : Blocked * Mapper)
  (tree : list Iteration) :
  canonical (fst st) -> canonical (fst (block_tree exclude_innermost st tree)).
Proof.
  destruct st as [blocked mapper]. unfold block_tree. intros Hc.
  destruct (blockable exclude_innermost tree) as [|root rest]; [exact Hc|].
  destruct (IsPerfectIteration root); cbn [negb]; [|exact Hc].
  rewrite build_loops_eq. cbv zeta. cbn [fst].
  now apply memoized_dims_keeps_canonical.
Qed.

(** ** Loop blocking: the root of a nest is replaced *)
















(** A sequential loop over time around two nests: both roots are
    replaced, each by a [List] of four trees, below the time loop, which
    is kept. *)
Lemma loop_blocking_below_time_loop :
  exists m1 a1 a2 a3 m2 b1 b2 b3 upd,
    _loop_blocking Examples.nothing_to_fold Examples.nothing_to_unfold
                   false bs_None [NIteration Examples.time_loop] = Ok upd /\
    upd_nodes upd
    = [NIteration (with_nodes Examples.time_loop
                     [NList [] [m1; a1; a2; a3] [];
                      NList [] [m2; b1; b2; b3] []])] /\
    map iteration (upd_arguments upd)
    = [Examples.loop_i; Examples.loop_j; Examples.twin_i; Examples.twin_j].
Proof. vm_compute. do 9 eexists. repeat split. Qed.

(** * Further properties of the passes *)

(** ** The tree rewrite *)

Lemma with_nodes_same (i : Iteration) : with_nodes i (nodes i) = i.
Proof. now destruct i. Qed.

Lemma flat_map_singleton {A B} (f : A -> B) (l : list A) :
  flat_map (fun a => [f a]) l = map f l.
Proof. induction l as [|a l IH]; simpl; [reflexivity | now rewrite IH]. Qed.

Lemma flat_map_Forall_eq {A B} (f g : A -> list B) (l : list A) :
  Forall (fun a => f a = g a) l -> flat_map f l = flat_map g l.
Proof.
  induction 1 as [|a l Ha _ IH]; simpl; [reflexivity | now rewrite Ha, IH].
Qed.

Lemma flat_map_flat_map {A B C} (f : A -> list B) (g : B -> list C) (l : list A) :
  flat_map g (flat_map f l) = flat_map (fun a => flat_map g (f a)) l.
Proof.
  induction l as [|a l IH]; simpl; [reflexivity|].
  now rewrite flat_map_app, IH.
Qed.

(** Visiting the children and keeping those that give a node. *)
Lemma visit_all_id (mapper : Mapper) (l : list Node) :
  Forall (fun c => Transformer mapper c = Some c) l ->
  flat_map (fun c => as_list (Transformer mapper c)) l = l.
Proof.
  induction 1 as [|c l Hc _ IH]; simpl; [reflexivity|].
  now rewrite Hc, IH.
Qed.

(** With nothing to replace, the rewrite gives the tree back. *)
Lemma Transformer_empty (n : Node) : Transformer [] n = Some n.
Proof.
  induction n as [i IH|e|h b f IH|h b f IH|] using Node_induction;
    rewrite Transformer_unfold; cbn [get]; cbv zeta;
    try rewrite (visit_all_id [] _ IH); try reflexivity.
  now rewrite with_nodes_same.
Qed.

Section TransformerExecuted.
Variable dims : list string.
Variable mapper : Mapper.

Hypothesis images_agree :
  forall k image env,
    get Node_eqb mapper k = Some image ->
    executed_image dims env image = executed dims env k.

(** A rewrite whose images execute what their keys execute leaves the
    executed points as they were. *)
Lemma Transformer_executed (n : Node) :
  forall env, executed_image dims env (Transformer mapper n) = executed dims env n.
Proof.
  induction n as [i IH|e|h b f IH|h b f IH|] using Node_induction; intros env;
    rewrite Transformer_unfold;
    (destruct (get Node_eqb mapper _) as [image|] eqn:E;
     [now apply images_agree|]);
    unfold executed_image; cbn [as_list flat_map executed]; cbv zeta;
    rewrite ?app_nil_r; try reflexivity.
  - cbn [with_nodes nodes dim].
    change (iteration_values env (mkIteration _ (dim i) (limits i) (offsets i)
                                              (properties i) (pragmas i) (ident i)))
      with (iteration_values env i).
    apply flat_map_ext. intros v.
    rewrite flat_map_flat_map. apply flat_map_Forall_eq.
    revert IH. apply Forall_impl. intros c Hc. apply Hc.
  - rewrite flat_map_flat_map. apply flat_map_Forall_eq.
    revert IH. apply Forall_impl. intros c Hc. apply Hc.
  - rewrite flat_map_flat_map. apply flat_map_Forall_eq.
    revert IH. apply Forall_impl. intros c Hc. apply Hc.
Qed.
End TransformerExecuted.

Lemma Forall2_same {A} (R : A -> A -> Prop) (l : list A) :
  (forall a, R a a) -> Forall2 R l l.
Proof. intros H. induction l; constructor; auto. Qed.

Lemma extends_refl (ps : list Pragma) : extends ps ps.
Proof. exists []. now rewrite app_nil_r. Qed.

(** ** The trees of a node *)

(** A loop of an iteration tree of [n] lies within [n]: its expressions
    are expressions of [n]. *)
Lemma tree_expressions (n : Node) :
  forall tree i e,
    In tree (retrieve_iteration_tree n) -> In i tree ->
    In e (FindNodes_Expression (NIteration i)) ->
    In e (FindNodes_Expression n).
Proof.
  induction n as [i0 IH|e0|h b f IH|h b f IH|] using Node_induction;
    intros tree i e Htree Hi He; cbn [retrieve_iteration_tree] in Htree;
    try contradiction.
  - assert (Hsub : forall t', In t' (flat_map retrieve_iteration_tree (nodes i0)) ->
                              In i t' -> In e (FindNodes_Expression (NIteration i0))).
    { intros t' Ht' Hit'. apply in_flat_map in Ht'. destruct Ht' as (c & Hc & Ht').
      cbn [FindNodes_Expression]. apply in_flat_map. exists c. split; [exact Hc|].
      rewrite Forall_forall in IH. exact (IH c Hc t' i e Ht' Hit' He). }
    destruct (flat_map retrieve_iteration_tree (nodes i0)) as [|t0 ts] eqn:E.
    + destruct Htree as [<-|[]]. destruct Hi as [<-|[]]. exact He.
    + apply in_map_iff in Htree. destruct Htree as (t' & <- & Ht').
      destruct Hi as [<-|Hi]; [exact He|]. now apply (Hsub t').
  - apply in_flat_map in Htree. destruct Htree as (c & Hc & Ht').
    cbn [FindNodes_Expression]. apply in_flat_map. exists c. split; [exact Hc|].
    rewrite Forall_forall in IH. exact (IH c Hc tree i e Ht' Hi He).
  - apply in_flat_map in Htree. destruct Htree as (c & Hc & Ht').
    cbn [FindNodes_Expression]. apply in_flat_map. exists c. split; [exact Hc|].
    rewrite Forall_forall in IH. exact (IH c Hc tree i e Ht' Hi He).
Qed.

(** The symbols found within a loop of a tree of [n] are referenced by
    [n]. *)
Lemma tree_symbols (n : Node) (tree : list Iteration) (i : Iteration) (f : Function) :
  In tree (retrieve_iteration_tree n) -> In i tree ->
  In f (FindSymbols_symbolics [NIteration i]) -> referenced n f.
Proof.
  intros Htree Hi Hf. unfold FindSymbols_symbolics in Hf.
  apply In_filter_sorted in Hf. apply in_flat_map in Hf.
  destruct Hf as (e & He & Hf). cbn [flat_map] in He. rewrite app_nil_r in He.
  exists e. split; [|exact Hf]. exact (tree_expressions n tree i e Htree Hi He).
Qed.

(** ** SIMD decoration *)

(** What the comprehension under [try] gives when every symbol can be
    measured: a [KeyError] if some width is unknown, else the symbols whose
    trailing extent is a multiple of their width. *)
Lemma aligned_items_cases (p : Platform) (handle : list Function) :
  (forall j, In j handle -> measurable p j) ->
  aligned_items p handle
  = if widths_known p handle then Ok (filter (is_aligned p) handle)
    else Raise KeyError.
Proof.
  induction handle as [|j t IH]; intros H; [reflexivity|].
  cbn [aligned_items widths_known forallb filter].
  destruct (H j (or_introl eq_refl)) as [Hshape Hwidth].
  rewrite (item_last_last _ 0%Z) by exact Hshape. cbn [bind].
  rewrite IH by (intros; apply H; now right). clear IH.
  unfold widths_known, is_aligned, width_of in *.
  destruct (get_simd_items p (fn_dtype j)) as [n|] eqn:En; [|reflexivity].
  destruct (Z.eqb_spec n 0); [congruence|]. cbn [andb].
  destruct (forallb _ t); reflexivity.
Qed.

Lemma aligned_of_cases (p : Platform) (handle : list Function) :
  (forall j, In j handle -> measurable p j) ->
  aligned_of p handle
  = Ok (if widths_known p handle then filter (is_aligned p) handle else []).
Proof.
  intros H. unfold aligned_of. rewrite (aligned_items_cases p handle H).
  now destruct (widths_known p handle).
Qed.

Lemma simd_of_ok (p : Platform) (c : Compiler) (i : Iteration) :
  (forall j, In j (FindSymbols_symbolics [NIteration i]) -> measurable p j) ->
  exists simd, simd_of p c i = Ok simd.
Proof.
  intros H. unfold simd_of. rewrite (aligned_of_cases p _ H). cbn [bind].
  destruct (if widths_known p _ then _ else _); eexists; reflexivity.
Qed.

Lemma simdize_iterations_images (p : Platform) (c : Compiler)
  (its : list Iteration) :
  forall mapper mapper',
    simdize_iterations p c its mapper = Ok mapper' ->
    (forall k image, In (k, image) mapper -> decorated k image) ->
    forall k image, In (k, image) mapper' -> decorated k image.
Proof.
  induction its as [|i rest IH]; intros mapper mapper' Hrun Hm; simpl in Hrun.
  - inversion Hrun; subst. exact Hm.
  - destruct (simd_of p c i) as [simd|]; cbn [bind] in Hrun; [|discriminate].
    apply (IH _ _ Hrun). intros k image Hin.
    apply (setitem_In_pair Node_eqb Node_eqb_eq) in Hin.
    destruct Hin as [[-> ->]|Hin]; [|now apply Hm].
    now exists i, (as_list (decoration_ignore_deps c) ++ simd).
Qed.

Lemma simdize_trees_images (p : Platform) (c : Compiler)
  (trees : list (list Iteration)) :
  forall mapper mapper',
    simdize_trees p c trees mapper = Ok mapper' ->
    (forall k image, In (k, image) mapper -> decorated k image) ->
    forall k image, In (k, image) mapper' -> decorated k image.
Proof.
  induction trees as [|tree rest IH]; intros mapper mapper' Hrun Hm; simpl in Hrun.
  - inversion Hrun; subst. exact Hm.
  - destruct (simdize_iterations p c _ mapper) as [m1|] eqn:E1;
      cbn [bind] in Hrun; [|discriminate].
    apply (IH _ _ Hrun). now apply (simdize_iterations_images p c _ _ _ E1).
Qed.

Lemma simdize_iterations_ok (p : Platform) (c : Compiler) (its : list Iteration) :
  (forall i j, In i its -> In j (FindSymbols_symbolics [NIteration i]) ->
               measurable p j) ->
  forall mapper, exists mapper', simdize_iterations p c its mapper = Ok mapper'.
Proof.
  induction its as [|i rest IH]; intros H mapper; simpl; [now eexists|].
  destruct (simd_of_ok p c i) as [simd ->]; [intros j; apply H; now left|].
  cbn [bind]. apply IH. intros i' j Hi'. apply H. now right.
Qed.

Lemma simdize_trees_ok (p : Platform) (c : Compiler) (n : Node)
  (trees : list (list Iteration)) :
  (forall f, referenced n f -> measurable p f) ->
  (forall tree, In tree trees -> In tree (retrieve_iteration_tree n)) ->
  forall mapper, exists mapper', simdize_trees p c trees mapper = Ok mapper'.
Proof.
  intros Hn. induction trees as [|tree rest IH]; intros Hsub mapper; simpl;
    [now eexists|].
  destruct (simdize_iterations_ok p c (filter is_Vectorizable tree)) with (mapper := mapper)
    as [m1 ->].
  - intros i j Hi Hj. apply filter_In in Hi. destruct Hi as [Hi _].
    apply Hn. apply (tree_symbols n tree i j); auto. apply Hsub. now left.
  - cbn [bind]. apply IH. intros t Ht. apply Hsub. now right.
Qed.

Section TransformerDecorates.
Variable mapper : Mapper.
Hypothesis images_decorated :
  forall k image, In (k, image) mapper -> decorated k image.

Lemma visit_all_decorated (l : list Node) :
  Forall (fun c => exists c', Transformer mapper c = Some c' /\
                              erase_pragmas c' = erase_pragmas c /\
                              Forall2 extends (loop_pragmas c) (loop_pragmas c')) l ->
  exists l', flat_map (fun c => as_list (Transformer mapper c)) l = l' /\
             map erase_pragmas l' = map erase_pragmas l /\
             Forall2 extends (flat_map loop_pragmas l) (flat_map loop_pragmas l').
Proof.
  induction 1 as [|c l (c' & Hc & He & Hp) _ (l' & Hl & Hel & Hpl)].
  - exists []. repeat split. constructor.
  - exists (c' :: l'). simpl. rewrite Hc, Hl, He, Hel. repeat split.
    now apply Forall2_app.
Qed.

(** A rewrite that only decorates loops gives back the same tree, up to
    the pragmas, and every loop keeps the pragmas it had. *)
Lemma Transformer_decorates (n : Node) :
  exists n', Transformer mapper n = Some n' /\
             erase_pragmas n' = erase_pragmas n /\
             Forall2 extends (loop_pragmas n) (loop_pragmas n').
Proof.
  induction n as [i IH|e|h b f IH|h b f IH|] using Node_induction;
    rewrite Transformer_unfold;
    (destruct (get Node_eqb mapper _) as [image|] eqn:E;
     [apply (get_Some_In_pair Node_eqb Node_eqb_eq) in E;
      apply images_decorated in E;
      destruct E as (i' & extra & Hk & ->); try discriminate|]); cbv zeta.
  - inversion Hk; subst i'. eexists. split; [reflexivity|]. split; [reflexivity|].
    cbn [loop_pragmas with_pragmas pragmas nodes]. constructor.
    + now exists extra.
    + apply Forall2_same, extends_refl.
  - destruct (visit_all_decorated _ IH) as (l' & -> & Hel & Hpl).
    eexists. split; [reflexivity|]. cbn [erase_pragmas with_nodes nodes dim limits
      offsets properties loop_pragmas pragmas]. rewrite Hel. split; [reflexivity|].
    constructor; [apply extends_refl | exact Hpl].
  - eexists. repeat split. constructor.
  - destruct (visit_all_decorated _ IH) as (l' & -> & Hel & Hpl).
    eexists. split; [reflexivity|]. cbn [erase_pragmas loop_pragmas].
    now rewrite Hel.
  - destruct (visit_all_decorated _ IH) as (l' & -> & Hel & Hpl).
    eexists. split; [reflexivity|]. cbn [erase_pragmas loop_pragmas].
    now rewrite Hel.
  - eexists. repeat split. constructor.
Qed.
End TransformerDecorates.

Lemma simdize_decorate_ok (p : Platform) (c : Compiler) (nodes : list Node) :
  (forall node f, In node nodes -> referenced node f -> measurable p f) ->
  exists out,
    simdize_decorate p c nodes = Ok out /\
    map erase_pragmas out = map erase_pragmas nodes /\
    Forall2 extends (flat_map loop_pragmas nodes) (flat_map loop_pragmas out).
Proof.
  induction nodes as [|node rest IH]; intros H; simpl.
  - exists []. repeat split. constructor.
  - destruct (simdize_trees_ok p c node (retrieve_iteration_tree node)) with (mapper := @nil (Node * option Node))
      as [mapper Hm]; [intros f; apply H; now left | auto |].
    rewrite Hm. cbn [bind].
    destruct IH as (out & -> & He & Hp); [intros n f Hn; apply H; now right|].
    cbn [bind].
    destruct (Transformer_decorates mapper) with (n := node) as (n' & -> & Hen & Hpn).
    { apply (simdize_trees_images p c _ _ _ Hm). intros k image []. }
    eexists. split; [reflexivity|]. simpl. rewrite Hen, He. split; [reflexivity|].
    now apply Forall2_app.
Qed.

(** X2: SIMD decoration completes on trees whose referenced arrays have
    at least one dimension and no zero vector width, and it only appends
    pragmas: with the pragmas erased, the decorated nodes and elemental
    functions are the given ones - same loops, limits, properties and
    expressions, none dropped -, and every loop still carries the
    pragmas it had, in order, before any new one. *)
Theorem simdize_only_appends_pragmas :
  forall (p : Platform) (c : Compiler) (state_nodes elemental_functions : list Node),
    (forall node f, In node (state_nodes ++ elemental_functions) ->
                    referenced node f -> measurable p f) ->
    exists nodes elemental,
      _simdize p c state_nodes elemental_functions = Ok (nodes, elemental) /\
      map erase_pragmas nodes = map erase_pragmas state_nodes /\
      map erase_pragmas elemental = map erase_pragmas elemental_functions /\
      Forall2 extends (flat_map loop_pragmas state_nodes)
                      (flat_map loop_pragmas nodes) /\
      Forall2 extends (flat_map loop_pragmas elemental_functions)
                      (flat_map loop_pragmas elemental).
Proof.
  intros p c state_nodes elemental_functions H. unfold _simdize.
  destruct (simdize_decorate_ok p c state_nodes) as (nodes & -> & He1 & Hp1).
  { intros node f Hin. apply H. apply in_or_app. now left. }
  destruct (simdize_decorate_ok p c elemental_functions) as (elemental & -> & He2 & Hp2).
  { intros node f Hin. apply H. apply in_or_app. now right. }
  exists nodes, elemental. cbn [bind]. auto.
Qed.

Lemma simdize_only_appends_pragmas_example :
  exists nodes elemental,
    _simdize Examples.platform Scenarios.compiler [Examples.nest3] []
    = Ok (nodes, elemental) /\
    map erase_pragmas nodes = map erase_pragmas [Examples.nest3] /\
    map erase_pragmas elemental = map erase_pragmas [] /\
    Forall2 extends (flat_map loop_pragmas [Examples.nest3])
                    (flat_map loop_pragmas nodes) /\
    Forall2 extends (flat_map loop_pragmas []) (flat_map loop_pragmas elemental).
Proof.
  apply (simdize_only_appends_pragmas Examples.platform Scenarios.compiler
           [Examples.nest3] []).
  intros node f [<-|[]] (e & He & Hf).
  vm_compute in He. destruct He as [<-|[]].
  vm_compute in Hf. destruct Hf as [<-|[<-|[]]]; split; vm_compute; discriminate.
Defined.

(** X3: the SIMD pragma chosen for a vectorizable loop.  When every array
    referenced in the loop has at least one dimension and no zero vector
    width, the pragma names as aligned exactly the referenced arrays whose
    trailing extent is a multiple of the vector width of their element
    type, in order; but if the width is unknown for the element type of
    any one of them, no array is named, and the plain SIMD pragma is
    chosen, as it is when no array qualifies. *)
Theorem simd_pragma_names_aligned_arrays :
  forall (p : Platform) (c : Compiler) (i : Iteration),
    let handle := FindSymbols_symbolics [NIteration i] in
    (forall j, In j handle -> measurable p j) ->
    simd_of p c i
    = Ok [match (if widths_known p handle
                 then filter (is_aligned p) handle else []) with
          | [] => omp_simd_for
          | aligned =>
              omp_simd_for_aligned (join "," (map fn_name aligned))
                                   (simd_flag_info c)
          end].
Proof.
  intros p c i handle H. unfold simd_of. fold handle.
  rewrite (aligned_of_cases p handle H). cbn [bind].
  now destruct (if widths_known p handle then _ else _).
Qed.

Lemma simd_pragma_names_aligned_arrays_example :
  simd_of Examples.platform Scenarios.compiler Scenarios.row_copy
  = Ok [omp_simd_for_aligned "b" 64] /\
  simd_of Examples.platform Scenarios.compiler Scenarios.row_sum
  = Ok [omp_simd_for].
Proof.
  split.
  - apply (simd_pragma_names_aligned_arrays Examples.platform Scenarios.compiler
             Scenarios.row_copy).
    intros j Hj. vm_compute in Hj.
    destruct Hj as [<-|[<-|[]]]; split; vm_compute; discriminate.
  - apply (simd_pragma_names_aligned_arrays Examples.platform Scenarios.compiler
             Scenarios.row_sum).
    intros j Hj. vm_compute in Hj.
    destruct Hj as [<-|[<-|[<-|[]]]]; split; vm_compute; discriminate.
Defined.

(** ** Nontemporal stores *)

Section TransformerExpressions.
Variable mapper : Mapper.

Hypothesis images_agree :
  forall k image,
    get Node_eqb mapper k = Some image ->
    flat_map FindNodes_Expression (as_list image) = FindNodes_Expression k.

(** A rewrite whose images hold the expressions of their keys leaves the
    expressions of a tree as they were. *)
Lemma Transformer_expressions (n : Node) :
  flat_map FindNodes_Expression (as_list (Transformer mapper n))
  = FindNodes_Expression n.
Proof.
  induction n as [i IH|e|h b f IH|h b f IH|] using Node_induction;
    rewrite Transformer_unfold;
    (destruct (get Node_eqb mapper _) as [image|] eqn:E;
     [now apply images_agree|]);
    cbn [as_list flat_map FindNodes_Expression]; cbv zeta;
    rewrite ?app_nil_r; try reflexivity;
    cbn [with_nodes nodes];
    rewrite flat_map_flat_map; apply flat_map_Forall_eq; exact IH.
Qed.
End TransformerExpressions.

Lemma wrapped_total (mapper : Mapper) :
  (forall k image, In (k, image) mapper -> wrapped k image) ->
  forall k, ~ In (k, None) mapper.
Proof.
  intros H k Hin. destruct (H k None Hin) as (i & h & f & _ & Heq). discriminate.
Qed.

(** A rewrite that only wraps loops gives a tree that executes the same
    points and holds the same expressions. *)
Lemma Transformer_wraps (mapper : Mapper) (n : Node) :
  (forall k image, In (k, image) mapper -> wrapped k image) ->
  exists n',
    Transformer mapper n = Some n' /\
    (forall dims env, executed dims env n' = executed dims env n) /\
    FindNodes_Expression n' = FindNodes_Expression n.
Proof.
  intros H.
  destruct (Transformer_total mapper n (wrapped_total mapper H)) as [n' Hn'].
  exists n'. split; [exact Hn'|]. split.
  - intros dims env.
    assert (Hagree : forall k image env',
               get Node_eqb mapper k = Some image ->
               executed_image dims env' image = executed dims env' k).
    { intros k image env' Hget.
      apply (get_Some_In_pair Node_eqb Node_eqb_eq) in Hget.
      destruct (H k image Hget) as (i & h & f & -> & ->).
      unfold executed_image. cbn [as_list flat_map executed].
      now rewrite !app_nil_r. }
    rewrite <- (Transformer_executed dims mapper Hagree n env), Hn'.
    unfold executed_image. simpl. now rewrite app_nil_r.
  - assert (Hagree : forall k image,
               get Node_eqb mapper k = Some image ->
               flat_map FindNodes_Expression (as_list image)
               = FindNodes_Expression k).
    { intros k image Hget.
      apply (get_Some_In_pair Node_eqb Node_eqb_eq) in Hget.
      destruct (H k image Hget) as (i & h & f & -> & ->).
      cbn [as_list flat_map FindNodes_Expression]. now rewrite !app_nil_r. }
    rewrite <- (Transformer_expressions mapper Hagree n), Hn'.
    simpl. now rewrite app_nil_r.
Qed.

Lemma fence_trees_wrapped (fence : Pragma) (trees : list (list Iteration)) :
  forall mapper,
    (forall k image, In (k, image) mapper -> wrapped k image) ->
    forall k image,
      In (k, image) (fold_left (fence_tree fence) trees mapper) -> wrapped k image.
Proof.
  induction trees as [|tree rest IH]; intros mapper H; [exact H|].
  cbn [fold_left]. apply IH. unfold fence_tree.
  destruct (find is_Parallel tree) as [i|]; [|exact H].
  intros k image Hin. apply (setitem_In_pair Node_eqb Node_eqb_eq) in Hin.
  destruct Hin as [[-> ->]|Hin]; [|now apply H].
  now exists i, [], [fence].
Qed.

Lemma ntstores_tree_wrapped (pragma : Pragma) (tree : list Iteration) :
  forall mapper,
    (forall k image, In (k, image) mapper -> wrapped k image) ->
    forall k image,
      In (k, image) (ntstores_tree pragma mapper tree) -> wrapped k image.
Proof.
  unfold ntstores_tree. induction tree as [|i rest IH]; intros mapper H; [exact H|].
  cbn [fold_left]. apply IH. destruct (is_Vectorizable i); [|exact H].
  intros k image Hin. apply (setitem_In_pair Node_eqb Node_eqb_eq) in Hin.
  destruct Hin as [[-> ->]|Hin]; [|now apply H].
  now exists i, [pragma], [].
Qed.

Lemma ntstores_trees_wrapped (pragma : Pragma) (trees : list (list Iteration)) :
  forall mapper,
    (forall k image, In (k, image) mapper -> wrapped k image) ->
    forall k image,
      In (k, image) (fold_left (ntstores_tree pragma) trees mapper) ->
      wrapped k image.
Proof.
  induction trees as [|tree rest IH]; intros mapper H; [exact H|].
  cbn [fold_left]. apply IH. now apply ntstores_tree_wrapped.
Qed.

Lemma ntstores_node_keeps (pragma fence : Pragma) (node : Node) :
  exists out,
    ntstores_node pragma fence node = Some out /\
    (forall dims env, executed dims env out = executed dims env node) /\
    FindNodes_Expression out = FindNodes_Expression node.
Proof.
  unfold ntstores_node.
  destruct (Transformer_wraps
              (fold_left (fence_tree fence) (retrieve_iteration_tree node) []) node)
    as (transformed & -> & Hex1 & Hfn1).
  { apply fence_trees_wrapped. intros k image []. }
  cbv zeta.
  destruct (Transformer_wraps
              (fold_left (ntstores_tree pragma)
                         (retrieve_iteration_tree transformed) []) transformed)
    as (out & -> & Hex2 & Hfn2).
  { apply ntstores_trees_wrapped. intros k image []. }
  exists out. split; [reflexivity|]. split.
  - intros dims env. now rewrite Hex2, Hex1.
  - now rewrite Hfn2, Hfn1.
Qed.

Lemma ntstores_decorate_keeps (pragma fence : Pragma) (nodes : list Node) :
  (forall dims env,
      map (executed dims env) (ntstores_decorate pragma fence nodes)
      = map (executed dims env) nodes) /\
  map FindNodes_Expression (ntstores_decorate pragma fence nodes)
  = map FindNodes_Expression nodes.
Proof.
  unfold ntstores_decorate. induction nodes as [|node rest [IHe IHf]]; [now split|].
  destruct (ntstores_node_keeps pragma fence node) as (out & Hout & Hex & Hfn).
  cbn [flat_map map]. rewrite Hout. cbn [as_list app]. split.
  - intros dims env. cbn [map]. now rewrite Hex, IHe.
  - cbn [map]. now rewrite Hfn, IHf.
Qed.

(** X4: the nontemporal-store pass.  When the compiler has no
    nontemporal-store pragma or no store fence, the pass returns the
    empty update.  Otherwise it records the flag 'ntstores' and hands
    back, for each node and each elemental function, one tree that
    executes the same index points in the same order and holds the same
    expressions in the same order as the tree it was given: the pass only
    wraps loops in lists carrying the pragma or the fence. *)
Theorem nontemporal_stores_keeps_execution :
  forall (c : Compiler) (state_nodes elemental_functions : list Node),
    match _nontemporal_stores c state_nodes elemental_functions with
    | None => decoration_ntstores c = None \/ decoration_storefence c = None
    | Some d =>
        decoration_ntstores c <> None /\ decoration_storefence c <> None /\
        dec_flags d = ["ntstores"%string] /\
        (forall dims env,
            map (executed dims env) (dec_nodes d)
            = map (executed dims env) state_nodes /\
            map (executed dims env) (dec_elemental_functions d)
            = map (executed dims env) elemental_functions) /\
        map FindNodes_Expression (dec_nodes d)
        = map FindNodes_Expression state_nodes /\
        map FindNodes_Expression (dec_elemental_functions d)
        = map FindNodes_Expression elemental_functions
    end.
Proof.
  intros c state_nodes elemental_functions. unfold _nontemporal_stores.
  destruct (decoration_ntstores c) as [pragma|]; [|now left].
  destruct (decoration_storefence c) as [fence|]; [|now right].
  cbn [dec_flags dec_nodes dec_elemental_functions].
  destruct (ntstores_decorate_keeps pragma fence state_nodes) as [He1 Hf1].
  destruct (ntstores_decorate_keeps pragma fence elemental_functions) as [He2 Hf2].
  repeat split; try discriminate; auto.
Qed.

(** Without a store fence the pass hands back the empty update, whatever
    the trees. *)
Lemma nontemporal_stores_without_fence (state_nodes elemental_functions : list Node) :
  _nontemporal_stores Scenarios.no_fence state_nodes elemental_functions = None.
Proof. reflexivity. Qed.

(** ** OpenMP decoration: denormals and untouched trees *)

Lemma FindNodes_Denormals_all (n d : Node) :
  In d (FindNodes_Denormals n) -> d = NDenormals.
Proof.
  induction n as [i IH|e|h b f IH|h b f IH|] using Node_induction;
    cbn [FindNodes_Denormals];
    try (intros Hin; apply in_flat_map in Hin; destruct Hin as (c & Hc & Hd);
         rewrite Forall_forall in IH; exact (IH c Hc Hd)).
  - intros [].
  - intros [<-|[]]. reflexivity.
Qed.

Lemma get_update_denormals (pairs : list (Node * option Node)) :
  pairs <> [] ->
  (forall kv, In kv pairs -> kv = (NDenormals, None)) ->
  forall d, get Node_eqb (update Node_eqb d pairs) NDenormals = Some None.
Proof.
  unfold update. induction pairs as [|kv rest IH]; intros Hne Hall d;
    [contradiction|].
  cbn [fold_left]. rewrite (Hall kv (or_introl eq_refl)). cbn [fst snd].
  destruct rest as [|kv' rest'].
  - cbn [fold_left]. apply (get_setitem_same Node_eqb Node_eqb_eq).
  - apply IH; [discriminate|]. intros kv0 Hin. apply Hall. now right.
Qed.

Lemma ompize_tree_get_denormals (p : Platform) (t : Thresholds)
  (st : Mapper * list Function) (tree : list Iteration) :
  get Node_eqb (fst (ompize_tree p t st tree)) NDenormals
  = get Node_eqb (fst st) NDenormals.
Proof.
  destruct st as [mapper pvt]. unfold ompize_tree.
  destruct (filter_iterations tree omp_key) as [|root rest]; [reflexivity|].
  cbn [fst]. apply (get_setitem_other Node_eqb Node_eqb_eq). discriminate.
Qed.

Lemma ompize_selected_get_denormals (p : Platform) (t : Thresholds)
  (state_nodes : list Node) (node : Node) :
  flat_map FindNodes_Denormals state_nodes <> [] ->
  get Node_eqb (fst (ompize_selected p t state_nodes node)) NDenormals = Some None.
Proof.
  intros Hne. unfold ompize_selected.
  set (st0 := (update Node_eqb [] _, @nil Function)).
  assert (H0 : get Node_eqb (fst st0) NDenormals = Some None).
  { apply get_update_denormals.
    - intros Hnil. apply map_eq_nil in Hnil. contradiction.
    - intros kv Hin. apply in_map_iff in Hin. destruct Hin as (d & <- & Hd).
      apply in_flat_map in Hd. destruct Hd as (n & _ & Hd).
      now rewrite (FindNodes_Denormals_all n d Hd). }
  revert H0. generalize st0.
  induction (retrieve_iteration_tree node) as [|tree trees IH]; intros st H;
    [exact H|].
  cbn [fold_left]. apply IH. now rewrite ompize_tree_get_denormals.
Qed.

Lemma flat_map_nil {A B} (f : A -> list B) (l : list A) :
  flat_map f l = [] <-> Forall (fun a => f a = []) l.
Proof.
  induction l as [|a l IH]; simpl.
  - split; [constructor | reflexivity].
  - split.
    + intros H. apply app_eq_nil in H. destruct H. constructor; [|apply IH]; auto.
    + intros H. inversion H as [|? ? Ha Hl]; subst. rewrite Ha. simpl.
      now apply IH.
Qed.

Section TransformerDenormals.
Variable mapper : Mapper.
Hypothesis images_clean :
  forall k v, get Node_eqb mapper k = Some (Some v) -> denormals_outside v = [].

(** Where denormal instructions are dropped and the images hold none
    outside a region, the rewritten tree holds none outside a region. *)
Lemma Transformer_denormals (n : Node) :
  get Node_eqb mapper NDenormals = Some None \/ FindNodes_Denormals n = [] ->
  flat_map denormals_outside (as_list (Transformer mapper n)) = [].
Proof.
  assert (Hchildren : forall l,
             Forall (fun c =>
                       get Node_eqb mapper NDenormals = Some None \/
                       FindNodes_Denormals c = [] ->
                       flat_map denormals_outside (as_list (Transformer mapper c)) = []) l ->
             get Node_eqb mapper NDenormals = Some None \/
             flat_map FindNodes_Denormals l = [] ->
             flat_map denormals_outside
               (flat_map (fun c => as_list (Transformer mapper c)) l) = []).
  { intros l Hl Hor. rewrite flat_map_flat_map. apply flat_map_nil.
    assert (Hno : get Node_eqb mapper NDenormals = Some None \/
                  Forall (fun c => FindNodes_Denormals c = []) l).
    { destruct Hor as [H|H]; [now left | right; now apply flat_map_nil]. }
    clear Hor. induction Hl as [|c l Hc _ IH]; constructor.
    - apply Hc. destruct Hno as [H|H]; [now left | right; now inversion H].
    - apply IH. destruct Hno as [H|H]; [now left | right; now inversion H]. }
  induction n as [i IH|e|h b f IH|h b f IH|] using Node_induction; intros Hor;
    rewrite Transformer_unfold;
    (match goal with
     | |- context [get Node_eqb mapper ?k] =>
         destruct (get Node_eqb mapper k) as [[v|]|] eqn:E
     end;
     [simpl; rewrite ?app_nil_r; exact (images_clean _ v E)
     | reflexivity |]);
    cbv zeta; cbn [as_list flat_map denormals_outside]; rewrite ?app_nil_r;
    try reflexivity.
  - cbn [with_nodes nodes]. now apply Hchildren.
  - now apply Hchildren.
  - destruct (is_par_region h); [reflexivity|]. now apply Hchildren.
  - destruct Hor as [H|H]; [congruence | discriminate].
Qed.
End TransformerDenormals.

Lemma redirect_images (par_region : Node) (mapper : Mapper) (k v : Node) :
  NoDup (keys mapper) ->
  get Node_eqb (redirect par_region mapper) k = Some (Some v) -> v = par_region.
Proof.
  intros Hnd. unfold redirect. rewrite get_redirect_fold by exact Hnd.
  destruct (get Node_eqb mapper k) as [[v0|]|]; try discriminate.
  destruct (node_is_Remainder v0); [discriminate|]. now intros [= <-].
Qed.

Lemma redirect_get_denormals (par_region : Node) (mapper : Mapper) :
  NoDup (keys mapper) ->
  get Node_eqb mapper NDenormals = Some None ->
  get Node_eqb (redirect par_region mapper) NDenormals = Some None.
Proof.
  intros Hnd H. unfold redirect. rewrite get_redirect_fold by exact Hnd.
  now rewrite H.
Qed.

(** X5: after OpenMP decoration no denormal instruction is left outside a
    parallel region, whatever the trees, the platform and the
    thresholds. *)
Theorem ompize_leaves_no_denormals_outside_regions :
  forall (p : Platform) (t : Thresholds) (state_nodes : list Node),
    flat_map denormals_outside (_ompize p t state_nodes) = [].
Proof.
  intros p t state_nodes. unfold _ompize. rewrite flat_map_flat_map.
  apply flat_map_nil. apply Forall_forall. intros node Hnode.
  unfold ompize_node.
  set (st := ompize_selected p t state_nodes node).
  assert (Hnd : NoDup (keys (fst st))) by apply ompize_selected_NoDup.
  apply Transformer_denormals.
  - intros k v Hget. apply redirect_images in Hget; [|exact Hnd]. subst v.
    unfold par_region_of. now destruct st.
  - destruct (flat_map FindNodes_Denormals state_nodes) as [|d ds] eqn:E.
    + right. apply flat_map_nil in E. rewrite Forall_forall in E. now apply E.
    + left. apply redirect_get_denormals; [exact Hnd|].
      apply ompize_selected_get_denormals. rewrite E. discriminate.
Qed.

Lemma ompize_selected_none (p : Platform) (t : Thresholds)
  (state_nodes : list Node) (node : Node) :
  flat_map FindNodes_Denormals state_nodes = [] ->
  no_omp_candidate node ->
  ompize_selected p t state_nodes node = ([], []).
Proof.
  intros Hden Hnone. unfold ompize_selected. rewrite Hden.
  change (update Node_eqb [] (map (fun i : Node => (i, @None Node)) []))
    with (@nil (Node * option Node)).
  unfold no_omp_candidate in Hnone.
  induction (retrieve_iteration_tree node) as [|tree trees IH]; [reflexivity|].
  cbn [fold_left].
  match goal with
  | |- fold_left _ _ ?s = _ => assert (Htree : s = ([], []))
  end.
  { unfold ompize_tree. destruct tree as [|root rest]; [reflexivity|].
    cbn [filter_iterations].
    now rewrite (Hnone (root :: rest) root rest (or_introl eq_refl) eq_refl). }
  rewrite Htree. apply IH. intros tree' root rest Hin. apply Hnone. now right.
Qed.

(** X6: a tree without a qualifying nest stays in the output of the
    OpenMP pass as it is.  When the state holds no denormal instruction
    and no iteration tree of any node starts with a loop that is parallel
    and not vectorizable, the pass returns the nodes unchanged: no tree
    is dropped and no region is built. *)
Theorem ompize_keeps_trees_without_candidates :
  forall (p : Platform) (t : Thresholds) (state_nodes : list Node),
    flat_map FindNodes_Denormals state_nodes = [] ->
    (forall node, In node state_nodes -> no_omp_candidate node) ->
    _ompize p t state_nodes = state_nodes.
Proof.
  intros p t state_nodes Hden Hnone. unfold _ompize.
  transitivity (flat_map (fun node : Node => [node]) state_nodes).
  - apply flat_map_Forall_eq. apply Forall_forall. intros node Hin.
    unfold ompize_node.
    rewrite (ompize_selected_none p t state_nodes node Hden (Hnone node Hin)).
    cbn [fst redirect fold_left]. now rewrite Transformer_empty.
  - rewrite flat_map_singleton. apply map_id.
Qed.

Lemma ompize_keeps_trees_without_candidates_example :
  _ompize Examples.platform Examples.thresholds [NIteration Examples.loop_k]
  = [NIteration Examples.loop_k].
Proof.
  apply (ompize_keeps_trees_without_candidates Examples.platform Examples.thresholds
           [NIteration Examples.loop_k]).
  - reflexivity.
  - intros node [<-|[]] tree root rest Hin ->. vm_compute in Hin.
    destruct Hin as [H|[]]. inversion H. reflexivity.
Defined.

(** ** OpenMP decoration: a parallel nest *)

Lemma update_denormals (pairs : list (Node * option Node)) :
  (forall kv, In kv pairs -> kv = (NDenormals, None)) ->
  update Node_eqb [] pairs
  = match pairs with [] => [] | _ => [(NDenormals, None)] end.
Proof.
  intros Hall. destruct pairs as [|kv rest]; [reflexivity|].
  unfold update. cbn [fold_left]. rewrite (Hall kv (or_introl eq_refl)).
  cbn [fst snd setitem].
  assert (Hrest : forall kv', In kv' rest -> kv' = (NDenormals, @None Node))
    by (intros; apply Hall; now right).
  clear Hall. induction rest as [|kv' rest IH]; [reflexivity|].
  cbn [fold_left]. rewrite (Hrest kv' (or_introl eq_refl)). cbn [fst snd].
  change (setitem Node_eqb [(NDenormals, None)] NDenormals None)
    with [(NDenormals, @None Node)].
  apply IH. intros; apply Hrest; now right.
Qed.

Lemma denormal_entries (state_nodes : list Node) :
  let m0 := update Node_eqb []
              (map (fun i : Node => (i, @None Node))
                   (flat_map FindNodes_Denormals state_nodes)) in
  forall kv, In kv m0 -> kv = (NDenormals, None).
Proof.
  intros m0 kv Hin. subst m0. rewrite update_denormals in Hin.
  - destruct (map _ _); [contradiction|]. now destruct Hin as [<-|[]].
  - intros kv' Hin'. apply in_map_iff in Hin'. destruct Hin' as (d & <- & Hd).
    apply in_flat_map in Hd. destruct Hd as (n & _ & Hd).
    now rewrite (FindNodes_Denormals_all n d Hd).
Qed.

Lemma setitem_last {K V} (eqb : K -> K -> bool)
  (eqb_eq : forall a b, eqb a b = true <-> a = b) (d : list (K * V)) k v0 v :
  ~ In k (keys d) -> setitem eqb (d ++ [(k, v0)]) k v = d ++ [(k, v)].
Proof.
  unfold keys. induction d as [|[k' v'] d IH]; simpl; intros H.
  - now rewrite (eqb_refl eqb eqb_eq).
  - rewrite (eqb_neq eqb eqb_eq) by (intros ->; tauto).
    f_equal. apply IH. tauto.
Qed.

(** The trees of a loop all start with it, and there is at least one. *)
Lemma trees_of_loop (root : Iteration) :
  retrieve_iteration_tree (NIteration root) <> [] /\
  forall tree, In tree (retrieve_iteration_tree (NIteration root)) ->
               exists rest, tree = root :: rest.
Proof.
  cbn [retrieve_iteration_tree].
  destruct (flat_map retrieve_iteration_tree (nodes root)) as [|t0 ts].
  - split; [discriminate|]. intros tree [<-|[]]. now exists [].
  - split; [discriminate|]. intros tree Hin. apply in_map_iff in Hin.
    destruct Hin as (rest & <- & _). now exists rest.
Qed.

Lemma omp_pragma_cases (p : Platform) (t : Thresholds) (n : nat) :
  omp_pragma p t n = omp_for \/ exists m, omp_pragma p t n = omp_collapse m.
Proof.
  unfold omp_pragma. destruct (_ || _); [now left | right; now exists n].
Qed.

(** The mapper after the trees of a parallel loop were visited: the
    denormal entries, then the loop with its pragma. *)
Lemma ompize_selected_loop (p : Platform) (t : Thresholds)
  (state_nodes : list Node) (root : Iteration) :
  omp_key root = true ->
  let m0 := update Node_eqb []
              (map (fun i : Node => (i, @None Node))
                   (flat_map FindNodes_Denormals state_nodes)) in
  exists pragma,
    (pragma = omp_for \/ exists n, pragma = omp_collapse n) /\
    fst (ompize_selected p t state_nodes (NIteration root))
    = m0 ++ [(NIteration root,
              Some (NIteration (with_pragmas root (pragmas root ++ [pragma]))))].
Proof.
  intros Hkey m0. unfold ompize_selected. fold m0.
  destruct (trees_of_loop root) as [Hne Hall].
  assert (Hfresh : ~ In (NIteration root) (keys m0)).
  { unfold keys. intros Hin. apply in_map_iff in Hin.
    destruct Hin as (kv & Hk & Hin).
    rewrite (denormal_entries state_nodes kv Hin) in Hk. discriminate. }
  assert (Hstep : forall st tree,
             In tree (retrieve_iteration_tree (NIteration root)) ->
             fst st = m0 \/
             (exists v, fst st = m0 ++ [(NIteration root, v)]) ->
             exists pragma,
               (pragma = omp_for \/ exists n, pragma = omp_collapse n) /\
               fst (ompize_tree p t st tree)
               = m0 ++ [(NIteration root,
                         Some (NIteration
                                 (with_pragmas root (pragmas root ++ [pragma]))))]).
  { intros [mapper pvt] tree Hin Hst. destruct (Hall tree Hin) as [rest ->].
    unfold ompize_tree. cbn [filter_iterations]. rewrite Hkey. cbn [fst] in *.
    eexists. split; [apply omp_pragma_cases|].
    destruct Hst as [->|[v ->]].
    - now apply (keys_setitem_new Node_eqb Node_eqb_eq).
    - now apply (setitem_last Node_eqb Node_eqb_eq). }
  revert Hne Hall Hstep.
  generalize (retrieve_iteration_tree (NIteration root)). intros trees Hne _ Hstep.
  assert (Hgen : forall st,
             fst st = m0 \/ (exists v, fst st = m0 ++ [(NIteration root, v)]) ->
             trees <> [] ->
             exists pragma,
               (pragma = omp_for \/ exists n, pragma = omp_collapse n) /\
               fst (fold_left (ompize_tree p t) trees st)
               = m0 ++ [(NIteration root,
                         Some (NIteration
                                 (with_pragmas root (pragmas root ++ [pragma]))))]).
  { clear Hne. induction trees as [|tree rest IH]; intros st Hst Hne;
      [contradiction|].
    cbn [fold_left].
    destruct (Hstep st tree (or_introl eq_refl) Hst) as (pragma & Hp & Heq).
    destruct rest as [|tree' rest'].
    - cbn [fold_left]. now exists pragma.
    - apply IH.
      + intros st' tree0 Hin. apply Hstep. now right.
      + right. eexists. exact Heq.
      + discriminate. }
  apply Hgen; [now left | exact Hne].
Qed.

Lemma executed_denormals (dims : list string) (env : Env) (state_nodes : list Node) :
  flat_map (executed dims env) (flat_map FindNodes_Denormals state_nodes) = [].
Proof.
  apply flat_map_nil. apply Forall_forall. intros d Hd.
  apply in_flat_map in Hd. destruct Hd as (n & _ & Hd).
  now rewrite (FindNodes_Denormals_all n d Hd).
Qed.

Lemma values_denormals (state_nodes : list Node) :
  flat_map (fun v : option Node => as_list v)
    (values (update Node_eqb []
               (map (fun i : Node => (i, @None Node))
                    (flat_map FindNodes_Denormals state_nodes)))) = [].
Proof.
  apply flat_map_nil. apply Forall_forall. intros v Hv. unfold values in Hv.
  apply in_map_iff in Hv. destruct Hv as (kv & <- & Hin).
  now rewrite (denormal_entries state_nodes kv Hin).
Qed.

(** X7: what the OpenMP pass makes of a tree that is a loop, parallel,
    not vectorizable and not a remainder loop.  The tree becomes one
    parallel region whose body is the denormal instructions of the state
    followed by that loop, rebuilt with a single pragma appended - the
    plain [for] or a [collapse] -; its children are untouched, and the
    region executes the index points the loop executed, in the same
    order. *)
Theorem ompize_wraps_parallel_loop :
  forall (p : Platform) (t : Thresholds) (state_nodes : list Node) (root : Iteration),
    omp_key root = true ->
    is_Remainder root = false ->
    exists pragma clause,
      (pragma = omp_for \/ exists n, pragma = omp_collapse n) /\
      ompize_node p t state_nodes (NIteration root)
      = Some (NBlock [omp_par_region clause]
                     (flat_map FindNodes_Denormals state_nodes
                      ++ [NIteration (with_pragmas root (pragmas root ++ [pragma]))])
                     []) /\
      forall dims env,
        executed_image dims env (ompize_node p t state_nodes (NIteration root))
        = executed dims env (NIteration root).
Proof.
  intros p t state_nodes root Hkey Hrem.
  destruct (ompize_selected_loop p t state_nodes root Hkey) as (pragma & Hp & Hm).
  cbv zeta in Hm.
  assert (Hnd := ompize_selected_NoDup p t state_nodes (NIteration root)).
  unfold ompize_node.
  destruct (ompize_selected p t state_nodes (NIteration root)) as [mapper pvt] eqn:Est.
  cbn [fst] in *.
  set (root' := NIteration (with_pragmas root (pragmas root ++ [pragma]))) in *.
  set (par_region := par_region_of state_nodes (mapper, pvt)).
  assert (Hregion : par_region
                    = NBlock [omp_par_region
                                (private_clause (sorted_set (map fn_name pvt)))]
                             (flat_map FindNodes_Denormals state_nodes ++ [root']) []).
  { subst par_region. unfold par_region_of. rewrite Hm. unfold values.
    rewrite map_app, flat_map_app. fold (values (V := option Node)
      (update Node_eqb [] (map (fun i : Node => (i, @None Node))
                               (flat_map FindNodes_Denormals state_nodes)))).
    now rewrite values_denormals. }
  assert (Hget : get Node_eqb (redirect par_region mapper) (NIteration root)
                 = Some (Some par_region)).
  { unfold redirect. rewrite get_redirect_fold by exact Hnd.
    rewrite (get_In Node_eqb Node_eqb_eq mapper (NIteration root) (Some root'));
      [| exact Hnd | rewrite Hm; apply in_or_app; right; now left].
    subst root'. cbn [node_is_Remainder]. unfold is_Remainder in *.
    cbn [with_pragmas properties]. now rewrite Hrem. }
  assert (Hout : Transformer (redirect par_region mapper) (NIteration root)
                 = Some par_region).
  { rewrite Transformer_unfold. now rewrite Hget. }
  exists pragma, (private_clause (sorted_set (map fn_name pvt))).
  split; [exact Hp|]. split; [now rewrite Hout, Hregion|].
  intros dims env. rewrite Hout, Hregion. unfold executed_image.
  cbn [as_list flat_map executed]. rewrite app_nil_r, flat_map_app.
  rewrite executed_denormals. subst root'. cbn [app flat_map executed].
  now rewrite app_nil_r.
Qed.

Lemma ompize_wraps_parallel_loop_example :
  exists pragma clause,
    (pragma = omp_for \/ exists n, pragma = omp_collapse n) /\
    ompize_node Examples.platform Examples.thresholds
                [NDenormals; Examples.nest3] Examples.nest3
    = Some (NBlock [omp_par_region clause]
                   (flat_map FindNodes_Denormals [NDenormals; Examples.nest3]
                    ++ [NIteration (with_pragmas Examples.loop_i
                                      (pragmas Examples.loop_i ++ [pragma]))])
                   []) /\
    forall dims env,
      executed_image dims env
        (ompize_node Examples.platform Examples.thresholds
                     [NDenormals; Examples.nest3] Examples.nest3)
      = executed dims env Examples.nest3.
Proof.
  apply (ompize_wraps_parallel_loop Examples.platform Examples.thresholds
           [NDenormals; Examples.nest3] Examples.loop_i); reflexivity.
Defined.

(** ** OpenMP decoration: the pragma of a shared root *)






(** What the pass returns for the two nests: [collapse(2)] on the root of
    the perfect nest, and the plain pragma on the shared root, although
    its first tree has two candidates. *)
Lemma ompize_of_nest3 :
  _ompize Examples.platform Examples.thresholds [Examples.nest3]
  = [NBlock [omp_par_region ""]
            [NIteration (with_pragmas Examples.loop_i [omp_collapse 2])] []].
Proof. reflexivity. Qed.



(** ** Loop fission: the groups built *)

Lemma grouper_fuel_groups {A} (n : nat) :
  1 <= n ->
  forall fuel (l : list A),
    length l <= fuel ->
    concat (grouper_fuel fuel l n) = l /\
    Forall (fun g => 1 <= length g <= n) (grouper_fuel fuel l n).
Proof.
  intros Hn. induction fuel as [|fuel IH]; intros l Hlen.
  - destruct l; [split; [reflexivity | constructor] | simpl in Hlen; lia].
  - destruct l as [|x l']; [split; [reflexivity | constructor]|].
    cbn [grouper_fuel].
    destruct (IH (skipn n (x :: l'))) as [Hc Hf].
    { rewrite length_skipn. cbn [length] in *. lia. }
    split.
    + cbn [concat]. rewrite Hc. apply firstn_skipn.
    + constructor; [|exact Hf]. rewrite length_firstn. cbn [length]. lia.
Qed.

(** Grouping by a positive size splits a list into consecutive non-empty
    groups of at most that size. *)
Lemma grouper_groups {A} (l : list A) (n : nat) :
  1 <= n ->
  concat (grouper l n) = l /\ Forall (fun g => 1 <= length g <= n) (grouper l n).
Proof.
  intros Hn. unfold grouper. destruct n as [|n']; [lia|].
  apply grouper_fuel_groups; lia.
Qed.

Lemma expressions_of_length (ns : list Node) :
  length (expressions_of ns) <= length ns.
Proof.
  unfold expressions_of. induction ns as [|n ns IH]; simpl; [lia|].
  rewrite length_app. destruct n; simpl; lia.
Qed.

(** A body with as many expressions as nodes is made of expressions. *)
Lemma expressions_of_all (ns : list Node) :
  length (expressions_of ns) = length ns ->
  ns = map NExpression (expressions_of ns).
Proof.
  induction ns as [|n ns IH]; [reflexivity|].
  pose proof (expressions_of_length ns) as Hle.
  unfold expressions_of in *. simpl. rewrite length_app.
  destruct n; simpl; intros H; try lia.
  f_equal. apply IH. lia.
Qed.

Lemma In_expressions_of (ns : list Node) (e : Expression) :
  In e (expressions_of ns) -> In (NExpression e) ns.
Proof.
  unfold expressions_of. intros H. apply in_flat_map in H.
  destruct H as (n & Hn & He). destruct n; try contradiction.
  destruct He as [<-|[]]. exact Hn.
Qed.

Lemma map_fst_combine_same {A B} (l1 : list A) (l2 : list B) (f : A * B -> B) :
  (forall ab, f ab = snd ab) -> length l1 = length l2 ->
  map f (combine l1 l2) = l2.
Proof.
  intros Hf. revert l2. induction l1 as [|a l1 IH]; intros [|b l2] Hlen;
    simpl in *; try discriminate; [reflexivity|].
  rewrite Hf. simpl. f_equal. apply IH. congruence.
Qed.

(** What a fissioned tree is replaced with. *)
Lemma fission_tree_groups :
  forall (listed : list Function -> list Function)
         (t : Thresholds) (tree : list Iteration) (k v : Node),
    1 <= min_fission t ->
    fission_tree listed t tree = Ok (Some (k, v)) ->
    exists candidate groups,
      item_last tree = Ok candidate /\
      2 <= length tree /\
      k = NIteration candidate /\
      v = NList [] (map (fission_group candidate) groups) [] /\
      nodes candidate = map NExpression (expressions_of (nodes candidate)) /\
      max_fission t <= length (nodes candidate) /\
      Forall (fun g => 1 <= length g <= min_fission t) groups /\
      map dtype (concat groups) = map dtype (expressions_of (nodes candidate)) /\
      length (concat groups) = length (nodes candidate).
Proof.
  intros listed t tree k v Hmin. unfold fission_tree, item_last.
  destruct (Nat.leb_spec (length tree) 1) as [|Hdepth]; [discriminate|].
  destruct (rev tree) as [|candidate r]; [discriminate|].
  destruct (Nat.ltb_spec (length (expressions_of (nodes candidate))) (max_fission t))
    as [|Hmax]; [discriminate|].
  destruct (Nat.eqb_spec (length (expressions_of (nodes candidate)))
                         (length (nodes candidate))) as [Hall|];
    cbn [negb]; [|discriminate].
  destruct (expressions_of (nodes candidate)) as [|e0 es] eqn:Ee; [discriminate|].
  rewrite <- Ee in *.
  destruct (listed _) as [|handle fs]; [discriminate|].
  destruct (match rev (fn_indices handle) with [] => _ | _ => _ end) as [dim|];
    cbn [bind]; [|discriminate].
  destruct (match rev (fn_shape handle) with [] => _ | _ => _ end) as [size|];
    cbn [bind]; [|discriminate].
  destruct (any_other_dim dim (handle :: fs)) as [[|]|]; cbn [bind];
    try discriminate.
  destruct (Nat.eqb_spec
              (length (promote_scalar_expressions
                         (map expr (expressions_of (nodes candidate)))
                         [size] [dim] true))
              (length (expressions_of (nodes candidate)))) as [Hlen|];
    cbn [negb]; [|discriminate].
  intros H. inversion H; subst k v. clear H.
  set (rebuilt :=
         map (fun se : Equation * Expression => mkExpression (fst se) (dtype (snd se)))
             (combine (promote_scalar_expressions
                         (map expr (expressions_of (nodes candidate)))
                         [size] [dim] true)
                      (expressions_of (nodes candidate)))).
  destruct (grouper_groups rebuilt (min_fission t) Hmin) as [Hconcat Hgroups].
  exists candidate, (grouper rebuilt (min_fission t)).
  split; [reflexivity|]. split; [lia|]. split; [reflexivity|].
  split; [reflexivity|]. split; [now apply expressions_of_all|].
  split; [lia|]. split; [exact Hgroups|].
  rewrite Hconcat. subst rebuilt. split.
  - rewrite map_map. cbn [dtype].
    rewrite <- (map_map (fun se : Equation * Expression => snd se) dtype).
    f_equal. now apply map_fst_combine_same.
  - rewrite length_map, length_combine, Hlen, <- Hall. lia.
Qed.


(** X8: what loop fission puts in place of a nest it transforms, when the
    group size is at least 1, whatever the order in which the set lists
    the referenced functions.  The nest has at least two loops, the body of
    its innermost loop is made of expressions only, at least
    [max_fission] of them, and that loop is replaced by a list of loops,
    each the innermost loop marked elemental around a group of at least
    one and at most [min_fission] statements; taken together the groups
    hold one statement per original statement, in order and with the
    same dtype, so the statement count is unchanged. *)
Theorem fission_groups_statements :
  forall (listed : list Function -> list Function)
         (t : Thresholds) (tree : list Iteration) (k v : Node),
    1 <= min_fission t ->
    fission_tree listed t tree = Ok (Some (k, v)) ->
    exists candidate groups,
      item_last tree = Ok candidate /\
      2 <= length tree /\
      k = NIteration candidate /\
      v = NList [] (map (fission_group candidate) groups) [] /\
      nodes candidate = map NExpression (expressions_of (nodes candidate)) /\
      max_fission t <= length (nodes candidate) /\
      Forall (fun g => 1 <= length g <= min_fission t) groups /\
      map dtype (concat groups) = map dtype (expressions_of (nodes candidate)) /\
      length (concat groups) = length (nodes candidate).
Proof.
  intros listed t tree k v Hmin Hfission.
  exact (fission_tree_groups listed t tree k v Hmin Hfission).
Qed.

Lemma fission_groups_statements_example :
  exists candidate groups,
    item_last Examples.mixed_tree = Ok candidate /\
    2 <= length Examples.mixed_tree /\
    fst Scenarios.fissioned_copy = NIteration candidate /\
    snd Scenarios.fissioned_copy
    = NList [] (map (fission_group candidate) groups) [] /\
    nodes candidate = map NExpression (expressions_of (nodes candidate)) /\
    max_fission Examples.thresholds <= length (nodes candidate) /\
    Forall (fun g => 1 <= length g <= min_fission Examples.thresholds) groups /\
    map dtype (concat groups) = map dtype (expressions_of (nodes candidate)) /\
    length (concat groups) = length (nodes candidate).
Proof.
  apply (fission_groups_statements first_use_order Examples.thresholds
           Examples.mixed_tree
           (fst Scenarios.fissioned_copy) (snd Scenarios.fissioned_copy)).
  - vm_compute. lia.
  - vm_compute. reflexivity.
Defined.

(** ** Loop fission: completion *)

(** On a tree of [node], fission raises nothing when the statement
    threshold is positive and the referenced arrays have a rank. *)
Lemma fission_tree_ok (listed : list Function -> list Function)
  (t : Thresholds) (node : Node) (tree : list Iteration) :
  lists_the_set listed ->
  1 <= max_fission t ->
  (forall f, referenced node f -> has_rank f) ->
  In tree (retrieve_iteration_tree node) ->
  exists entry, fission_tree listed t tree = Ok entry.
Proof.
  intros Hl Hmax Hrank Htree. unfold fission_tree.
  destruct (length tree <=? 1); [now eexists|].
  destruct (rev tree) as [|candidate r] eqn:Er; [now eexists|].
  assert (Hcand : In candidate tree).
  { apply in_rev. rewrite Er. now left. }
  destruct (Nat.ltb_spec (length (expressions_of (nodes candidate))) (max_fission t))
    as [|Hcount]; [now eexists|].
  destruct (negb _); [now eexists|].
  destruct (expressions_of (nodes candidate)) as [|e0 es] eqn:Ee;
    [simpl in Hcount; lia|].
  rewrite <- Ee in *. clear Ee e0 es.
  assert (Hfuncs : forall f,
             In f (listed (flat_map functions (expressions_of (nodes candidate)))) ->
             has_rank f).
  { intros f Hf. apply (proj1 (proj2 (Hl _) f)) in Hf. apply in_flat_map in Hf.
    destruct Hf as (e & He & Hf). apply Hrank. exists e. split; [|exact Hf].
    apply (tree_expressions node tree candidate e Htree Hcand).
    cbn [FindNodes_Expression]. apply in_flat_map.
    exists (NExpression e). split; [now apply In_expressions_of | now left]. }
  destruct (listed _) as [|handle fs]; [now eexists|].
  destruct (Hfuncs handle (or_introl eq_refl)) as [Hi Hs].
  destruct (item_last_nonempty (fn_indices handle) Hi) as [dim ->].
  destruct (item_last_nonempty (fn_shape handle) Hs) as [size ->].
  cbn [bind].
  destruct (any_other_dim_ok dim (handle :: fs)) as [mixed ->];
    [intros f Hf; now apply Hfuncs|].
  cbn [bind]. destruct mixed; [now eexists|].
  unfold promote_scalar_expressions. rewrite !length_map, Nat.eqb_refl.
  cbn [negb]. now eexists.
Qed.

Lemma fission_mapper_ok (listed : list Function -> list Function)
  (t : Thresholds) (node : Node) (trees : list (list Iteration)) :
  lists_the_set listed ->
  1 <= max_fission t ->
  (forall f, referenced node f -> has_rank f) ->
  (forall tree, In tree trees -> In tree (retrieve_iteration_tree node)) ->
  forall mapper,
    (forall k, ~ In (k, None) mapper) ->
    exists mapper',
      fission_mapper listed t trees mapper = Ok mapper' /\
      forall k, ~ In (k, None) mapper'.
Proof.
  intros Hl Hmax Hrank. induction trees as [|tree rest IH]; intros Hsub mapper Hm;
    simpl; [now exists mapper|].
  destruct (fission_tree_ok listed t node tree Hl Hmax Hrank) as [entry ->];
    [apply Hsub; now left|].
  cbn [bind]. apply IH; [intros; apply Hsub; now right|].
  destruct entry as [[k v]|]; [|exact Hm].
  intros k' Hin. apply (setitem_In_pair Node_eqb Node_eqb_eq) in Hin.
  destruct Hin as [[_ Heq]|Hin]; [discriminate | now apply (Hm k')].
Qed.

(** X9: loop fission completes.  When the statement threshold
    [max_fission] is at least 1 and every array referenced in the trees
    has at least one dimension and one extent, the pass raises nothing and
    returns exactly one tree for each tree it was given, whatever the
    order in which the set lists the referenced functions. *)
Theorem loop_fission_completes :
  forall (listed : list Function -> list Function)
         (t : Thresholds) (state_nodes : list Node),
    lists_the_set listed ->
    1 <= max_fission t ->
    (forall node f, In node state_nodes -> referenced node f -> has_rank f) ->
    exists processed,
      _loop_fission listed t state_nodes = Ok processed /\
      length processed = length state_nodes.
Proof.
  intros listed t state_nodes Hl Hmax.
  induction state_nodes as [|node rest IH]; intros H;
    simpl; [now exists []|].
  destruct (fission_mapper_ok listed t node (retrieve_iteration_tree node) Hl Hmax)
    with (mapper := @nil (Node * option Node)) as (mapper & -> & Hsome);
    [intros f; apply H; now left | auto | intros k [] |].
  cbn [bind].
  destruct IH as (processed & -> & Hlen); [intros n f Hn; apply H; now right|].
  cbn [bind].
  destruct (Transformer_total mapper node Hsome) as [node' ->].
  eexists. split; [reflexivity|]. simpl. now rewrite Hlen.
Qed.

Lemma loop_fission_completes_example :
  exists processed,
    _loop_fission last_use_order Examples.thresholds
                  [NIteration Examples.mixed_i; Examples.nest3]
    = Ok processed /\
    length processed = length [NIteration Examples.mixed_i; Examples.nest3].
Proof.
  apply (loop_fission_completes last_use_order Examples.thresholds
           [NIteration Examples.mixed_i; Examples.nest3]).
  - exact last_use_order_lists.
  - vm_compute. lia.
  - intros node f [<-|[<-|[]]] (e & He & Hf); vm_compute in He.
    + destruct He as [<-|[<-|[]]]; vm_compute in Hf;
        destruct Hf as [<-|[<-|[]]]; split; discriminate.
    + destruct He as [<-|[]]; vm_compute in Hf;
        destruct Hf as [<-|[<-|[]]]; split; discriminate.
Defined.

(** ** Loop fission: what is executed, and what is left alone *)

Lemma Permutation_flat_map_app {A B} (f g : A -> list B) (l : list A) :
  Permutation (flat_map (fun a => f a ++ g a) l) (flat_map f l ++ flat_map g l).
Proof.
  induction l as [|a l IH]; simpl; [constructor|].
  rewrite IH, <- !app_assoc. apply Permutation_app_head.
  rewrite !app_assoc. apply Permutation_app_tail, Permutation_app_comm.
Qed.

(** A loop over statements executes each of its points once per
    statement. *)
Lemma executed_statements (dims : list string) (env : Env) (i : Iteration)
  (es : list Expression) :
  executed dims env (NIteration (with_nodes i (map NExpression es)))
  = flat_map (fun v => repeat (map (bind_var env (dim_name (dim i)) v) dims)
                              (length es))
             (iteration_values env i).
Proof.
  cbn [executed with_nodes nodes dim].
  change (iteration_values env (mkIteration _ (dim i) (limits i) (offsets i)
                                            (properties i) (pragmas i) (ident i)))
    with (iteration_values env i).
  apply flat_map_ext. intros v.
  induction es as [|e es IH]; simpl; [reflexivity | now rewrite IH].
Qed.

Lemma executed_groups (dims : list string) (env : Env) (i : Iteration)
  (groups : list (list Expression)) :
  Permutation
    (executed dims env (NIteration (with_nodes i (map NExpression (concat groups)))))
    (flat_map (fun g => executed dims env
                          (NIteration (with_nodes i (map NExpression g))))
              groups).
Proof.
  induction groups as [|g groups IH].
  - cbn [concat flat_map]. rewrite executed_statements. cbn [length repeat].
    induction (iteration_values env i); simpl; auto.
  - cbn [concat flat_map]. rewrite <- IH, !executed_statements, length_app.
    erewrite flat_map_ext; [apply Permutation_flat_map_app|].
    intros v. apply repeat_app.
Qed.

(** X10: what fission changes in what is executed, whatever the order in
    which the set lists the referenced functions.  When the group size is
    at least 1, the loops put in place of a fissioned loop execute the
    index points the loop executed, each point as many times as before -
    once per statement -, but in another order: group by group instead of
    point by point. *)
Theorem fission_reorders_statement_instances :
  forall (listed : list Function -> list Function)
         (t : Thresholds) (tree : list Iteration) (k v : Node)
         (dims : list string) (env : Env),
    1 <= min_fission t ->
    fission_tree listed t tree = Ok (Some (k, v)) ->
    Permutation (executed dims env k) (executed dims env v).
Proof.
  intros listed t tree k v dims env Hmin Hfission.
  destruct (fission_tree_groups listed t tree k v Hmin Hfission)
    as (candidate & groups & _ & _ & -> & -> & Hbody & _ & _ & _ & Hlen).
  assert (Hcount : length (expressions_of (nodes candidate)) = length (concat groups)).
  { rewrite Hlen. rewrite Hbody at 2. now rewrite length_map. }
  replace (NIteration candidate)
    with (NIteration (with_nodes candidate
                        (map NExpression (expressions_of (nodes candidate)))))
    by (now rewrite <- Hbody, with_nodes_same).
  rewrite executed_statements, Hcount.
  rewrite <- (executed_statements dims env candidate (concat groups)).
  etransitivity; [apply executed_groups|].
  change (executed dims env (NList [] (map (fission_group candidate) groups) []))
    with (flat_map (executed dims env) (map (fission_group candidate) groups)).
  apply Permutation_refl'. clear Hfission Hlen Hcount.
  induction groups as [|g gs IH]; [reflexivity|].
  cbn [map]. rewrite <- IH. reflexivity.
Qed.

Lemma fission_reorders_statement_instances_example :
  Permutation
    (executed ["i"; "j"]%string (fun _ => 0%Z) (fst Scenarios.fissioned_copy))
    (executed ["i"; "j"]%string (fun _ => 0%Z) (snd Scenarios.fissioned_copy)).
Proof.
  apply (fission_reorders_statement_instances first_use_order
           Examples.thresholds
           Examples.mixed_tree (fst Scenarios.fissioned_copy)
           (snd Scenarios.fissioned_copy)).
  - vm_compute. lia.
  - vm_compute. reflexivity.
Defined.

(** X11: below the statement threshold fission is not applied.  When the
    innermost loop of every iteration tree holds fewer expressions than
    [max_fission], the pass returns the trees as they are, whatever the
    order in which a set would list the referenced functions. *)
Theorem loop_fission_below_threshold :
  forall (listed : list Function -> list Function)
         (t : Thresholds) (state_nodes : list Node),
    (forall node tree candidate,
        In node state_nodes -> In tree (retrieve_iteration_tree node) ->
        item_last tree = Ok candidate ->
        length (expressions_of (nodes candidate)) < max_fission t) ->
    _loop_fission listed t state_nodes = Ok state_nodes.
Proof.
  intros listed t state_nodes H.
  induction state_nodes as [|node rest IH]; [reflexivity|].
  cbn [_loop_fission].
  assert (Hm : forall trees,
             (forall tree, In tree trees -> In tree (retrieve_iteration_tree node)) ->
             fission_mapper listed t trees [] = Ok []).
  { induction trees as [|tree trees IHt]; intros Hsub; [reflexivity|].
    cbn [fission_mapper].
    assert (Hskip : fission_tree listed t tree = Ok None).
    { unfold fission_tree. destruct (length tree <=? 1); [reflexivity|].
      destruct (rev tree) as [|candidate r] eqn:Er; [reflexivity|].
      assert (Hlast : item_last tree = Ok candidate)
        by (unfold item_last; now rewrite Er).
      specialize (H node tree candidate (or_introl eq_refl)
                    (Hsub tree (or_introl eq_refl)) Hlast).
      apply Nat.ltb_lt in H. now rewrite H. }
    rewrite Hskip. cbn [bind]. apply IHt. intros; apply Hsub; now right. }
  rewrite Hm by auto. cbn [bind].
  rewrite IH by (intros n tr c Hn; apply H; now right).
  cbn [bind]. now rewrite Transformer_empty.
Qed.

Lemma loop_fission_below_threshold_example :
  _loop_fission first_use_order Examples.thresholds [Examples.nest3]
  = Ok [Examples.nest3].
Proof.
  apply (loop_fission_below_threshold first_use_order Examples.thresholds
           [Examples.nest3]).
  intros node tree candidate [<-|[]] Htree Hlast. vm_compute in Htree.
  destruct Htree as [<-|[]]. vm_compute in Hlast. inversion Hlast.
  vm_compute. lia.
Defined.

(** ** Loop blocking: completion and arguments *)

Section PassInvariants.
Variable fold_blockable_tree : Node -> bool -> Node.
Variable unfold_blocked_tree : Node -> Node.

(** Every block dimension the pass records is the one named after its
    loop. *)
Lemma blocking_state_canonical (exclude_innermost : bool) (state_nodes : list Node) :
  canonical (fst (blocking_state fold_blockable_tree unfold_blocked_tree
                                 exclude_innermost state_nodes)).
Proof.
  unfold blocking_state.
  assert (H0 : canonical (fst (@nil (Iteration * Dimension), @nil Node)))
    by (intros k d []).
  revert H0. generalize (@nil (Iteration * Dimension), @nil Node).
  induction state_nodes as [|node rest IH]; intros st Hst; [exact Hst|].
  cbn [fold_left]. apply IH. destruct st as [blocked processed].
  unfold block_node.
  assert (Htrees : forall trees (s : Blocked * Mapper),
             canonical (fst s) ->
             canonical (fst (fold_left (block_tree exclude_innermost) trees s))).
  { induction trees as [|tree trees IHt]; intros s Hs; [exact Hs|].
    cbn [fold_left]. apply IHt. now apply block_tree_canonical. }
  match goal with
  | |- context [fold_left (block_tree ?e) ?l ?s] =>
      pose proof (Htrees l s Hst) as H;
      destruct (fold_left (block_tree e) l s) as [blocked' mapper]
  end.
  exact H.
Qed.

(** When no tree qualifies, nothing is recorded and each node is only
    folded and unfolded. *)
Lemma blocking_state_nothing (exclude_innermost : bool) (state_nodes : list Node) :
  (forall node tree,
      In node state_nodes ->
      In tree (retrieve_iteration_tree (fold_blockable_tree node exclude_innermost)) ->
      qualifies exclude_innermost tree = false) ->
  forall processed,
    fold_left (block_node fold_blockable_tree unfold_blocked_tree exclude_innermost)
              state_nodes ([], processed)
    = ([], processed
           ++ map (fun node =>
                     unfold_blocked_tree (fold_blockable_tree node exclude_innermost))
                  state_nodes).
Proof.
  induction state_nodes as [|node rest IH]; intros H processed.
  - simpl. now rewrite app_nil_r.
  - cbn [fold_left]. unfold block_node at 2.
    assert (Htrees : forall trees,
               (forall tree, In tree trees ->
                             qualifies exclude_innermost tree = false) ->
               fold_left (block_tree exclude_innermost) trees ([], [])
               = (@nil (Iteration * Dimension), @nil (Node * option Node))).
    { induction trees as [|tree trees IHt]; intros Hq; [reflexivity|].
      cbn [fold_left].
      assert (Hstep : block_tree exclude_innermost ([], []) tree
                      = (@nil (Iteration * Dimension), @nil (Node * option Node))).
      { specialize (Hq tree (or_introl eq_refl)). unfold qualifies in Hq.
        unfold block_tree.
        destruct (blockable exclude_innermost tree) as [|root r]; [reflexivity|].
        now rewrite Hq. }
      rewrite Hstep. apply IHt. intros; apply Hq; now right. }
    rewrite Htrees by (intros tree Hin; apply (H node tree); [now left | exact Hin]).
    rewrite Transformer_empty. cbn [as_list map].
    rewrite IH by (intros n tr Hn; apply H; now right).
    now rewrite <- app_assoc.
Qed.
End PassInvariants.

(** X12: the blocking pass raises only when some loop was blocked and the
    truth test of [blockshape] itself raises, as that of a NumPy array of
    several items does; what leaves the pass is then the exception of
    that test.  In every other case the pass returns the processed nodes
    with exactly one argument per blocked loop, in the order the loops
    were first blocked; no loop has two arguments, each argument binds its
    loop to the block dimension named after the loop's dimension, and the
    flag 'blocking' is recorded exactly when some loop was blocked. *)
Theorem loop_blocking_completes :
  forall (fold_blockable_tree : Node -> bool -> Node)
         (unfold_blocked_tree : Node -> Node)
         (blockinner : bool) (blockshape : BlockShape) (state_nodes : list Node),
    let st := blocking_state fold_blockable_tree unfold_blocked_tree
                             (negb blockinner) state_nodes in
    match fst st, is_falsy blockshape with
    | _ :: _, Raise e =>
        _loop_blocking fold_blockable_tree unfold_blocked_tree
                       blockinner blockshape state_nodes = Raise e
    | _, _ =>
        exists upd,
          _loop_blocking fold_blockable_tree unfold_blocked_tree
                         blockinner blockshape state_nodes = Ok upd /\
          upd_nodes upd = snd st /\
          map (fun a => (iteration a, blocked_dim a)) (upd_arguments upd) = fst st /\
          NoDup (map iteration (upd_arguments upd)) /\
          (forall a, In a (upd_arguments upd) ->
                     blocked_dim a = block_dimension (iteration a)) /\
          upd_flags upd = match fst st with [] => [] | _ => ["blocking"%string] end
    end.
Proof.
  intros fold unfold blockinner blockshape state_nodes st.
  pose proof (blocking_state_NoDup fold unfold (negb blockinner) state_nodes) as Hnd.
  pose proof (blocking_state_canonical fold unfold (negb blockinner) state_nodes)
    as Hcan.
  unfold _loop_blocking. fold st in Hnd, Hcan |- *.
  destruct st as [blocked processed]. cbn [fst snd] in *.
  assert (Hgood : blocked = [] \/ (exists b, is_falsy blockshape = Ok b) ->
                  exists upd,
                    blocking_update blocked blockshape processed = Ok upd /\
                    upd_nodes upd = processed /\
                    map (fun a => (iteration a, blocked_dim a)) (upd_arguments upd)
                    = blocked /\
                    NoDup (map iteration (upd_arguments upd)) /\
                    (forall a, In a (upd_arguments upd) ->
                               blocked_dim a = block_dimension (iteration a)) /\
                    upd_flags upd
                    = match blocked with [] => [] | _ => ["blocking"%string] end).
  { intros Hcase.
    destruct (blocking_update_completes blocked blockshape processed Hnd Hcase)
      as (upd & Hok & Hn & Hpairs & Hflags).
    exists upd. repeat split; try assumption.
    - replace (map iteration (upd_arguments upd))
        with (keys (map (fun a => (iteration a, blocked_dim a)) (upd_arguments upd)))
        by (unfold keys; rewrite map_map; reflexivity).
      now rewrite Hpairs.
    - intros a Ha. apply (Hcan (iteration a) (blocked_dim a)). rewrite <- Hpairs.
      now apply (in_map (fun a => (iteration a, blocked_dim a))). }
  destruct blocked as [|kd rest] eqn:Eb.
  - apply Hgood. now left.
  - destruct (is_falsy blockshape) as [b|e] eqn:Hf.
    + apply Hgood. right. now exists b.
    + now apply blocking_update_raises.
Qed.

(** X13: when the caller gives no block shape - [None], or a value that
    tests false such as 0 or an empty sequence - and some loop was blocked,
    the pass records the heuristic as the block size of every blocked
    loop and logs no diagnostic. *)
Theorem loop_blocking_defaults_to_heuristic :
  forall (fold_blockable_tree : Node -> bool -> Node)
         (unfold_blocked_tree : Node -> Node)
         (blockinner : bool) (blockshape : BlockShape) (state_nodes : list Node),
    let st := blocking_state fold_blockable_tree unfold_blocked_tree
                             (negb blockinner) state_nodes in
    fst st <> [] ->
    is_falsy blockshape = Ok true ->
    _loop_blocking fold_blockable_tree unfold_blocked_tree
                   blockinner blockshape state_nodes
    = Ok (mkUpdate (snd st) (uniform_args (fst st) bv_heuristic)
                   ["blocking"%string] []).
Proof.
  intros fold unfold blockinner blockshape state_nodes st Hne Hf.
  pose proof (blocking_state_NoDup fold unfold (negb blockinner) state_nodes) as Hnd.
  unfold _loop_blocking. fold st in Hnd |- *.
  destruct st as [blocked processed]. cbn [fst snd] in *.
  now apply blocking_update_heuristic.
Qed.

Lemma loop_blocking_defaults_to_heuristic_example :
  _loop_blocking Examples.nothing_to_fold Examples.nothing_to_unfold
                 false (bs_sequence []) [Examples.nest3]
  = Ok (mkUpdate [Examples.blocked_nest3]
                 [mkBlockingArg (mkDimension "i_block" None) Examples.loop_i
                                bv_heuristic;
                  mkBlockingArg (mkDimension "j_block" None) Examples.loop_j
                                bv_heuristic]
                 ["blocking"%string] []).
Proof.
  apply (loop_blocking_defaults_to_heuristic Examples.nothing_to_fold
           Examples.nothing_to_unfold false (bs_sequence []) [Examples.nest3]).
  - vm_compute. discriminate.
  - reflexivity.
Defined.

(** X14: a block shape with a length is read by position.  When the
    caller's [blockshape] is a non-empty sequence or map and some loop
    was blocked, the k-th blocked loop, in the order the loops were first
    blocked, gets the k-th item that iterating over [blockshape] yields -
    for a sequence a size, for a map, whose sizes are never read, one of
    its keys - and the loops past the last item get [None]; a diagnostic
    is logged exactly when the number of items differs from the number of
    blocked loops. *)
Theorem blockshape_is_read_by_position :
  forall (fold_blockable_tree : Node -> bool -> Node)
         (unfold_blocked_tree : Node -> Node)
         (blockinner : bool) (blockshape : BlockShape) (state_nodes : list Node)
         (nitems : nat),
    let st := blocking_state fold_blockable_tree unfold_blocked_tree
                             (negb blockinner) state_nodes in
    fst st <> [] ->
    is_falsy blockshape = Ok false ->
    len blockshape = Ok nitems ->
    exists upd,
      _loop_blocking fold_blockable_tree unfold_blocked_tree
                     blockinner blockshape state_nodes = Ok upd /\
      map iteration (upd_arguments upd) = keys (fst st) /\
      map value (upd_arguments upd)
      = firstn (length (fst st)) (iter_items blockshape)
        ++ repeat bv_None (length (fst st) - nitems) /\
      (upd_warnings upd = [] <-> nitems = length (fst st)).
Proof.
  intros fold unfold blockinner blockshape state_nodes nitems st Hne Hf Hlen.
  pose proof (blocking_state_NoDup fold unfold (negb blockinner) state_nodes) as Hnd.
  unfold _loop_blocking. fold st in Hnd |- *.
  destruct st as [blocked processed]. cbn [fst snd] in *.
  rewrite (blocking_update_sized _ _ _ nitems Hnd Hne Hf Hlen).
  eexists. split; [reflexivity|]. cbn [upd_arguments upd_warnings].
  split; [|split].
  - pose proof (args_of_pairs blocked (sized_values blocked blockshape)
                  (sized_values_length blocked blockshape)) as Hp.
    apply (f_equal (map fst)) in Hp. rewrite map_map in Hp. exact Hp.
  - rewrite value_args_of by apply sized_values_length.
    unfold sized_values. now rewrite (len_iter_items _ _ Hlen).
  - unfold mismatch_warnings.
    destruct (Nat.ltb_spec (length blocked) nitems);
      destruct (Nat.ltb_spec nitems (length blocked)); simpl;
      split; intros Heq; try discriminate; try lia; reflexivity.
Qed.

Lemma blockshape_is_read_by_position_example :
  exists upd,
    _loop_blocking Examples.nothing_to_fold Examples.nothing_to_unfold false
                   (bs_dict [(Examples.i, 4%Z); (Examples.j, 7%Z)])
                   [Examples.nest3] = Ok upd /\
    map iteration (upd_arguments upd) = [Examples.loop_i; Examples.loop_j] /\
    map value (upd_arguments upd) = [bv_key Examples.i; bv_key Examples.j] /\
    (upd_warnings upd = [] <-> 2%nat = 2%nat).
Proof.
  apply (blockshape_is_read_by_position Examples.nothing_to_fold
           Examples.nothing_to_unfold false
           (bs_dict [(Examples.i, 4%Z); (Examples.j, 7%Z)]) [Examples.nest3] 2).
  - vm_compute. discriminate.
  - reflexivity.
  - reflexivity.
Defined.

(** X15: when no iteration tree qualifies for blocking - none has a
    parallel loop left to block whose first heads a perfect nest - the
    pass blocks nothing: each node is only folded and unfolded, and the
    update carries no argument, no flag and no diagnostic. *)
Theorem loop_blocking_without_candidates :
  forall (fold_blockable_tree : Node -> bool -> Node)
         (unfold_blocked_tree : Node -> Node)
         (blockinner : bool) (blockshape : BlockShape) (state_nodes : list Node),
    (forall node tree,
        In node state_nodes ->
        In tree (retrieve_iteration_tree
                   (fold_blockable_tree node (negb blockinner))) ->
        qualifies (negb blockinner) tree = false) ->
    _loop_blocking fold_blockable_tree unfold_blocked_tree
                   blockinner blockshape state_nodes
    = Ok (mkUpdate
            (map (fun node =>
                    unfold_blocked_tree (fold_blockable_tree node (negb blockinner)))
                 state_nodes)
            [] [] []).
Proof.
  intros fold unfold blockinner blockshape state_nodes H.
  unfold _loop_blocking, blocking_state.
  rewrite (blocking_state_nothing fold unfold (negb blockinner) state_nodes H).
  reflexivity.
Qed.

Lemma loop_blocking_without_candidates_example :
  _loop_blocking Examples.nothing_to_fold Examples.nothing_to_unfold
                 false (bs_sequence [4%Z]) [NIteration Examples.loop_k]
  = Ok (mkUpdate [NIteration Examples.loop_k] [] [] []).
Proof.
  apply (loop_blocking_without_candidates Examples.nothing_to_fold
           Examples.nothing_to_unfold false (bs_sequence [4%Z])
           [NIteration Examples.loop_k]).
  intros node tree [<-|[]] Hin. vm_compute in Hin.
  destruct Hin as [<-|[]]. reflexivity.
Defined.

(** ** Loop blocking: block sizes that divide the extents *)

Section ExactFit.
Local Open Scope Z_scope.
Variable TAG : IterationProperty.
Variable its : list Iteration.
Variable body : list Node.
Variable env : Env.
Hypothesis Hnames : names_apart its.
Hypothesis Hsym : forall i, In i its -> symmetric_loop env i.
Hypothesis Hbody : records_point (map var its) body.
Hypothesis Hfit : forall i, In i its -> exact_fit env i.

Lemma blocked_finish_exact (i : Iteration) :
  In i its -> blocked_finish env i = domain_finish env i.
Proof.
  intros Hi. destruct (Hsym i Hi) as (_ & Hstart & _ & _).
  specialize (Hfit i Hi). unfold exact_fit in Hfit. unfold blocked_finish.
  rewrite <- Hstart, Hfit. lia.
Qed.

Lemma remainder_tree_empty (c : list Dimension) :
  In c (remainder_combinations its) ->
  executed (map var its) env
    (spec_remainder_tree TAG (map (fun i => (i, block_dimension i)) its) body c)
  = [].
Proof.
  intros Hc. apply In_remainder_combinations in Hc. destruct Hc as [Hne Hsub].
  destruct (executed _ _ _) as [|p ps] eqn:E; [reflexivity|]. exfalso.
  assert (Hp : In p (executed (map var its) env
                       (spec_remainder_tree TAG
                          (map (fun i => (i, block_dimension i)) its) body c)))
    by (rewrite E; now left).
  apply (remainder_tree_points TAG its body env Hnames Hsym Hbody) in Hp.
  destruct Hp as [Hlen Hreg].
  destruct c as [|d c']; [contradiction|].
  assert (Hd : In d (map dim its)).
  { eapply Subseq_In; [exact Hsub | now left]. }
  apply in_map_iff in Hd. destruct Hd as (i & Hdi & Hi).
  destruct (in_combine_exists its p i Hlen Hi) as [v Hiv].
  specialize (Hreg i v Hiv). unfold in_region in Hreg.
  assert (Hin : dim_in (dim i) (d :: c') = true).
  { apply dim_in_In. rewrite Hdi. now left. }
  rewrite Hin, (blocked_finish_exact i Hi) in Hreg. lia.
Qed.

Lemma main_tree_covers (p : list Z) :
  In p (executed (map var its) env
          (spec_blocked_tree TAG (map (fun i => (i, block_dimension i)) its) body))
  <-> in_domain env its p.
Proof.
  rewrite (main_tree_points TAG its body env Hnames Hsym Hbody). split.
  - apply (region_in_domain its env Hsym).
  - intros [Hlen Hdom]. split; [exact Hlen|]. intros i v Hiv.
    assert (Hi : In i its) by (eapply in_combine_l; exact Hiv).
    specialize (Hdom i v Hiv).
    rewrite values_original in Hdom by now destruct (Hsym i Hi).
    apply In_unit_loop in Hdom. unfold in_region. cbn [dim_in existsb].
    rewrite (blocked_finish_exact i Hi). exact Hdom.
Qed.
End ExactFit.

(** X16: block sizes that divide the extents.  For a blocked nest of
    symmetric loops in which the extent of every blocked loop is a
    multiple of its block size, the main blocked tree executes exactly the
    points of the Cartesian domain, and every remainder tree put next to
    it executes nothing. *)
Theorem blocking_exact_fit_needs_no_remainder
  (exclude_innermost : bool) (blocked : Blocked) (mapper : Mapper)
  (tree : list Iteration) (root : Iteration) (rest : list Iteration) (env : Env) :
  blockable exclude_innermost tree = root :: rest ->
  IsPerfectIteration root = true ->
  canonical blocked ->
  let its := root :: rest in
  names_apart its ->
  (forall i, In i its -> symmetric_loop env i) ->
  records_point (map var its) (innermost_body its) ->
  (forall i, In i its -> exact_fit env i) ->
  exists blocked' main remainder_trees,
    block_tree exclude_innermost (blocked, mapper) tree
    = (blocked',
       setitem Node_eqb mapper (NIteration root)
               (Some (NList [] (main :: remainder_trees) []))) /\
    (forall p, In p (executed (map var its) env main) <-> in_domain env its p) /\
    (forall T, In T remainder_trees -> executed (map var its) env T = []).
Proof.
  intros Hsel Hperf Hcan its Hnames Hsym Hbody Hfit.
  rewrite (block_tree_built _ blocked mapper tree root rest Hsel Hperf).
  cbv zeta. fold its. rewrite (memoized_dims_canonical its blocked Hcan).
  eexists. eexists. eexists. split; [reflexivity|]. split.
  - intros p.
    exact (main_tree_covers (tagger (length mapper)) its (innermost_body its) env
             Hnames Hsym Hbody Hfit p).
  - intros T HT. apply in_map_iff in HT. destruct HT as (c & <- & Hc).
    exact (remainder_tree_empty (tagger (length mapper)) its (innermost_body its)
             env Hnames Hsym Hbody Hfit c Hc).
Qed.

Lemma blocking_exact_fit_needs_no_remainder_example :
  exists blocked' main remainder_trees,
    block_tree true ([], []) Examples.centred_tree
    = (blocked',
       setitem Node_eqb [] (NIteration Examples.centred_i)
               (Some (NList [] (main :: remainder_trees) []))) /\
    (forall p,
        In p (executed ["i"; "j"]%string Scenarios.blocks_8_4 main)
        <-> in_domain Scenarios.blocks_8_4 Examples.centred_tree p) /\
    (forall T, In T remainder_trees ->
               executed ["i"; "j"]%string Scenarios.blocks_8_4 T = []).
Proof.
  apply (blocking_exact_fit_needs_no_remainder true [] [] Examples.centred_tree
           Examples.centred_i [Examples.centred_j] Scenarios.blocks_8_4).
  - reflexivity.
  - reflexivity.
  - intros k d [].
  - split.
    + vm_compute. repeat constructor; simpl; intuition discriminate.
    + intros i [<-|[<-|[]]]; vm_compute; intuition discriminate.
  - intros i [<-|[<-|[]]]; (split; [|split; [|split]]);
      try (vm_compute; reflexivity); try (vm_compute; discriminate).
    + exists 0%Z, 20%Z. repeat split. discriminate.
    + exists 0%Z, 20%Z. repeat split. discriminate.
  - intros env p. cbn. split.
    + intros [<-|[]]. reflexivity.
    + intros ->. now left.
  - intros i [<-|[<-|[]]]; vm_compute; reflexivity.
Defined.

(** ** Padding: the padded buffers *)

Section Rounding.
Local Open Scope Z_scope.

(** [roundm x y] is the least multiple of [y] from [x] upwards. *)
Lemma roundm_spec (x y r : Z) :
  0 < y -> roundm x y = Ok r -> r mod y = 0 /\ x <= r < x + y.
Proof.
  intros Hy. unfold roundm. destruct (Z.eqb_spec y 0); [lia|].
  pose proof (Z.mod_pos_bound x y Hy) as Hb.
  destruct (Z.eqb_spec (x mod y) 0) as [Hz|Hnz]; intros H; inversion H; subst r.
  - split; [exact Hz | lia].
  - split; [|lia].
    pose proof (Z.div_mod x y ltac:(lia)) as Hd.
    replace (x + y - x mod y) with ((x / y + 1) * y) by lia.
    apply Z.mod_mul. lia.
Qed.
End Rounding.

Lemma removelast_last {A} (l : list A) (x : A) :
  item_last l = Ok x -> l = removelast l ++ [x].
Proof.
  unfold item_last. destruct (rev l) as [|y r] eqn:E; [discriminate|].
  intros H. inversion H; subst y.
  apply (f_equal (@rev A)) in E. rewrite rev_involutive in E. subst l.
  simpl. now rewrite removelast_last.
Qed.

Lemma padded_buffer_spec (w : Z) (k v : Function) :
  (0 < w)%Z -> padded_buffer w k = Ok v -> padded_as w k v.
Proof.
  intros Hw. unfold padded_buffer.
  destruct (item_last (fn_shape k)) as [s|] eqn:Es; cbn [bind]; [|discriminate].
  destruct (roundm s w) as [r|] eqn:Er; cbn [bind]; [|discriminate].
  intros H. inversion H; subst v. cbn.
  repeat split. exists s, r.
  destruct (roundm_spec s w r Hw Er) as [Hmod Hrange].
  split; [now apply removelast_last|]. auto.
Qed.

Lemma padded_buffers_spec (w : Z) (candidates : list Function) :
  (0 < w)%Z ->
  forall entries,
    padded_buffers w candidates = Ok entries ->
    map fst entries = candidates /\
    forall k v, In (k, v) entries -> padded_as w k v.
Proof.
  intros Hw. induction candidates as [|c cs IH]; intros entries; simpl.
  - intros H. inversion H. split; [reflexivity | intros k v []].
  - destruct (padded_buffer w c) as [v0|] eqn:Ev; cbn [bind]; [|discriminate].
    destruct (padded_buffers w cs) as [rest|]; cbn [bind]; [|discriminate].
    intros H. inversion H; subst entries.
    destruct (IH rest eq_refl) as [Hk Hv]. split; [simpl; now rewrite Hk|].
    intros k v [Heq|Hin]; [|now apply Hv].
    inversion Heq; subst. now apply padded_buffer_spec.
Qed.

(** X17: the padding alignment law.  On a tree whose written arrays have a
    rank, for positive vector widths, the entries the padding pass adds
    for the tree are one per padding candidate, in order, and each
    candidate is paired with a buffer of the same dimensions and
    placement, named after it with the prefix p, whose leading extents
    are unchanged and whose trailing extent is the smallest multiple of
    the vector width that is at least the original trailing extent; the
    width is the one of the dtype of the first expression that writes a
    candidate. *)
Theorem padding_rounds_trailing_extent :
  forall (p : Platform) (node : Node) (entries : Padding),
    (forall dt, (0 < simd_width p dt)%Z) ->
    arrays_have_rank node ->
    padding_node p node = Ok entries ->
    map fst entries = padding_candidates node /\
    forall k v,
      In (k, v) entries ->
      exists e0,
        hd_error (candidate_writers node) = Some e0 /\
        padded_as (simd_width p (dtype e0)) k v.
Proof.
  intros p node entries Hw Hrank. rewrite padding_node_eq by exact Hrank.
  destruct (padding_candidates node) as [|c0 cs] eqn:Ec.
  - intros H. inversion H. split; [reflexivity | intros k v []].
  - destruct (candidate_writers node) as [|e0 es]; [discriminate|].
    destruct (negb _); [discriminate|].
    intros H.
    destruct (padded_buffers_spec (simd_width p (dtype e0)) (c0 :: cs) (Hw _)
                entries H) as [Hk Hv].
    split; [exact Hk|]. intros k v Hin. exists e0. split; [reflexivity|].
    now apply Hv.
Qed.

Lemma padding_rounds_trailing_extent_example :
  exists entries,
    padding_node Examples.platform (NIteration Examples.mixed_i) = Ok entries /\
    map fst entries = padding_candidates (NIteration Examples.mixed_i) /\
    forall k v,
      In (k, v) entries ->
      exists e0,
        hd_error (candidate_writers (NIteration Examples.mixed_i)) = Some e0 /\
        padded_as (simd_width Examples.platform (dtype e0)) k v.
Proof.
  eexists. split; [vm_compute; reflexivity|].
  apply (padding_rounds_trailing_extent Examples.platform
           (NIteration Examples.mixed_i)).
  - intros dt. destruct dt; vm_compute; reflexivity.
  - intros f Hf. vm_compute in Hf.
    destruct Hf as [<-|[<-|[]]]; discriminate.
  - vm_compute. reflexivity.
Defined.

Lemma SubstituteExpression_empty (n : Node) : SubstituteExpression [] n = n.
Proof.
  induction n as [i IH|e|h b f IH|h b f IH|] using Node_induction;
    cbn [SubstituteExpression].
  - rewrite (map_ext_Forall _ (fun c => c) IH), map_id. now rewrite with_nodes_same.
  - unfold substitute_expression.
    assert (Hacc : forall a, substitute_access [] a = a) by (now intros [s|g offs]).
    rewrite Hacc, (map_ext _ (fun a => a) Hacc), map_id.
    now destruct e as [[l r] dt].
  - now rewrite (map_ext_Forall _ (fun c => c) IH), map_id.
  - now rewrite (map_ext_Forall _ (fun c => c) IH), map_id.
  - reflexivity.
Qed.

(** X18: padding a state in which no expression writes to an array is a
    no-op: the pass returns the trees as they are, with no copy loop
    before or after them. *)
Theorem padding_without_written_arrays :
  forall (p : Platform) (state_nodes : list Node),
    (forall node, In node state_nodes -> FindSymbols_symbolics_writes node = []) ->
    _padding p state_nodes = Ok state_nodes.
Proof.
  intros p state_nodes H. unfold _padding.
  assert (Hm : padding_mapper p state_nodes [] = Ok []).
  { induction state_nodes as [|node rest IH]; [reflexivity|].
    cbn [padding_mapper]. unfold padding_node.
    rewrite (H node (or_introl eq_refl)). cbn [bind update fold_left].
    apply IH. intros; apply H; now right. }
  rewrite Hm. cbn [bind filter copy_arrays flat_map app].
  rewrite app_nil_r, (map_ext _ (fun n => n) SubstituteExpression_empty), map_id.
  reflexivity.
Qed.

Lemma padding_without_written_arrays_example :
  _padding Examples.platform [NIteration Scenarios.temp_sum]
  = Ok [NIteration Scenarios.temp_sum].
Proof.
  apply (padding_without_written_arrays Examples.platform
           [NIteration Scenarios.temp_sum]).
  intros node [<-|[]]. reflexivity.
Defined.

(** ** The custom rewriter: pass lists *)

Lemma split_nonempty (sep : ascii) (s : string) : split sep s <> [].
Proof.
  destruct s as [|c r]; simpl; [discriminate|].
  destruct (Ascii.eqb c sep); [discriminate|].
  destruct (split sep r); discriminate.
Qed.

Lemma join_cons (sep x : string) (l : list string) :
  l <> [] -> join sep (x :: l) = (x ++ sep ++ join sep l)%string.
Proof. destruct l; [contradiction | reflexivity]. Qed.

(** Joining what [split] gives restores the string. *)
Lemma join_split (sep : ascii) (s : string) :
  join (String sep EmptyString) (split sep s) = s.
Proof.
  induction s as [|c r IH]; [reflexivity|]. cbn [split].
  destruct (Ascii.eqb_spec c sep) as [->|Hne].
  - rewrite join_cons by apply split_nonempty. now rewrite IH.
  - pose proof (split_nonempty sep r) as Hr.
    destruct (split sep r) as [|w ws]; [contradiction|].
    destruct ws as [|w' ws'].
    + simpl in *. now rewrite IH.
    + rewrite join_cons by discriminate. rewrite join_cons in IH by discriminate.
      rewrite <- IH. reflexivity.
Qed.

Lemma split_word (sep : ascii) (x : string) :
  occurs sep x = false -> split sep x = [x].
Proof.
  induction x as [|c r IH]; [reflexivity|]. cbn [occurs split].
  destruct (Ascii.eqb c sep); [discriminate|]. cbn [orb].
  intros H. now rewrite (IH H).
Qed.

Lemma split_app (sep : ascii) (x rest : string) :
  occurs sep x = false ->
  split sep (x ++ String sep rest) = x :: split sep rest.
Proof.
  induction x as [|c r IH]; cbn [occurs].
  - intros _. simpl. now rewrite Ascii.eqb_refl.
  - destruct (Ascii.eqb c sep) eqn:E; [discriminate|]. cbn [orb]. intros H.
    simpl. rewrite E, (IH H). reflexivity.
Qed.

(** Splitting a joined list of separator-free words restores the list. *)
Lemma split_join (sep : ascii) (names : list string) :
  names <> [] ->
  (forall n, In n names -> occurs sep n = false) ->
  split sep (join (String sep EmptyString) names) = names.
Proof.
  induction names as [|x l IH]; [contradiction|]. intros _ H.
  destruct l as [|y l'].
  - simpl. apply split_word. apply H. now left.
  - rewrite join_cons by discriminate.
    change (x ++ String sep EmptyString ++ join (String sep EmptyString) (y :: l'))%string
      with (x ++ String sep (join (String sep EmptyString) (y :: l')))%string.
    rewrite split_app by (apply H; now left).
    rewrite IH; [reflexivity | discriminate | intros; apply H; now right].
Qed.

Lemma registered_no_comma (name : string) :
  registered name -> occurs "," name = false.
Proof.
  unfold registered. simpl. intros [<-|[<-|[<-|[]]]]; reflexivity.
Qed.

Lemma init_accepts (self : Self) (nodes : list Node) (s : string) (params : Params) :
  (forall name, In name (split "," s) -> registered name) ->
  __init__ self nodes (py_str s) params
  = (Ok tt, mkSelf (Some (split "," s)) (Some nodes) (Some params)).
Proof.
  intros H. unfold __init__; cbn [split_passes].
  replace (forallb _ (split "," s)) with true; [reflexivity|].
  symmetry. apply forallb_forall. intros name Hin.
  apply (contains_In_keys String.eqb String.eqb_eq). now apply H.
Qed.

Lemma init_rejects (self : Self) (nodes : list Node) (s : string) (params : Params) :
  ~ (forall name, In name (split "," s) -> registered name) ->
  __init__ self nodes (py_str s) params = (Raise DLEException, self).
Proof.
  intros H. unfold __init__; cbn [split_passes].
  match goal with
  | |- context [forallb ?f ?l] => destruct (forallb f l) eqn:Hall
  end; [|reflexivity].
  exfalso. apply H. intros name Hin. rewrite forallb_forall in Hall.
  apply (contains_In_keys String.eqb String.eqb_eq). now apply Hall.
Qed.

Lemma all_registered_dec (l : list string) :
  (forall name, In name l -> registered name) \/
  ~ (forall name, In name l -> registered name).
Proof.
  induction l as [|x l [IH|IH]].
  - left. intros name [].
  - destruct (in_dec string_dec x (keys passes_mapper)) as [Hx|Hx].
    + left. intros name [<-|Hin]; [exact Hx | now apply IH].
    + right. intros H. apply Hx. apply H. now left.
  - right. intros H. apply IH. intros name Hin. apply H. now right.
Qed.

(** X19: which pass strings the custom rewriter accepts.  A string is
    accepted exactly when it is the comma-separated list of one or more
    registered pass names, and then these names are stored, in order,
    with the nodes and the parameters; every other string - the empty
    string, a list with an unknown name, an empty item or a trailing
    comma - raises the configuration error and leaves the object as it
    was. *)
Theorem custom_rewriter_accepts_exactly_registered_lists :
  forall (self : Self) (nodes : list Node) (s : string) (params : Params),
    (exists names,
        names <> [] /\ (forall n, In n names -> registered n) /\
        s = join "," names /\
        __init__ self nodes (py_str s) params
        = (Ok tt, mkSelf (Some names) (Some nodes) (Some params)))
    \/
    (__init__ self nodes (py_str s) params = (Raise DLEException, self) /\
     ~ exists names,
         names <> [] /\ (forall n, In n names -> registered n) /\
         s = join "," names).
Proof.
  intros self nodes s params.
  destruct (all_registered_dec (split "," s)) as [Hall|Hnot].
  - left. exists (split "," s). split; [apply split_nonempty|].
    split; [exact Hall|]. split; [symmetry; apply join_split|].
    now apply init_accepts.
  - right. split; [now apply init_rejects|].
    intros (names & Hne & Hreg & ->). apply Hnot.
    rewrite split_join; [exact Hreg | exact Hne |].
    intros n Hn. apply registered_no_comma. now apply Hreg.
Qed.

(** X20: a pipeline built from an accepted pass list cannot fail on a
    lookup.  When the constructor of the custom rewriter succeeds, every
    stored name is in the registry, and running the pipeline is running
    the registered passes of these names one after the other, in the
    order given, stopping at the first pass that raises. *)
Theorem custom_pipeline_runs_registered_passes :
  forall (State : Type) (run : Pass -> State -> Result State)
         (self self' : Self) (nodes : list Node) (passes : PyArg) (params : Params),
    __init__ self nodes passes params = (Ok tt, self') ->
    exists names ps,
      self_passes self' = Some names /\
      map (get String.eqb passes_mapper) names = map Some ps /\
      forall state,
        DevitoCustomRewriter._pipeline State run names state
        = DevitoCustomRewriter.run_all State run ps state.
Proof.
  intros State run self self' nodes passes params. unfold __init__.
  destruct passes as [s|l|]; cbn [split_passes]; try discriminate.
  match goal with
  | |- context [forallb ?f ?l] => destruct (forallb f l) eqn:Hall
  end; cbn [negb]; [|discriminate].
  intros H. inversion H; subst self'. clear H. cbn [self_passes].
  exists (split "," s). rewrite forallb_forall in Hall.
  induction (split "," s) as [|name rest IH].
  - exists []. repeat split.
  - destruct IH as (ps & Hsome & Hget & Hrun); [intros; apply Hall; now right|].
    specialize (Hall name (or_introl eq_refl)). unfold contains in Hall.
    destruct (get String.eqb passes_mapper name) as [pass|] eqn:E; [|discriminate].
    exists (pass :: ps). split; [reflexivity|]. split.
    + cbn [map]. now rewrite E, Hget.
    + intros state. cbn [DevitoCustomRewriter._pipeline DevitoCustomRewriter.run_all].
      rewrite E. destruct (run pass state); cbn [bind]; [apply Hrun | reflexivity].
Qed.

Lemma custom_pipeline_runs_registered_passes_example :
  exists names ps,
    self_passes (mkSelf (Some ["fission"; "padding"]%string) (Some [])
                        (Some (mkParams false bs_None false)))
    = Some names /\
    map (get String.eqb passes_mapper) names = map Some ps /\
    forall state,
      DevitoCustomRewriter._pipeline (list Pass) (fun pass log => Ok (log ++ [pass]))
                                     names state
      = DevitoCustomRewriter.run_all (list Pass) (fun pass log => Ok (log ++ [pass]))
                                     ps state.
Proof.
  apply (custom_pipeline_runs_registered_passes (list Pass)
           (fun pass log => Ok (log ++ [pass])) new_object _ []
           (py_str "fission,padding") (mkParams false bs_None false)).
  reflexivity.
Defined.

(** * Properties of the finite-difference tools *)

Section FiniteDifferenceFacts.
Import FiniteDifferences.
Local Open Scope Z_scope.

(** ** [Side.adjoint] *)

(** X21: the adjoint of a side.  Taking the adjoint twice with respect to
    the same operator gives the side back, and the value of the adjoint
    side is the value of the side multiplied by the value of the
    operator: [direct] keeps a side, [transpose] swaps [left] and [right]
    and keeps [centered].  The only failure is a [ValueError], for a side
    that is none of the three tags under an operator other than
    [direct]. *)
Theorem adjoint_is_an_involution :
  forall (s : Side) (m : Transpose),
    match adjoint s m with
    | Val s' =>
        adjoint s' m = Val s /\
        (forall vs vm,
            side_val s = Some vs -> transpose_val m = Some vm ->
            side_val s' = Some (vm * vs))
    | Err e => e = ValueError /\ s = other_side /\ m <> direct
    end.
Proof.
  intros s m. destruct s, m; cbn; repeat split; try discriminate;
    intros vs vm Hs Hm; inversion Hs; inversion Hm; reflexivity.
Qed.

(** ** [dim_with_order] *)

Lemma In_range (x n : Z) : In x (range n) <-> 0 <= x < n.
Proof.
  unfold range. rewrite in_map_iff. split.
  - intros (k & <- & Hk). apply in_seq in Hk. lia.
  - intros H. exists (Z.to_nat x). split; [lia|]. apply in_seq. lia.
Qed.

Lemma NoDup_map_injective {A B} (f : A -> B) (l : list A) :
  (forall a b, f a = f b -> a = b) -> NoDup l -> NoDup (map f l).
Proof.
  intros Hinj. induction 1 as [|a l Ha Hnd IH]; simpl; constructor; [|exact IH].
  intros Hin. apply in_map_iff in Hin. destruct Hin as (b & Hb & Hin).
  apply Hinj in Hb. now subst.
Qed.

Lemma NoDup_range (n : Z) : NoDup (range n).
Proof.
  unfold range. apply NoDup_map_injective; [intros; lia | apply seq_NoDup].
Qed.

Lemma range_positive (n : Z) : 0 < n -> exists t, range n = 0 :: t.
Proof.
  intros H. unfold range. destruct (Z.to_nat n) as [|k] eqn:E; [lia|].
  simpl. now eexists.
Qed.

Lemma range_empty (n : Z) : n <= 0 -> range n = [].
Proof.
  intros H. unfold range. now replace (Z.to_nat n) with 0%nat by lia.
Qed.

Lemma In_tuples {A} (f : A -> list (list A)) (pool : list A) (c : list A) :
  In c (flat_map (fun x => map (cons x) (f x)) pool)
  <-> exists x c', c = x :: c' /\ In x pool /\ In c' (f x).
Proof.
  rewrite in_flat_map. split.
  - intros (x & Hx & Hc). apply in_map_iff in Hc. destruct Hc as (c' & <- & Hc').
    now exists x, c'.
  - intros (x & c' & -> & Hx & Hc'). exists x. split; [exact Hx|].
    now apply in_map.
Qed.

Lemma NoDup_tuples {A} (f : A -> list (list A)) (pool : list A) :
  NoDup pool -> (forall x, NoDup (f x)) ->
  NoDup (flat_map (fun x => map (cons x) (f x)) pool).
Proof.
  intros Hpool Hf. apply NoDup_flat_map; [exact Hpool | |].
  - intros x _. apply NoDup_map_injective; [now intros a b [= ->] | apply Hf].
  - intros x y c _ _ Hx Hy. apply in_map_iff in Hx, Hy.
    destruct Hx as (c1 & <- & _). destruct Hy as (c2 & Heq & _). now inversion Heq.
Qed.

Lemma In_product {A} (pool : list A) (n : nat) (c : list A) :
  In c (product pool n) <-> length c = n /\ Forall (fun x => In x pool) c.
Proof.
  revert c. induction n as [|n IH]; intros c; cbn [product].
  - split.
    + intros [<-|[]]. split; [reflexivity | constructor].
    + intros [Hlen _]. destruct c; [now left | discriminate].
  - rewrite (In_tuples (fun _ => product pool n)). split.
    + intros (x & c' & -> & Hx & Hc'). apply IH in Hc'. destruct Hc' as [Hl Hf].
      split; [simpl; now rewrite Hl | now constructor].
    + intros [Hlen Hall]. destruct c as [|x c']; [discriminate|].
      inversion Hall; subst. exists x, c'. split; [reflexivity|].
      split; [assumption|]. apply IH. split; [now inversion Hlen | assumption].
Qed.

Lemma NoDup_product {A} (pool : list A) (n : nat) :
  NoDup pool -> NoDup (product pool n).
Proof.
  intros Hpool. induction n as [|n IH]; cbn [product].
  - constructor; [intros [] | constructor].
  - now apply (NoDup_tuples (fun _ => product pool n)).
Qed.

Lemma product_head {A} (x0 : A) (pool : list A) (n : nat) :
  exists t, product (x0 :: pool) n = repeat x0 n :: t.
Proof.
  induction n as [|n [t IH]]; cbn [product].
  - now exists [].
  - cbn [flat_map]. rewrite IH. cbn [map app repeat]. now eexists.
Qed.

Lemma max_bound (t : list Z) :
  forall x, x <= fold_left Z.max t x /\
            forall y, In y t -> y <= fold_left Z.max t x.
Proof.
  induction t as [|z t IH]; intros x; cbn [fold_left].
  - split; [lia | intros y []].
  - destruct (IH (Z.max x z)) as [H1 H2]. split; [lia|].
    intros y [<-|Hy]; [lia | now apply H2].
Qed.

Lemma np_max_bound (orders : list Z) (m : Z) :
  np_max orders = Val m -> forall ok, In ok orders -> ok <= m.
Proof.
  destruct orders as [|x t]; [discriminate|]. intros H. inversion H; subst m.
  destruct (max_bound t x) as [H1 H2]. intros ok [<-|Hin]; [exact H1 | now apply H2].
Qed.

Lemma within_spec (c orders : list Z) :
  length c = length orders ->
  exists keep,
    within c orders = Val keep /\
    (keep = true <-> Forall2 Z.le c orders).
Proof.
  revert orders. induction c as [|ck c IH]; intros [|ok orders] Hlen;
    try discriminate; cbn [within].
  - exists true. split; [reflexivity|]. split; [constructor | reflexivity].
  - destruct (Z.leb_spec ck ok) as [Hle|Hgt].
    + destruct (IH orders) as (keep & -> & Hkeep); [now inversion Hlen|].
      exists keep. split; [reflexivity|]. rewrite Hkeep. split.
      * intros H. now constructor.
      * intros H. now inversion H.
    + exists false. split; [reflexivity|]. split; [discriminate|].
      intros H. inversion H; subst. lia.
Qed.

Lemma keep_within_spec (orders : list Z) (all_comb : list (list Z)) :
  (forall c, In c all_comb -> length c = length orders) ->
  exists kept,
    keep_within all_comb orders = Val kept /\
    (forall c, In c kept <-> In c all_comb /\ Forall2 Z.le c orders) /\
    (NoDup all_comb -> NoDup kept).
Proof.
  induction all_comb as [|c rest IH]; intros Hlen; cbn [keep_within].
  - exists []. split; [reflexivity|]. split; [|auto].
    intros c. split; [intros [] | intros [[] _]].
  - destruct (within_spec c orders) as (keep & -> & Hkeep);
      [apply Hlen; now left|].
    destruct IH as (kept & -> & Hin & Hnd); [intros; apply Hlen; now right|].
    eexists. split; [reflexivity|]. split.
    + intros c'. destruct keep.
      * cbn [In]. rewrite Hin. split.
        -- intros [<-|[H1 H2]]; [split; [now left | now apply Hkeep] | tauto].
        -- intros [[<-|H1] H2]; [now left | right; tauto].
      * cbn [In]. rewrite Hin. split; [tauto|].
        intros [[<-|H1] H2]; [|tauto]. apply Hkeep in H2. discriminate.
    + intros Hall. inversion Hall as [|? ? Hc Hrest]; subst.
      destruct keep; [|now apply Hnd]. constructor; [|now apply Hnd].
      intros H. apply Hin in H. tauto.
Qed.

Lemma all_zero (c : list Z) : (forall ck, In ck c -> ck = 0) -> c = repeat 0 (length c).
Proof.
  induction c as [|x c IH]; intros H; [reflexivity|].
  simpl. rewrite (H x (or_introl eq_refl)). f_equal. apply IH.
  intros; apply H; now right.
Qed.

Lemma some_nonzero (c : list Z) :
  c <> repeat 0 (length c) -> exists ck, In ck c /\ ck <> 0.
Proof.
  intros H.
  destruct (Exists_dec (fun ck => ck <> 0) c) as [He|Hn].
  - intros x. destruct (Z.eq_dec x 0); [right; tauto | now left].
  - apply Exists_exists in He. exact He.
  - exfalso. apply H. apply all_zero. intros ck Hin.
    destruct (Z.eq_dec ck 0) as [|Hne]; [assumption|].
    exfalso. apply Hn. apply Exists_exists. now exists ck.
Qed.

Lemma Forall2_bounds (c orders : list Z) (m : Z) :
  (forall ok, In ok orders -> ok <= m) ->
  Forall2 (fun ck ok => 0 <= ck <= ok) c orders ->
  length c = length orders /\
  Forall (fun x => In x (range (m + 1))) c /\
  Forall2 Z.le c orders.
Proof.
  intros Hm. induction 1 as [|ck ok c orders Hck Hrest IH].
  - repeat split; constructor.
  - destruct IH as (Hl & Hf & Hle); [intros; apply Hm; now right|].
    pose proof (Hm ok (or_introl eq_refl)).
    split; [simpl; now rewrite Hl|]. split; constructor; auto; try lia.
    apply In_range. lia.
Qed.

Lemma bounds_Forall2 (c orders : list Z) (m : Z) :
  Forall (fun x => In x (range (m + 1))) c ->
  Forall2 Z.le c orders ->
  Forall2 (fun ck ok => 0 <= ck <= ok) c orders.
Proof.
  intros Hf Hle. induction Hle as [|ck ok c orders Hck Hrest IH]; [constructor|].
  inversion Hf as [|? ? Hin Hf']; subst. apply In_range in Hin.
  constructor; [lia | now apply IH].
Qed.

(** The combinations kept, in terms of the tuples of [product]. *)
Lemma dim_with_order_kept {D : Type} (dims : list D) (orders : list Z) :
  length orders = length dims ->
  orders <> [] ->
  exists combinations,
    dim_with_order dims orders = Val combinations /\
    NoDup combinations /\
    forall c, In c combinations <-> legal_orders orders c.
Proof.
  intros Hlen Hne. unfold dim_with_order.
  destruct (np_max orders) as [m|e] eqn:Em;
    [|destruct orders; [contradiction | discriminate]].
  pose proof (np_max_bound orders m Em) as Hm.
  set (ndim := length dims) in *.
  assert (Hpos : (0 < ndim)%nat).
  { destruct orders; [contradiction | simpl in Hlen; lia]. }
  set (tuples := product (range (m + 1)) ndim).
  assert (Htl : forall c, In c (tl tuples) ->
                          In c tuples /\ c <> repeat 0 ndim).
  { intros c Hc. subst tuples.
    destruct (Z_lt_le_dec 0 (m + 1)) as [Hm1|Hm1].
    - destruct (range_positive (m + 1) Hm1) as [t Ht]. rewrite Ht in *.
      pose proof (NoDup_product (0 :: t) ndim) as Hnd.
      rewrite <- Ht in Hnd at 1. specialize (Hnd (NoDup_range (m + 1))).
      destruct (product_head 0 t ndim) as [rest Hrest]. rewrite Hrest in *.
      cbn [tl] in Hc. split; [now right|].
      intros ->. inversion Hnd. contradiction.
    - rewrite (range_empty (m + 1) Hm1) in Hc.
      destruct ndim as [|k]; [lia|]. cbn in Hc. contradiction. }
  assert (Hin_tl : forall c, In c tuples -> c <> repeat 0 ndim -> In c (tl tuples)).
  { intros c Hc Hnz. destruct tuples as [|c0 rest] eqn:Et; [contradiction|].
    destruct Hc as [<-|Hc]; [|exact Hc]. exfalso. apply Hnz.
    subst tuples.
    destruct (Z_lt_le_dec 0 (m + 1)) as [Hm1|Hm1].
    - destruct (range_positive (m + 1) Hm1) as [t Ht]. rewrite Ht in Et.
      destruct (product_head 0 t ndim) as [rest' Hrest]. rewrite Hrest in Et.
      now inversion Et.
    - rewrite (range_empty (m + 1) Hm1) in Et.
      destruct ndim as [|k]; [lia|]. discriminate. }
  destruct (keep_within_spec orders (tl tuples)) as (kept & -> & Hkept & Hnd).
  { intros c Hc. apply Htl in Hc. destruct Hc as [Hc _].
    apply In_product in Hc. destruct Hc as [Hl _]. now rewrite Hl, Hlen. }
  exists kept. split; [reflexivity|]. split.
  - apply Hnd. subst tuples.
    pose proof (NoDup_product (range (m + 1)) ndim (NoDup_range (m + 1))) as H.
    destruct (product _ _); [constructor | now inversion H].
  - intros c. rewrite Hkept. unfold legal_orders. split.
    + intros [Hc Hle]. apply Htl in Hc. destruct Hc as [Hc Hnz].
      apply In_product in Hc. destruct Hc as [Hl Hf].
      split; [now apply (bounds_Forall2 c orders m)|].
      apply some_nonzero. now rewrite Hl.
    + intros [Hb (ck & Hck & Hnz)].
      destruct (Forall2_bounds c orders m Hm Hb) as (Hl & Hf & Hle).
      split; [|exact Hle]. apply Hin_tl.
      * apply In_product. split; [now rewrite Hl, Hlen | exact Hf].
      * intros ->. apply repeat_spec in Hck. contradiction.
Qed.

(** X22: the derivative orders [dim_with_order] lists.  Given one order
    per dimension, the call fails with a [ValueError] when there is no
    dimension at all; otherwise it returns, each exactly once, the tuples
    that give every dimension a derivative order between 0 and the order
    of that dimension and are not all zero. *)
Theorem dim_with_order_lists_legal_combinations :
  forall (D : Type) (dims : list D) (orders : list Z),
    length orders = length dims ->
    match orders with
    | [] => dim_with_order dims orders = Err ValueError
    | _ =>
        exists combinations,
          dim_with_order dims orders = Val combinations /\
          NoDup combinations /\
          forall c, In c combinations <-> legal_orders orders c
    end.
Proof.
  intros D dims orders Hlen. destruct orders as [|ok rest] eqn:E; [reflexivity|].
  rewrite <- E in *. apply dim_with_order_kept; [exact Hlen|].
  rewrite E. discriminate.
Qed.

Lemma dim_with_order_lists_legal_combinations_example :
  exists combinations,
    dim_with_order ["x"; "y"]%string [1; 1] = Val combinations /\
    NoDup combinations /\
    forall c, In c combinations <-> legal_orders [1; 1] c.
Proof.
  apply (dim_with_order_lists_legal_combinations string ["x"; "y"]%string [1; 1]).
  reflexivity.
Defined.

Lemma In_box (orders c : list Z) :
  In c (box orders) <-> Forall2 (fun ck ok => 0 <= ck <= ok) c orders.
Proof.
  revert c. induction orders as [|ok t IH]; intros c; cbn [box].
  - split.
    + intros [<-|[]]. constructor.
    + intros H. inversion H. now left.
  - rewrite (In_tuples (fun _ => box t)). split.
    + intros (x & c' & -> & Hx & Hc'). apply In_range in Hx. apply IH in Hc'.
      constructor; [lia | exact Hc'].
    + intros H. inversion H as [|ck ? c' ? Hck Hrest]; subst.
      exists ck, c'. split; [reflexivity|]. split; [apply In_range; lia|].
      now apply IH.
Qed.

Lemma NoDup_box (orders : list Z) : NoDup (box orders).
Proof.
  induction orders as [|ok t IH]; cbn [box].
  - constructor; [intros [] | constructor].
  - apply (NoDup_tuples (fun _ => box t)); [apply NoDup_range | auto].
Qed.

Lemma length_tuples {A} (l : list (list A)) (pool : list A) :
  length (flat_map (fun x => map (cons x) l) pool) = (length pool * length l)%nat.
Proof.
  induction pool as [|x pool IH]; simpl; [reflexivity|].
  now rewrite length_app, length_map, IH.
Qed.

Lemma length_box (orders : list Z) : length (box orders) = box_size orders.
Proof.
  induction orders as [|ok t IH]; cbn [box box_size fold_right]; [reflexivity|].
  rewrite length_tuples, IH. unfold range. now rewrite length_map, length_seq.
Qed.

Lemma Forall2_zeros (orders : list Z) :
  (forall ok, In ok orders -> 0 <= ok) ->
  Forall2 (fun ck ok => 0 <= ck <= ok) (repeat 0 (length orders)) orders.
Proof.
  induction orders as [|ok t IH]; intros H; simpl; constructor.
  - specialize (H ok (or_introl eq_refl)). lia.
  - apply IH. intros; apply H; now right.
Qed.

(** X23: how many derivative orders [dim_with_order] lists.  When every
    dimension has a non-negative order, the number of tuples returned is
    the product of the orders, each increased by one, minus one. *)
Theorem dim_with_order_counts_combinations :
  forall (D : Type) (dims : list D) (orders : list Z),
    length orders = length dims ->
    orders <> [] ->
    (forall ok, In ok orders -> 0 <= ok) ->
    exists combinations,
      dim_with_order dims orders = Val combinations /\
      S (length combinations) = box_size orders.
Proof.
  intros D dims orders Hlen Hne Hpos.
  destruct (dim_with_order_kept dims orders Hlen Hne) as (l & Hl & Hnd & Hin).
  exists l. split; [exact Hl|].
  rewrite <- length_box.
  change (S (length l)) with (length (repeat 0 (length orders) :: l)).
  apply Permutation_length. apply NoDup_Permutation.
  - constructor; [|exact Hnd]. intros H. apply Hin in H.
    destruct H as [_ (ck & Hck & Hnz)]. apply repeat_spec in Hck. contradiction.
  - apply NoDup_box.
  - intros c. rewrite In_box. cbn [In]. rewrite Hin. unfold legal_orders. split.
    + intros [<-|[H _]]; [now apply Forall2_zeros | exact H].
    + intros H.
      assert (Hc : length c = length orders) by (eapply Forall2_length; exact H).
      destruct (list_eq_dec Z.eq_dec c (repeat 0 (length c))) as [Heq|Hneq].
      * left. now rewrite Heq, Hc.
      * right. split; [exact H | now apply some_nonzero].
Qed.

Lemma dim_with_order_counts_combinations_example :
  exists combinations,
    dim_with_order ["t"; "x"; "y"]%string [2; 4; 4] = Val combinations /\
    S (length combinations) = box_size [2; 4; 4].
Proof.
  apply (dim_with_order_counts_combinations string ["t"; "x"; "y"]%string [2; 4; 4]).
  - reflexivity.
  - discriminate.
  - intros ok [<-|[<-|[<-|[]]]]; lia.
Defined.

(** ** [generate_indices] *)

Lemma length_range2 (a b : Z) : length (range2 a b) = Z.to_nat (b - a).
Proof. unfold range2. now rewrite length_map, length_seq. Qed.

Lemma In_range2 (a b x : Z) : In x (range2 a b) <-> a <= x < b.
Proof.
  unfold range2. rewrite in_map_iff. split.
  - intros (k & <- & Hk). apply in_seq in Hk. lia.
  - intros H. exists (Z.to_nat (x - a)). split; [lia|]. apply in_seq. lia.
Qed.

Lemma NoDup_range2 (a b : Z) : NoDup (range2 a b).
Proof.
  unfold range2. apply NoDup_map_injective; [intros; lia | apply seq_NoDup].
Qed.

(** X24: the size of a finite-difference stencil on a grid that is not
    staggered.  For an order from 0 up, a one-sided or centred first
    derivative ([side] given) uses [order + 1] points and no expansion
    point; otherwise the stencil is expanded about [dim] and uses
    [order + 1] points, or 2 points when the order is below 2. *)
Theorem generate_indices_point_count :
  forall (order : Z) (stagger side : option Side),
    0 <= order < 2 ^ 53 ->
    exists ind,
      fst (generate_indices false order stagger side) = in_order ind /\
      match side with
      | Some _ =>
          Z.of_nat (length ind) = order + 1 /\
          snd (generate_indices false order stagger side) = no_origin
      | None =>
          Z.of_nat (length ind) = Z.max order 1 + 1 /\
          snd (generate_indices false order stagger side) = origin 0
      end.
Proof.
  intros order stagger side [Horder _]. unfold generate_indices.
  destruct side as [s|]; cbv zeta; cbn [fst snd].
  - eexists. split; [reflexivity|]. split; [|reflexivity].
    rewrite !Z.quot_div_nonneg by lia.
    destruct s; rewrite length_map, length_range2;
      pose proof (Z.div_mod order 2 ltac:(lia));
      pose proof (Z.mod_pos_bound order 2 ltac:(lia));
      pose proof (Z.div_mod (order + 1) 2 ltac:(lia));
      pose proof (Z.mod_pos_bound (order + 1) 2 ltac:(lia));
      lia.
  - eexists. split; [reflexivity|]. split; [|reflexivity].
    destruct (Z.ltb_spec order 2); [simpl; lia|].
    rewrite length_map, length_range2.
    pose proof (Z.div_mod order 2 ltac:(lia)).
    pose proof (Z.mod_pos_bound order 2 ltac:(lia)).
    pose proof (Z.div_mod (- order) 2 ltac:(lia)).
    pose proof (Z.mod_pos_bound (- order) 2 ltac:(lia)).
    lia.
Qed.

Lemma generate_indices_point_count_example :
  exists ind,
    fst (generate_indices false 4 None None) = in_order ind /\
    Z.of_nat (length ind) = Z.max 4 1 + 1 /\
    snd (generate_indices false 4 None None) = origin 0.
Proof.
  apply (generate_indices_point_count 4 None None). lia.
Defined.

(** With [off] half a step to one side, [int(i+.5+off)] moves [i] by 0
    or by 1, so the set holds one item per [i]. *)
Lemma staggered_steps (order off shift : Z) :
  off = 2 * shift - 1 ->
  NoDup (map (fun i => mkIndex (i + shift) 0) (range2 (- order / 2) (order / 2))) ->
  nodup Index_eq_dec
        (map (fun i => mkIndex (Z.quot (2 * i + 1 + off) 2) 0)
             (range2 (- order / 2) (order / 2)))
  = map (fun i => mkIndex (i + shift) 0) (range2 (- order / 2) (order / 2)).
Proof.
  intros -> Hnd.
  rewrite (map_ext _ (fun i => mkIndex (i + shift) 0)).
  - now apply nodup_fixed_point.
  - intros i. f_equal.
    replace (2 * i + 1 + (2 * shift - 1)) with ((i + shift) * 2) by lia.
    apply Z.quot_mul. lia.
Qed.

(** X25: the stencil of a staggered function.  For an order of at least
    2 and a function staggered to the left or to the right, the expansion
    point lies half a step to that side of [dim], and the stencil holds
    exactly [order] grid points, each once: the steps [k] with
    [-order//2 <= k < order//2] for the left, and these moved up by one
    for the right. *)
Theorem generate_indices_staggered_points :
  forall (order : Z) (s : Side) (side : option Side),
    2 <= order ->
    s = left \/ s = right ->
    let shift := if Side_eqb s right then 1 else 0 in
    exists ind,
      generate_indices true order (Some s) side
      = (in_some_order ind, origin (2 * shift - 1)) /\
      NoDup ind /\
      Z.of_nat (length ind) = order /\
      forall idx,
        In idx ind
        <-> exists k, idx = mkIndex k 0 /\
                      - order / 2 <= k - shift < order / 2.
Proof.
  intros order s side Horder Hs shift.
  assert (Hnd : NoDup (map (fun i => mkIndex (i + shift) 0)
                           (range2 (- order / 2) (order / 2)))).
  { apply NoDup_map_injective; [|apply NoDup_range2].
    intros a b H. inversion H. lia. }
  exists (map (fun i => mkIndex (i + shift) 0) (range2 (- order / 2) (order / 2))).
  split; [|split; [exact Hnd | split]].
  - unfold generate_indices.
    destruct (Z.ltb_spec order 2) as [|_]; [lia|].
    destruct Hs as [-> | ->]; subst shift; cbv beta iota zeta; cbn [Side_eqb] in *.
    + rewrite (staggered_steps order (-1) 0 eq_refl Hnd). reflexivity.
    + rewrite (staggered_steps order 1 1 eq_refl Hnd). reflexivity.
  - rewrite length_map, length_range2.
    pose proof (Z.div_mod order 2 ltac:(lia)).
    pose proof (Z.mod_pos_bound order 2 ltac:(lia)).
    pose proof (Z.div_mod (- order) 2 ltac:(lia)).
    pose proof (Z.mod_pos_bound (- order) 2 ltac:(lia)).
    lia.
  - intros idx. rewrite in_map_iff. split.
    + intros (i & <- & Hi). apply In_range2 in Hi.
      exists (i + shift). split; [reflexivity | lia].
    + intros (k & -> & Hk). exists (k - shift). split; [f_equal; lia|].
      apply In_range2. lia.
Qed.

Lemma generate_indices_staggered_points_example :
  exists ind,
    generate_indices true 4 (Some left) None = (in_some_order ind, origin (-1)) /\
    NoDup ind /\
    Z.of_nat (length ind) = 4 /\
    forall idx,
      In idx ind <-> exists k, idx = mkIndex k 0 /\ - 4 / 2 <= k - 0 < 4 / 2.
Proof.
  apply (generate_indices_staggered_points 4 left None); [lia | now left].
Defined.
End FiniteDifferenceFacts.
